(** * Verification of the text-editing core of the coding agent

  Shallow embedding of

  - the sequence matcher [seekSequence]
    (packages/coding-agent/src/core/tools/edit, seek-sequence part),
  - the hunk parser and patch applicator
    ([parseDiffHunks], [computeReplacements], [applyDiffToContent]),
  - the patch operations on the file system ([applyPatch], [previewPatch]),
  - the hashline mismatch failure ([HashlineMismatchError]) together with
    the validation pass of [applyHashlineEdits].

  JavaScript strings are sequences of UTF-16 code units; they are modelled
  as [list N].  JavaScript numbers that hold indices and lengths are [nat].
  The similarity scores are IEEE doubles in the program.  Module [Ieee]
  models them as such (binary64, after the specification of floating-point
  numbers of the standard library); what the fuzzy pass returns depends on
  the rounding and is stated there.  Module [SeekSequence] computes the
  scores as exact rationals [Q]; the bounds of the confidence and the
  applicator are stated on it. *)

From Stdlib Require Import QArith Qround Lqa.
From Stdlib Require Import Floats.SpecFloat.
From stdpp Require Import base numbers list sorting strings gmap pretty.

Set Default Proof Using "Type".

(* ===================================================================== *)
(** * JavaScript strings *)
(* ===================================================================== *)

Module JsString.

(** A string is the list of its UTF-16 code units. *)
Abbreviation jsstring := (list N).

(** String literal (ASCII only): each character becomes one code unit. *)
Definition js (s : string) : jsstring :=
  (fun a => Ascii.N_of_ascii a) <$> String.list_ascii_of_string s.

(** [a === b] on strings. *)
Definition strEq (a b : jsstring) : bool := bool_decide (a = b).

(** WhiteSpace and LineTerminator code points of ECMAScript: the
    characters removed by [trim], [trimStart] and [trimEnd]. *)
Definition isWhiteSpace (c : N) : bool :=
  ((9 <=? c) && (c <=? 13)            (* TAB, LF, VT, FF, CR *)
   || (c =? 32)                       (* SPACE *)
   || (c =? 160)                      (* NO-BREAK SPACE *)
   || (c =? 5760)                     (* OGHAM SPACE MARK *)
   || ((8192 <=? c) && (c <=? 8202))  (* U+2000 .. U+200A *)
   || (c =? 8232) || (c =? 8233)      (* LINE / PARAGRAPH SEPARATOR *)
   || (c =? 8239)                     (* NARROW NO-BREAK SPACE *)
   || (c =? 8287)                     (* MEDIUM MATHEMATICAL SPACE *)
   || (c =? 12288)                    (* IDEOGRAPHIC SPACE *)
   || (c =? 65279))%N.                (* ZERO WIDTH NO-BREAK SPACE *)

Fixpoint trimStart (s : jsstring) : jsstring :=
  match s with
  | c :: s' => if isWhiteSpace c then trimStart s' else s
  | [] => []
  end.

Definition trimEnd (s : jsstring) : jsstring :=
  reverse (trimStart (reverse s)).

Definition trim (s : jsstring) : jsstring := trimEnd (trimStart s).

(** [s.startsWith(p)] *)
Fixpoint startsWith (p s : jsstring) : bool :=
  match p, s with
  | [], _ => true
  | a :: p', b :: s' => (a =? b)%N && startsWith p' s'
  | _ :: _, [] => false
  end.

(** [s.endsWith("\n")] *)
Definition endsWithNewline (s : jsstring) : bool :=
  match last s with
  | Some c => (c =? 10)%N
  | None => false
  end.

(** [s.split("\n")]: always at least one piece. *)
Fixpoint splitLines (s : jsstring) : list jsstring :=
  match s with
  | [] => [[]]
  | c :: s' =>
      if (c =? 10)%N then [] :: splitLines s'
      else match splitLines s' with
           | l :: ls => (c :: l) :: ls
           | [] => [[c]]
           end
  end.

(** [ls.join("\n")] *)
Fixpoint joinLines (ls : list jsstring) : jsstring :=
  match ls with
  | [] => []
  | [l] => l
  | l :: ls' => l ++ 10%N :: joinLines ls'
  end.

End JsString.

Import JsString.

(* ===================================================================== *)
(** * The sequence matcher *)
(* ===================================================================== *)

Module SeekSequence.

Record SeekSequenceResult := mkSeek {
  index : option nat;
  confidence : Q
}.

(** ** Normalisation *)

(** The per-character map of [normalizeUnicode]. *)
Definition normalizeUnicodeChar (code : N) : N :=
  if ((code =? 0x2010) || (code =? 0x2011) || (code =? 0x2012)
      || (code =? 0x2013) || (code =? 0x2014) || (code =? 0x2015)
      || (code =? 0x2212))%N then 45%N
  else if ((code =? 0x2018) || (code =? 0x2019) || (code =? 0x201a)
      || (code =? 0x201b))%N then 39%N
  else if ((code =? 0x201c) || (code =? 0x201d) || (code =? 0x201e)
      || (code =? 0x201f))%N then 34%N
  else if ((code =? 0x00a0) || (code =? 0x2002) || (code =? 0x2003)
      || (code =? 0x2004) || (code =? 0x2005) || (code =? 0x2006)
      || (code =? 0x2007) || (code =? 0x2008) || (code =? 0x2009)
      || (code =? 0x200a) || (code =? 0x202f) || (code =? 0x205f)
      || (code =? 0x3000))%N then 32%N
  else code.

(** [s.trim().split("").map(...).join("")] *)
Definition normalizeUnicode (s : jsstring) : jsstring :=
  normalizeUnicodeChar <$> trim s.

(** The three character classes replaced by [normalizeFuzzyText], as they
    stand in the source. *)
Definition isDoubleQuoteLike (c : N) : bool :=
  ((c =? 34) || (c =? 0x201e) || (c =? 0x201f) || (c =? 0xab) || (c =? 0xbb))%N.
Definition isSingleQuoteLike (c : N) : bool :=
  ((c =? 39) || (c =? 0x201a) || (c =? 0x201b) || (c =? 96) || (c =? 0xb4))%N.
Definition isDashLike (c : N) : bool :=
  ((c =? 0x2010) || (c =? 0x2011) || (c =? 0x2012) || (c =? 0x2013)
   || (c =? 0x2014) || (c =? 0x2212))%N.

(** [text.replace(/[cls]/g, r)] for a character class and a one-character
    replacement. *)
Definition replaceClass (cls : N -> bool) (r : N) (text : jsstring) : jsstring :=
  (fun c => if cls c then r else c) <$> text.

Definition normalizeFuzzyText (text : jsstring) : jsstring :=
  replaceClass isDashLike 45%N
    (replaceClass isSingleQuoteLike 39%N
       (replaceClass isDoubleQuoteLike 34%N text)).

(** [s.replace(/[ \t]+/g, " ")]: [inRun] tells that the previous character
    belonged to the run being replaced. *)
Fixpoint collapseBlanks (inRun : bool) (s : jsstring) : jsstring :=
  match s with
  | [] => []
  | c :: s' =>
      if ((c =? 32) || (c =? 9))%N
      then if inRun then collapseBlanks true s'
           else 32%N :: collapseBlanks true s'
      else c :: collapseBlanks false s'
  end.

Definition normalizeLineForFuzzy (line : jsstring) : jsstring :=
  let trimmed := trim line in
  if (length trimmed =? 0)%nat then []
  else collapseBlanks false (normalizeFuzzyText trimmed).

(** ** Levenshtein distance (two-row dynamic programme) *)

(** The inner loop over [j]: [diag] is [prev[j-1]], the head of [prev] is
    [prev[j]], [left] is [curr[j-1]]; returns [curr[j..]]. *)
Fixpoint levRow (aCode : N) (b : jsstring) (diag : nat) (prev : list nat)
    (left : nat) : list nat :=
  match b, prev with
  | bj :: b', pj :: prev' =>
      let cost := if (aCode =? bj)%N then 0 else 1 in
      let deletion := pj + 1 in
      let insertion := left + 1 in
      let substitution := diag + cost in
      let v := Nat.min (Nat.min deletion insertion) substitution in
      v :: levRow aCode b' pj prev' v
  | _, _ => []
  end.

(** One iteration of the outer loop: from row [i-1] to row [i]. *)
Definition levStep (b : jsstring) (i : nat) (aCode : N) (prev : list nat) : list nat :=
  match prev with
  | p0 :: prev' => i :: levRow aCode b p0 prev' i
  | [] => [i]
  end.

(** The outer loop over [i], starting at [i]. *)
Fixpoint levRows (b : jsstring) (i : nat) (a : jsstring) (prev : list nat) : list nat :=
  match a with
  | [] => prev
  | aCode :: a' => levRows b (S i) a' (levStep b i aCode prev)
  end.

Definition levenshteinDistance (a b : jsstring) : nat :=
  if strEq a b then 0
  else if (length a =? 0)%nat then length b
  else if (length b =? 0)%nat then length a
  else default 0 (last (levRows b 1 a (seq 0 (S (length b))))).

(** ** Similarity *)

Definition Qnat (n : nat) : Q := inject_Z (Z.of_nat n).

Definition similarityScore (a b : jsstring) : Q :=
  if ((length a =? 0) && (length b =? 0))%nat then 1%Q
  else
    let maxLen := Nat.max (length a) (length b) in
    if (maxLen =? 0)%nat then 1%Q
    else (1 - Qnat (levenshteinDistance a b) / Qnat maxLen)%Q.

Definition FUZZY_THRESHOLD : Q := (92 # 100)%Q.

(** [lines[k]]; every access made by [seekSequence] is within range (see
    [candidates_in_range] below). *)
Definition lineAt (lines : list jsstring) (k : nat) : jsstring :=
  default [] (lines !! k).

(** [for (j = 0; j < pattern.length; j++) if (!compare(lines[i+j], pattern[j])) return false] *)
Fixpoint matchesFrom (lines : list jsstring) (compare : jsstring -> jsstring -> bool)
    (k : nat) (pattern : list jsstring) : bool :=
  match pattern with
  | [] => true
  | p :: pattern' =>
      if compare (lineAt lines k) p then matchesFrom lines compare (S k) pattern'
      else false
  end.

Definition matchesAt (lines pattern : list jsstring) (i : nat)
    (compare : jsstring -> jsstring -> bool) : bool :=
  matchesFrom lines compare i pattern.

(** The accumulation loop of [fuzzyScoreAt]. *)
Fixpoint fuzzyTotal (lines : list jsstring) (k : nat) (pattern : list jsstring)
    (totalScore : Q) : Q :=
  match pattern with
  | [] => totalScore
  | p :: pattern' =>
      fuzzyTotal lines (S k) pattern'
        (totalScore + similarityScore (normalizeLineForFuzzy (lineAt lines k))
                                      (normalizeLineForFuzzy p))%Q
  end.

Definition fuzzyScoreAt (lines pattern : list jsstring) (i : nat) : Q :=
  (fuzzyTotal lines i pattern 0 / Qnat (length pattern))%Q.

(** ** The search loops *)

(** [for (i = from; ...; i++) if (p i) return i], [n] iterations left. *)
Fixpoint firstFrom (p : nat -> bool) (i n : nat) : option nat :=
  match n with
  | 0 => None
  | S n' => if p i then Some i else firstFrom p (S i) n'
  end.

(** [for (i = from; ...; i++) { if (score i > bestScore) {...} }] *)
Fixpoint bestFrom (score : nat -> Q) (i n : nat) (best : option nat * Q)
    : option nat * Q :=
  match n with
  | 0 => best
  | S n' =>
      let s := score i in
      bestFrom score (S i) n'
        (if Qlt_le_dec (snd best) s then (Some i, s) else best)
  end.

Definition cmpExact (a b : jsstring) : bool := strEq a b.
Definition cmpTrimEnd (a b : jsstring) : bool := strEq (trimEnd a) (trimEnd b).
Definition cmpTrim (a b : jsstring) : bool := strEq (trim a) (trim b).
Definition cmpUnicode (a b : jsstring) : bool :=
  strEq (normalizeUnicode a) (normalizeUnicode b).

Definition seekSequence (lines pattern : list jsstring) (start : nat) (eof : bool)
    : SeekSequenceResult :=
  if (length pattern =? 0)%nat then mkSeek (Some start) 1%Q
  else if (length lines <? length pattern)%nat then mkSeek None 0%Q
  else
    let searchStart :=
      if eof && (length pattern <=? length lines)%nat
      then length lines - length pattern else start in
    let maxStart := length lines - length pattern in
    let pass compare :=
      firstFrom (fun i => matchesAt lines pattern i compare)
                searchStart (S maxStart - searchStart) in
    match pass cmpExact with
    | Some i => mkSeek (Some i) 1%Q
    | None =>
    match pass cmpTrimEnd with
    | Some i => mkSeek (Some i) (99 # 100)%Q
    | None =>
    match pass cmpTrim with
    | Some i => mkSeek (Some i) (98 # 100)%Q
    | None =>
    match pass cmpUnicode with
    | Some i => mkSeek (Some i) (97 # 100)%Q
    | None =>
      let best1 :=
        bestFrom (fuzzyScoreAt lines pattern) searchStart
                 (S maxStart - searchStart) (None, 0%Q) in
      let best2 :=
        if eof && (start <? searchStart)%nat
        then bestFrom (fuzzyScoreAt lines pattern) start (searchStart - start) best1
        else best1 in
      match fst best2 with
      | Some bestIndex =>
          if Qle_bool FUZZY_THRESHOLD (snd best2)
          then mkSeek (Some bestIndex) (snd best2)
          else mkSeek None (snd best2)
      | None => mkSeek None (snd best2)
      end
    end end end end.

End SeekSequence.

Import SeekSequence.

(* ===================================================================== *)
(** * The sequence matcher on IEEE doubles *)
(* ===================================================================== *)

(** The scores of [seekSequence] once more, as the program computes them.
    The strict passes, the normalisers and the Levenshtein distance are
    those of [SeekSequence]; only the arithmetic of the scores differs. *)
Module Ieee.

(** The numbers of JavaScript are the IEEE 754 binary64 numbers: 53 bits of
    mantissa, exponents below 1024, every operation rounded to the nearest
    number, ties to the even mantissa. *)
Definition prec : Z := 53.
Definition emax : Z := 1024.

(** An index or a length as a number. *)
Definition ofNat (n : nat) : spec_float :=
  binary_normalize prec emax (Z.of_nat n) 0 false.

Definition add : spec_float -> spec_float -> spec_float := SFadd prec emax.
Definition sub : spec_float -> spec_float -> spec_float := SFsub prec emax.
Definition div : spec_float -> spec_float -> spec_float := SFdiv prec emax.

(** [a < b] and [a <= b]; [a > b] is [lt b a] and [a >= b] is [le b a].
    Every comparison with NaN is false. *)
Definition lt (a b : spec_float) : bool := SFltb a b.
Definition le (a b : spec_float) : bool := SFleb a b.

(** The literals of the source, as the numbers they denote. *)
Definition zero : spec_float := S754_zero false.
Definition one : spec_float := S754_finite false 4503599627370496 (-52).
(* 0.99 = 0x1.fae147ae147aep-1 *)
Definition c99 : spec_float := S754_finite false 8917127262193582 (-53).
(* 0.98 = 0x1.f5c28f5c28f5cp-1 *)
Definition c98 : spec_float := S754_finite false 8827055269646172 (-53).
(* 0.97 = 0x1.f0a3d70a3d70ap-1 *)
Definition c97 : spec_float := S754_finite false 8736983277098762 (-53).
(* 0.92 = 0x1.d70a3d70a3d71p-1 *)
Definition FUZZY_THRESHOLD : spec_float := S754_finite false 8286623314361713 (-53).

Record SeekSequenceResult := mkSeek {
  index : option nat;
  confidence : spec_float
}.

(** [1 - distance / maxLen] *)
Definition similarityScore (a b : jsstring) : spec_float :=
  if ((length a =? 0) && (length b =? 0))%nat then one
  else
    let maxLen := Nat.max (length a) (length b) in
    if (maxLen =? 0)%nat then one
    else sub one (div (ofNat (levenshteinDistance a b)) (ofNat maxLen)).

(** The accumulation loop of [fuzzyScoreAt]. *)
Fixpoint fuzzyTotal (lines : list jsstring) (k : nat) (pattern : list jsstring)
    (totalScore : spec_float) : spec_float :=
  match pattern with
  | [] => totalScore
  | p :: pattern' =>
      fuzzyTotal lines (S k) pattern'
        (add totalScore
           (similarityScore (normalizeLineForFuzzy (lineAt lines k))
                            (normalizeLineForFuzzy p)))
  end.

Definition fuzzyScoreAt (lines pattern : list jsstring) (i : nat) : spec_float :=
  div (fuzzyTotal lines i pattern zero) (ofNat (length pattern)).

(** [for (i = from; ...; i++) { if (score i > bestScore) {...} }] *)
Fixpoint bestFrom (score : nat -> spec_float) (i n : nat)
    (best : option nat * spec_float) : option nat * spec_float :=
  match n with
  | 0 => best
  | S n' =>
      let s := score i in
      bestFrom score (S i) n' (if lt (snd best) s then (Some i, s) else best)
  end.

Definition seekSequence (lines pattern : list jsstring) (start : nat) (eof : bool)
    : SeekSequenceResult :=
  if (length pattern =? 0)%nat then mkSeek (Some start) one
  else if (length lines <? length pattern)%nat then mkSeek None zero
  else
    let searchStart :=
      if eof && (length pattern <=? length lines)%nat
      then length lines - length pattern else start in
    let maxStart := length lines - length pattern in
    let pass compare :=
      firstFrom (fun i => matchesAt lines pattern i compare)
                searchStart (S maxStart - searchStart) in
    match pass cmpExact with
    | Some i => mkSeek (Some i) one
    | None =>
    match pass cmpTrimEnd with
    | Some i => mkSeek (Some i) c99
    | None =>
    match pass cmpTrim with
    | Some i => mkSeek (Some i) c98
    | None =>
    match pass cmpUnicode with
    | Some i => mkSeek (Some i) c97
    | None =>
      let best1 :=
        bestFrom (fuzzyScoreAt lines pattern) searchStart
                 (S maxStart - searchStart) (None, zero) in
      let best2 :=
        if eof && (start <? searchStart)%nat
        then bestFrom (fuzzyScoreAt lines pattern) start (searchStart - start) best1
        else best1 in
      match fst best2 with
      | Some bestIndex =>
          if le FUZZY_THRESHOLD (snd best2)
          then mkSeek (Some bestIndex) (snd best2)
          else mkSeek None (snd best2)
      | None => mkSeek None (snd best2)
      end
    end end end end.

(** ** The fuzzy pass and the order of the doubles *)

(** One step of the fuzzy loops: position [j] replaces the best position
    so far when its score is strictly greater. *)
Definition keepBest (score : nat -> spec_float) (best : option nat * spec_float)
    (j : nat) : option nat * spec_float :=
  if lt (snd best) (score j) then (Some j, score j) else best.

(** The outcome of the fuzzy pass from the best position and score. *)
Definition fuzzyOutcome (best : option nat * spec_float) : SeekSequenceResult :=
  match fst best with
  | Some bestIndex =>
      if le FUZZY_THRESHOLD (snd best)
      then mkSeek (Some bestIndex) (snd best)
      else mkSeek None (snd best)
  | None => mkSeek None (snd best)
  end.

(** [i] is the best position of [order] for [score], as the comparisons of
    doubles see it: no position before it has a score that is greater or
    equal, no position after it has a score that is greater. *)
Definition firstBest (score : nat -> spec_float) (order : list nat) (i : nat) : Prop :=
  exists before after,
    order = before ++ i :: after
    /\ Forall (fun j => le (score i) (score j) = false) before
    /\ Forall (fun j => lt (score i) (score j) = false) after.

(** The place of a number in the order of the doubles: its class (the
    infinities at both ends, the zeros in the middle), then exponent and
    mantissa, negated for the negative numbers.  NaN has no place. *)
Definition orderKey (x : spec_float) : option (Z * Z * Z) :=
  match x with
  | S754_nan => None
  | S754_infinity true => Some (-2, 0, 0)%Z
  | S754_finite true m e => Some (-1, - e, Z.neg m)%Z
  | S754_zero _ => Some (0, 0, 0)%Z
  | S754_finite false m e => Some (1, e, Z.pos m)%Z
  | S754_infinity false => Some (2, 0, 0)%Z
  end.

(** The lexicographic order of the places. *)
Definition keyLt (a b : option (Z * Z * Z)) : Prop :=
  match a, b with
  | Some (c1, e1, m1), Some (c2, e2, m2) =>
      (c1 < c2 \/ (c1 = c2 /\ (e1 < e2 \/ (e1 = e2 /\ m1 < m2))))%Z
  | _, _ => False
  end.

(** [x] is a number: not NaN. *)
Definition isNumber (x : spec_float) : Prop := orderKey x <> None.

(** The double that holds the positive integer [v], for [v] below [2^53]:
    the mantissa is [v] shifted to 53 bits. *)
Definition exactDouble (v : positive) : spec_float :=
  S754_finite false (shift (53 - Z.pos (digits2_pos v)) v)
              (Z.pos (digits2_pos v) - 53).

(** A number above zero: a positive finite number or the positive
    infinity. *)
Definition isPositive (x : spec_float) : Prop :=
  match x with
  | S754_finite false _ _ | S754_infinity false => True
  | _ => False
  end.

End Ieee.

(* ===================================================================== *)
(** * The hunk parser and the patch applicator *)
(* ===================================================================== *)

Module ApplyPatch.

(** A [throw] becomes the [Err] branch of a result. *)
Inductive result (E A : Type) : Type :=
| Ok (a : A)
| Err (e : E).
Arguments Ok {E A} a.
Arguments Err {E A} e.

(** Sequencing of computations that may throw: [x ← m; k] runs [k] on the
    value of [m] and passes an exception of [m] on. *)
#[global] Instance result_bind {E : Type} : MBind (result E) :=
  fun A B (k : A -> result E B) (m : result E A) =>
    match m with
    | Ok a => k a
    | Err e => Err e
    end.

(** The messages of [ParseError]. *)
Inductive ParseMessage :=
| DiffNoLines                               (* "Diff does not contain any lines" *)
| HunkNoLines                               (* "Hunk does not contain any lines" *)
| ExpectedContextMarker (got : jsstring)    (* "Expected hunk to start with @@ context marker, got: ..." *)
| UnexpectedLine (line : jsstring).         (* "Unexpected line in hunk: ..." *)

(** The messages of [ApplyPatchError]. *)
Inductive ApplyMessage :=
| FailedToFindContext (ctx path : jsstring)
| FailedToFindExpectedLines (path : jsstring) (old : list jsstring)
| FoundOccurrences (n : nat) (path : jsstring)
| NoCloseEnoughMatch (path : jsstring) (similarity : Z) (startLine : nat).

Inductive PatchError :=
| ParseError (message : ParseMessage) (lineNumber : option nat)
| ApplyPatchError (message : ApplyMessage).

Record UpdateChunk := mkChunk {
  changeContext : option jsstring;
  hasContextLines : bool;
  oldLines : list jsstring;
  newLines : list jsstring;
  isEndOfFile : bool
}.

Definition EOF_MARKER : jsstring := js "*** End of File".
Definition CHANGE_CONTEXT_MARKER : jsstring := js "@@ ".
Definition EMPTY_CHANGE_CONTEXT_MARKER : jsstring := js "@@".

(** ** Parser *)

(** The [for] loop of [parseOneChunk] over the lines after the header. *)
Fixpoint parseChunkLines (lineNumber : nat) (ls : list jsstring)
    (chunk : UpdateChunk) (parsedLines : nat)
    : result PatchError (UpdateChunk * nat) :=
  match ls with
  | [] => Ok (chunk, parsedLines)
  | line :: ls' =>
      if strEq line EOF_MARKER then
        if (parsedLines =? 0)%nat
        then Err (ParseError HunkNoLines (Some (lineNumber + 1)))
        else Ok (mkChunk (changeContext chunk) (hasContextLines chunk)
                         (oldLines chunk) (newLines chunk) true,
                 S parsedLines)
      else
        match line with
        | [] =>
            (* empty line: context *)
            parseChunkLines lineNumber ls'
              (mkChunk (changeContext chunk) true
                       (oldLines chunk ++ [[]]) (newLines chunk ++ [[]])
                       (isEndOfFile chunk))
              (S parsedLines)
        | firstChar :: rest =>
            if (firstChar =? 32)%N then
              parseChunkLines lineNumber ls'
                (mkChunk (changeContext chunk) true
                         (oldLines chunk ++ [rest]) (newLines chunk ++ [rest])
                         (isEndOfFile chunk))
                (S parsedLines)
            else if (firstChar =? 43)%N then
              parseChunkLines lineNumber ls'
                (mkChunk (changeContext chunk) (hasContextLines chunk)
                         (oldLines chunk) (newLines chunk ++ [rest])
                         (isEndOfFile chunk))
                (S parsedLines)
            else if (firstChar =? 45)%N then
              parseChunkLines lineNumber ls'
                (mkChunk (changeContext chunk) (hasContextLines chunk)
                         (oldLines chunk ++ [rest]) (newLines chunk)
                         (isEndOfFile chunk))
                (S parsedLines)
            else if (parsedLines =? 0)%nat
            then Err (ParseError (UnexpectedLine line) (Some (lineNumber + 1)))
            else Ok (chunk, parsedLines)
        end
  end.

(** The header of a hunk: the scope context and the index of the first
    content line. *)
Definition parseHeader (line0 : jsstring) (lineNumber : nat)
    (allowMissingContext : bool) : result PatchError (option jsstring * nat) :=
  if strEq line0 EMPTY_CHANGE_CONTEXT_MARKER then Ok (None, 1)
  else if startsWith CHANGE_CONTEXT_MARKER line0
  then Ok (Some (drop (length CHANGE_CONTEXT_MARKER) line0), 1)
  else if negb allowMissingContext
  then Err (ParseError (ExpectedContextMarker line0) (Some lineNumber))
  else Ok (None, 0).

Definition parseOneChunk (lines : list jsstring) (lineNumber : nat)
    (allowMissingContext : bool) : result PatchError (UpdateChunk * nat) :=
  match lines with
  | [] => Err (ParseError DiffNoLines (Some lineNumber))
  | line0 :: _ =>
      '(ctx, startIndex) ← parseHeader line0 lineNumber allowMissingContext;
      if (length lines <=? startIndex)%nat
      then Err (ParseError HunkNoLines (Some (lineNumber + 1)))
      else
        '(chunk, parsedLines) ←
          parseChunkLines lineNumber (drop startIndex lines)
            (mkChunk ctx false [] [] false) 0;
        if (parsedLines =? 0)%nat
        then Err (ParseError HunkNoLines (Some (lineNumber + startIndex)))
        else Ok (chunk, parsedLines + startIndex)
  end.

(** The [while] loop of [parseDiffHunks].  [None] means that the fuel ran
    out; [parseDiffHunks_total] shows that it never does. *)
Fixpoint parseLoop (fuel : nat) (lines : list jsstring) (i : nat)
    (chunks : list UpdateChunk) : option (result PatchError (list UpdateChunk)) :=
  match fuel with
  | 0 => None
  | S fuel' =>
      if (length lines <=? i)%nat then Some (Ok chunks)
      else if strEq (trim (lineAt lines i)) [] then parseLoop fuel' lines (S i) chunks
      else
        match parseOneChunk (drop i lines) (i + 1) (length chunks =? 0)%nat with
        | Err e => Some (Err e)
        | Ok (chunk, linesConsumed) =>
            parseLoop fuel' lines (i + linesConsumed) (chunks ++ [chunk])
        end
  end.

Definition parseDiffHunks (diff : jsstring)
    : option (result PatchError (list UpdateChunk)) :=
  let lines := splitLines diff in
  parseLoop (S (length lines)) lines 0 [].

(** ** Applicator *)

Record Replacement := mkReplacement {
  startIndex : nat;
  oldLen : nat;
  replacementLines : list jsstring      (* the field [newLines] *)
}.

(** [l.slice(0, -1)] *)
Definition dropLast {A} (l : list A) : list A := take (length l - 1) l.

(** [l.length > 0 && l[l.length - 1] === ""] *)
Definition endsWithEmptyLine (l : list jsstring) : bool :=
  match last l with
  | Some s => strEq s []
  | None => false
  end.

(** The scope-context step of one iteration of [computeReplacements]:
    the cursor [lineIndex] after the chunk's [changeContext] is handled. *)
Definition locateContext (originalLines : list jsstring) (path : jsstring)
    (lineIndex : nat) (chunk : UpdateChunk) : result PatchError nat :=
  match changeContext chunk with
  | None => Ok lineIndex
  | Some ctx =>
      match index (seekSequence originalLines [ctx] lineIndex false) with
      | None => Err (ApplyPatchError (FailedToFindContext ctx path))
      | Some idx =>
          match head (oldLines chunk) with
          | Some firstOldLine =>
              if strEq (trim firstOldLine) (trim ctx) then Ok idx else Ok (idx + 1)
          | None => Ok (idx + 1)
          end
      end
  end.

(** The rest of the iteration: from the cursor to the new cursor and the
    recorded replacement. *)
Definition resolveOldLines (originalLines : list jsstring) (path : jsstring)
    (lineIndex : nat) (chunk : UpdateChunk) : result PatchError (nat * Replacement) :=
  if (length (oldLines chunk) =? 0)%nat then
    let insertionIdx :=
      if endsWithEmptyLine originalLines
      then length originalLines - 1 else length originalLines in
    Ok (lineIndex, mkReplacement insertionIdx 0 (newLines chunk))
  else
    let pattern := oldLines chunk in
    let found := index (seekSequence originalLines pattern lineIndex (isEndOfFile chunk)) in
    let newSlice := newLines chunk in
    let '(pattern, newSlice, found) :=
      match found with
      | None =>
          if endsWithEmptyLine pattern then
            let pattern' := dropLast pattern in
            let newSlice' :=
              if endsWithEmptyLine newSlice then dropLast newSlice else newSlice in
            (pattern', newSlice',
             index (seekSequence originalLines pattern' lineIndex (isEndOfFile chunk)))
          else (pattern, newSlice, found)
      | Some _ => (pattern, newSlice, found)
      end in
    match found with
    | None =>
        Err (ApplyPatchError (FailedToFindExpectedLines path (oldLines chunk)))
    | Some found =>
        Ok (found + length pattern, mkReplacement found (length pattern) newSlice)
    end.

Definition resolveChunk (originalLines : list jsstring) (path : jsstring)
    (lineIndex : nat) (chunk : UpdateChunk) : result PatchError (nat * Replacement) :=
  lineIndex' ← locateContext originalLines path lineIndex chunk;
  resolveOldLines originalLines path lineIndex' chunk.

(** The [for ... of chunks] loop. *)
Fixpoint resolveChunks (originalLines : list jsstring) (path : jsstring)
    (lineIndex : nat) (replacements : list Replacement) (chunks : list UpdateChunk)
    : result PatchError (list Replacement) :=
  match chunks with
  | [] => Ok replacements
  | chunk :: chunks' =>
      '(lineIndex', r) ← resolveChunk originalLines path lineIndex chunk;
      resolveChunks originalLines path lineIndex' (replacements ++ [r]) chunks'
  end.

(** [replacements.sort((a, b) => a.startIndex - b.startIndex)]: a stable
    sort by start index. *)
Fixpoint insertByStart (r : Replacement) (rs : list Replacement) : list Replacement :=
  match rs with
  | [] => [r]
  | r' :: rs' =>
      if (startIndex r <? startIndex r')%nat then r :: rs
      else r' :: insertByStart r rs'
  end.

Definition sortByStart (rs : list Replacement) : list Replacement :=
  foldr (fun r acc => insertByStart r acc) [] (reverse rs).

Definition computeReplacements (originalLines : list jsstring) (path : jsstring)
    (chunks : list UpdateChunk) : result PatchError (list Replacement) :=
  replacements ← resolveChunks originalLines path 0 [] chunks;
  Ok (sortByStart replacements).

(** [result.splice(startIndex, oldLen); result.splice(startIndex, 0, ...newLines)] *)
Definition spliceReplacement (r : Replacement) (result : list jsstring) : list jsstring :=
  take (startIndex r) result ++ replacementLines r
    ++ drop (startIndex r + oldLen r) result.

(** The replacements are spliced from the last to the first. *)
Definition applyReplacements (lines : list jsstring) (replacements : list Replacement)
    : list jsstring :=
  foldr spliceReplacement lines replacements.

(** ** The whole-text replacement path *)

(** The result of the character-level matcher [findEditMatch]; only the
    fields read by [applySimpleReplace] are kept. *)
Record EditMatch := mkEditMatch {
  actualText : jsstring;
  matchStart : nat;                     (* the field [startIndex] *)
  startLine : nat;
  matchConfidence : Q                   (* the field [confidence] *)
}.

Record MatchOutcome := mkOutcome {
  matched : option EditMatch;           (* the field [match] *)
  closest : option EditMatch;
  occurrences : option nat
}.

(** Modelled from the spec: the verbatim search of [findEditMatch],
    [content.indexOf(target)]. *)
Fixpoint indexOfFrom (target s : jsstring) (i : nat) : option nat :=
  if startsWith target s then Some i
  else match s with
       | [] => None
       | _ :: s' => indexOfFrom target s' (S i)
       end.

(** Modelled from the spec: the occurrence count of [findEditMatch].  The
    spec asks for a failure when the old text occurs more than once verbatim:
    every offset at which the target stands in the content is counted,
    whether or not two occurrences overlap.  An empty text has no occurrence
    to count. *)
Fixpoint countFrom (target s : jsstring) : nat :=
  (if startsWith target s then 1 else 0)
  + match s with
    | [] => 0
    | _ :: s' => countFrom target s'
    end.

Definition countOccurrences (target content : jsstring) : nat :=
  if (length target =? 0)%nat then 0
  else countFrom target content.

(** Modelled from the spec: the 1-indexed line of a character offset, for
    the [startLine] of a match. *)
Definition lineOfOffset (content : jsstring) (offset : nat) : nat :=
  length (splitLines (take offset content)).

Section SimpleReplace.

(** Helpers of the [diff] module, which is not part of the sources at hand:
    line-ending normalisation, re-indentation of the new text, and the fuzzy
    stage of the character-level matcher (with its threshold
    [DEFAULT_FUZZY_THRESHOLD]). *)
Variable normalizeToLF : jsstring -> jsstring.
Variable adjustNewTextIndentation : jsstring -> jsstring -> jsstring -> jsstring.
Variable fuzzyFind : jsstring -> jsstring -> MatchOutcome.

(** Modelled from the spec: [findEditMatch] of the [diff] module is missing
    from the sources.  The spec asks for a whole-text match at the character
    level that fails loudly when the old text occurs more than once verbatim,
    the error naming the occurrence count: a verbatim search comes first; more
    than one occurrence is reported through [occurrences] without a match; a
    single occurrence is the match; otherwise the fuzzy stage decides. *)
Definition findEditMatch (content target : jsstring) : MatchOutcome :=
  if (length target =? 0)%nat then fuzzyFind content target
  else
    match indexOfFrom target content 0 with
    | Some exactIndex =>
        let n := countOccurrences target content in
        if (1 <? n)%nat then mkOutcome None None (Some n)
        else mkOutcome
               (Some (mkEditMatch target exactIndex
                        (lineOfOffset content exactIndex) 1%Q))
               None None
    | None => fuzzyFind content target
    end.

(** [matchOutcome.occurrences && matchOutcome.occurrences > 1] *)
Definition multipleOccurrences (o : MatchOutcome) : option nat :=
  match occurrences o with
  | Some n => if (1 <? n)%nat then Some n else None
  | None => None
  end.

(** [Math.round(x * 100)] *)
Definition roundPercent (x : Q) : Z := Qfloor (x * 100 + (1 # 2))%Q.

Definition applySimpleReplace (originalContent path : jsstring) (chunk : UpdateChunk)
    : result PatchError jsstring :=
  let oldText := joinLines (oldLines chunk) in
  let newText := joinLines (newLines chunk) in
  let normalizedContent := normalizeToLF originalContent in
  let normalizedOldText := normalizeToLF oldText in
  let matchOutcome := findEditMatch normalizedContent normalizedOldText in
  match multipleOccurrences matchOutcome with
  | Some n => Err (ApplyPatchError (FoundOccurrences n path))
  | None =>
      match matched matchOutcome with
      | None =>
          match closest matchOutcome with
          | Some c =>
              Err (ApplyPatchError
                     (NoCloseEnoughMatch path (roundPercent (matchConfidence c)) (startLine c)))
          | None => Err (ApplyPatchError (FailedToFindExpectedLines path [oldText]))
          end
      | Some m =>
          let adjustedNewText :=
            adjustNewTextIndentation normalizedOldText (actualText m) newText in
          let before := take (matchStart m) normalizedContent in
          let after := drop (matchStart m + length (actualText m)) normalizedContent in
          let result := before ++ adjustedNewText ++ after in
          if negb (endsWithNewline result) then Ok (result ++ [10%N]) else Ok result
      end
  end.

(** The hunk path of [applyDiffToContent]. *)
Definition applyHunks (originalContent path : jsstring) (chunks : list UpdateChunk)
    : result PatchError jsstring :=
  let originalLines := splitLines originalContent in
  let originalLines :=
    if endsWithEmptyLine originalLines then dropLast originalLines
    else originalLines in
  replacements ← computeReplacements originalLines path chunks;
  let newLines := applyReplacements originalLines replacements in
  let newLines :=
    if (length newLines =? 0)%nat || negb (endsWithEmptyLine newLines)
    then newLines ++ [[]] else newLines in
  Ok (joinLines newLines).

(** The guard of the simple-replace pattern: a single chunk, no [@@]
    context, no context lines, old lines to match. *)
Definition isSimpleReplace (chunk : UpdateChunk) : bool :=
  match changeContext chunk with
  | None => negb (hasContextLines chunk) && (0 <? length (oldLines chunk))%nat
  | Some _ => false
  end.

Definition applyDiffToContent (originalContent path : jsstring)
    (chunks : list UpdateChunk) : result PatchError jsstring :=
  match chunks with
  | [chunk] =>
      if isSimpleReplace chunk
      then applySimpleReplace originalContent path chunk
      else applyHunks originalContent path chunks
  | _ => applyHunks originalContent path chunks
  end.

End SimpleReplace.

End ApplyPatch.

Import ApplyPatch.

(* ===================================================================== *)
(** * The patch operations on the file system *)
(* ===================================================================== *)

Module PatchOperation.

Inductive Operation := Create | Delete | Update.

Record PatchInput := mkPatchInput {
  inputPath : jsstring;                 (* the field [path] *)
  operation : Operation;
  moveTo : option jsstring;
  diff : option jsstring
}.

Record FileChange := mkFileChange {
  changeType : Operation;               (* the field [type] *)
  changePath : jsstring;                (* the field [path] *)
  newPath : option jsstring;
  oldContent : option jsstring;
  newContent : option jsstring
}.

(** What [applyPatch] throws: its own [ApplyPatchError]s, the errors of the
    parser and of the applicator, and whatever the file system throws. *)
Inductive PatchFailure (E : Type) :=
| CreateRequiresDiff            (* "Create operation requires diff (file content)" *)
| UpdateRequiresDiff            (* "Update operation requires diff (hunks)" *)
| FileNotFound (path : jsstring)        (* "File not found: ..." *)
| DiffContainsNoHunks           (* "Diff contains no hunks" *)
| DiffFailure (e : PatchError)
| FileSystemFailure (e : E).
Arguments CreateRequiresDiff {E}.
Arguments UpdateRequiresDiff {E}.
Arguments FileNotFound {E} path.
Arguments DiffContainsNoHunks {E}.
Arguments DiffFailure {E} e.
Arguments FileSystemFailure {E} e.

(** The interface [FileSystem]: each operation runs on the state [S] of the
    file system, returns its result or throws an [E], and leaves a state. *)
Class FileSystem (S E : Type) := {
  fsExists : jsstring -> S -> result E bool * S;
  fsRead : jsstring -> S -> result E jsstring * S;
  fsWrite : jsstring -> jsstring -> S -> result E unit * S;
  fsDelete : jsstring -> S -> result E unit * S;
  fsMkdir : jsstring -> S -> result E unit * S
}.

(** An [async] computation of [applyPatch]: it runs on the state of the
    file system and either returns a value or throws. *)
Definition IO (S E A : Type) : Type := S -> result (PatchFailure E) A * S.

#[global] Instance io_ret {S E : Type} : MRet (IO S E) :=
  fun A (a : A) s => (Ok a, s).

#[global] Instance io_bind {S E : Type} : MBind (IO S E) :=
  fun A B (k : A -> IO S E B) (m : IO S E A) s =>
    match m s with
    | (Ok a, s') => k a s'
    | (Err e, s') => (Err e, s')
    end.

Definition throw {S E A : Type} (e : PatchFailure E) : IO S E A :=
  fun s => (Err e, s).

(** [await fs.op(...)] *)
Definition await {S E A : Type} (op : S -> result E A * S) : IO S E A :=
  fun s =>
    match op s with
    | (Ok a, s') => (Ok a, s')
    | (Err e, s') => (Err (FileSystemFailure e), s')
    end.

(** A call of the parser or of the applicator, which may throw. *)
Definition call {S E A : Type} (r : result PatchError A) : IO S E A :=
  fun s =>
    match r with
    | Ok a => (Ok a, s)
    | Err e => (Err (DiffFailure e), s)
    end.

(** An optional string that is truthy: present and not empty. *)
Definition truthy (s : option jsstring) : option jsstring :=
  match s with
  | Some (c :: v) => Some (c :: v)
  | _ => None
  end.

(** [parseDiffHunks] as a function that returns or throws: its loop always
    ends within its fuel. *)
Definition parsedHunks (d : jsstring) : result PatchError (list UpdateChunk) :=
  match parseDiffHunks d with
  | Some r => r
  | None => Ok []
  end.

Section Operations.

(** Helpers of the [diff] module and [dirname] of [node:path], which are
    not part of the sources at hand. *)
Variable normalizeToLF : jsstring -> jsstring.
Variable adjustNewTextIndentation : jsstring -> jsstring -> jsstring -> jsstring.
Variable fuzzyFind : jsstring -> jsstring -> MatchOutcome.
Variable dirname : jsstring -> jsstring.

Context {S E : Type} `{!FileSystem S E}.

Definition resolvePath (cwd p : jsstring) : jsstring :=
  if startsWith (js "/") p then p else cwd ++ js "/" ++ p.

(** [if (parentDir && parentDir !== ".") await fs.mkdir(parentDir)] *)
Definition ensureParent (path : jsstring) : IO S E unit :=
  let parentDir := dirname path in
  if negb (length parentDir =? 0)%nat && negb (strEq parentDir (js "."))
  then await (fsMkdir parentDir)
  else mret tt.

Definition destinationOf (cwd absolutePath : jsstring) (input : PatchInput) : jsstring :=
  match truthy (moveTo input) with
  | Some m => resolvePath cwd m
  | None => absolutePath
  end.

Definition applyPatch (input : PatchInput) (cwd : jsstring) (dryRun : bool)
    : IO S E FileChange :=
  let absolutePath := resolvePath cwd (inputPath input) in
  match operation input with
  | Create =>
      match truthy (diff input) with
      | None => throw CreateRequiresDiff
      | Some d =>
          let content := if endsWithNewline d then d else d ++ [10%N] in
          _ ← (if dryRun then mret tt
               else (_ ← ensureParent absolutePath;
                     await (fsWrite absolutePath content)));
          mret (mkFileChange Create absolutePath None None (Some content))
      end
  | Delete =>
      present ← await (fsExists absolutePath);
      old ← (if (present : bool)
             then (c ← await (fsRead absolutePath);
                   _ ← (if dryRun then mret tt else await (fsDelete absolutePath));
                   mret (Some c))
             else mret None);
      mret (mkFileChange Delete absolutePath None old None)
  | Update =>
      match truthy (diff input) with
      | None => throw UpdateRequiresDiff
      | Some d =>
          present ← await (fsExists absolutePath);
          if negb present then throw (FileNotFound (inputPath input))
          else
            originalContent ← await (fsRead absolutePath);
            chunks ← call (parsedHunks d);
            if (length chunks =? 0)%nat then throw DiffContainsNoHunks
            else
              new ← call (applyDiffToContent normalizeToLF adjustNewTextIndentation
                            fuzzyFind originalContent (inputPath input) chunks);
              let destPath := destinationOf cwd absolutePath input in
              _ ← (if dryRun then mret tt
                   else match truthy (moveTo input) with
                        | Some _ =>
                            _ ← ensureParent destPath;
                            _ ← await (fsWrite destPath new);
                            await (fsDelete absolutePath)
                        | None => await (fsWrite absolutePath new)
                        end);
              mret (mkFileChange Update absolutePath
                      (match truthy (moveTo input) with
                       | Some _ => Some destPath
                       | None => None
                       end)
                      (Some originalContent) (Some new))
      end
  end.

(** [applyPatch(input, { ...options, dryRun: true })] *)
Definition previewPatch (input : PatchInput) (cwd : jsstring) : IO S E FileChange :=
  applyPatch input cwd true.

(** The outcome of a query of the file system, as [applyPatch] sees it. *)
Definition outcome {A : Type} (r : result E A) : result (PatchFailure E) A :=
  match r with
  | Ok a => Ok a
  | Err e => Err (FileSystemFailure e)
  end.

(** A computation that throws only what the file system throws. *)
Definition fsOnly {A : Type} (m : IO S E A) : Prop :=
  forall s e s', m s = (Err e, s') -> exists fe, e = FileSystemFailure fe.

(** The write phase of an update. *)
Definition updateWrites (dest path new : jsstring) (moved : bool) : IO S E unit :=
  if moved
  then (_ ← ensureParent dest; _ ← await (fsWrite dest new);
        await (fsDelete path))
  else await (fsWrite path new).

End Operations.

(** The path [q] reads the same in the states [s] and [s']. *)
Definition sameFile {S E : Type} `{!FileSystem S E} (q : jsstring) (s s' : S) : Prop :=
  (fsRead q s').1 = (fsRead q s).1 /\ (fsExists q s').1 = (fsExists q s).1.

(** What the code relies on from a file system: the two queries leave the
    state as it is; after a successful delete the file does not exist; a
    write or a delete leaves every other path as it was, and so does the
    creation of a directory.  Nothing is assumed on what a written file
    holds. *)
Class FileSystemLaws (S E : Type) `{!FileSystem S E} : Prop := {
  exists_pure p s : (fsExists p s).2 = s;
  read_pure p s : (fsRead p s).2 = s;
  write_frame p c s s' q :
    fsWrite p c s = (Ok tt, s') -> q <> p -> sameFile q s s';
  delete_exists p s s' :
    fsDelete p s = (Ok tt, s') -> (fsExists p s').1 = Ok false;
  delete_frame p s s' q :
    fsDelete p s = (Ok tt, s') -> q <> p -> sameFile q s s';
  mkdir_frame d s s' q :
    fsMkdir d s = (Ok tt, s') -> sameFile q s s'
}.

(** The file system stores what is written as it is: after a successful
    write the file exists and is read back unchanged.  The interface does not
    promise it ([write] "may include LSP formatting"), and the file system
    that the edit tool builds over a formatter does not have it. *)
Definition storesWrites (S E : Type) `{!FileSystem S E} : Prop :=
  forall p c (s s' : S),
    fsWrite p c s = (Ok tt, s') ->
    (fsRead p s').1 = Ok c /\ (fsExists p s').1 = Ok true.

(** ** A file system held in memory *)

(** The state is the map from the paths of the files to their contents;
    directories are not recorded. *)
Inductive MemoryError := NoSuchFile (path : jsstring).

#[global] Instance memoryFileSystem : FileSystem (gmap jsstring jsstring) MemoryError := {
  fsExists p s := (Ok (bool_decide (is_Some (s !! p))), s);
  fsRead p s :=
    match s !! p with
    | Some c => (Ok c, s)
    | None => (Err (NoSuchFile p), s)
    end;
  fsWrite p c s := (Ok tt, <[p := c]> s);
  fsDelete p s :=
    match s !! p with
    | Some _ => (Ok tt, delete p s)
    | None => (Err (NoSuchFile p), s)
    end;
  fsMkdir _ s := (Ok tt, s)
}.

(** A stand-in for [dirname]: the path up to its last [/], or [.]. *)
Fixpoint parentOf (p : jsstring) : option jsstring :=
  match p with
  | [] => None
  | c :: p' =>
      match parentOf p' with
      | Some d => Some (c :: d)
      | None => if (c =? 47)%N then Some [] else None
      end
  end.
Definition sampleDirname (p : jsstring) : jsstring :=
  match parentOf p with
  | Some [] => js "/"
  | Some d => d
  | None => js "."
  end.

End PatchOperation.

Import PatchOperation.



(* ===================================================================== *)
(** * The hashline edit engine: validation and mismatch failure *)
(* ===================================================================== *)

Module Hashline.

Record LineTag := mkTag {
  line : nat;
  hash : jsstring
}.

(** The edits of the test suite: [replace] with a single tag or with a
    [first]/[last] range, [append] and [prepend] with an optional anchor,
    [insert] between two anchors. *)
Inductive HashlineEdit :=
| ReplaceLine (tag : LineTag) (content : list jsstring)
| ReplaceRange (first last : LineTag) (content : list jsstring)
| Append (after : option LineTag) (content : list jsstring)
| Prepend (before : option LineTag) (content : list jsstring)
| Insert (after before : LineTag) (content : list jsstring).

Record HashMismatch := mkMismatch {
  mLine : nat;                          (* the field [line] *)
  expected : jsstring;
  actual : jsstring
}.

Record HashMismatchRange := mkRange {
  rangeStart : nat;                     (* the field [start] *)
  rangeEnd : nat                        (* the field [end] *)
}.

(** ** Compaction of line numbers *)

(** Modelled from the spec: the line numbers are taken as a set; ascending
    insertion that drops a number already present. *)
Fixpoint insertUnique (n : nat) (l : list nat) : list nat :=
  match l with
  | [] => [n]
  | m :: l' =>
      if (n <? m)%nat then n :: l
      else if (n =? m)%nat then l
      else m :: insertUnique n l'
  end.

(** Modelled from the spec: the distinct line numbers in ascending order. *)
Definition sortUnique (l : list nat) : list nat := foldr insertUnique [] l.

(** Modelled from the spec: the sweep over the ascending numbers, where
    adjacent integers merge and a gap starts a new range; [start..last] is
    the range being built. *)
Fixpoint sweepRanges (start last : nat) (rest : list nat) : list HashMismatchRange :=
  match rest with
  | [] => [mkRange start last]
  | n :: rest' =>
      if (n =? last + 1)%nat then sweepRanges start n rest'
      else mkRange start last :: sweepRanges n n rest'
  end.

(** Modelled from the spec: [compactLineRanges] of [patch/hashline.ts] is
    missing from the sources.  The spec has it compact the mismatched line
    numbers into maximal contiguous ranges: adjacent integers merge, a gap of
    one or more starts a new range.  The numbers are taken as a set, in
    ascending order. *)
Definition compactLineRanges (lines : list nat) : list HashMismatchRange :=
  match sortUnique lines with
  | [] => []
  | n :: rest => sweepRanges n n rest
  end.

Section Engine.

(** The line hash of the codec, [computeLineHash(line, content)], which is
    not part of the sources at hand. *)
Variable computeLineHash : nat -> jsstring -> jsstring.

(** The key and the value of a remap entry: [`${line}#${hash}`]. *)
Definition formatTagKey (l : nat) (h : jsstring) : jsstring :=
  js (pretty l) ++ 35%N :: h.

(** ** The mismatch failure *)

(** The fields set by the constructor of [HashlineMismatchError]; the
    rendered message is left out. *)
Record HashlineMismatchError := mkMismatchError {
  mismatches : list HashMismatch;
  fileLines : list jsstring;
  remaps : gmap jsstring jsstring;
  affectedRanges : list HashMismatchRange
}.

(** The loop of the constructor that fills [remaps]. *)
Definition buildRemaps (ms : list HashMismatch) (fLines : list jsstring)
    : gmap jsstring jsstring :=
  fold_left
    (fun (acc : gmap jsstring jsstring) m =>
       let actualHash := computeLineHash (mLine m) (lineAt fLines (mLine m - 1)) in
       <[formatTagKey (mLine m) (expected m) := formatTagKey (mLine m) actualHash]> acc)
    ms ∅.

(** [new HashlineMismatchError(mismatches, fileLines)] *)
Definition newHashlineMismatchError (ms : list HashMismatch) (fLines : list jsstring)
    : HashlineMismatchError :=
  mkMismatchError ms fLines (buildRemaps ms fLines)
    (compactLineRanges (mLine <$> ms)).

(** ** The edit engine *)

(** Modelled from the spec: the failures of the engine (section 9 of the
    spec: mismatch with its mismatches, ranges and remaps; range failure;
    rejected insert) and its result. *)
Inductive RangeReason :=
| LineOutOfBounds (l : nat) (lineCount : nat)
| InvertedRange (first last : nat)
| InvertedPair (after before : nat).

Inductive EditFailure :=
| MismatchFailure (e : HashlineMismatchError)
| RangeFailure (r : RangeReason)
| EmptyInsertContent.

Record Applied := mkApplied {
  appliedContent : jsstring;            (* the field [content] *)
  firstChangedLine : option nat
}.

(** Modelled from the spec: the tags an edit refers to (single, first/last,
    after/before). *)
Definition editTags (e : HashlineEdit) : list LineTag :=
  match e with
  | ReplaceLine t _ => [t]
  | ReplaceRange f l _ => [f; l]
  | Append a _ => option_list a
  | Prepend b _ => option_list b
  | Insert a b _ => [a; b]
  end.

(** Modelled from the spec: line numbers are 1-indexed and within
    [1, lineCount]. *)
Definition inRange (fLines : list jsstring) (l : nat) : bool :=
  (1 <=? l)%nat && (l <=? length fLines)%nat.

(** Modelled from the spec: a mismatch of the tag [ref] is among those
    collected so far. *)
Definition recorded (acc : list HashMismatch) (ref : LineTag) : bool :=
  existsb (fun m => (mLine m =? line ref)%nat && strEq (expected m) (hash ref)) acc.

(** Modelled from the spec: validation of one tag.  A tag on a live line
    whose hash differs adds a mismatch, once for the tag however many edits
    refer to it (the spec has a batch that refers to N invalid tags fail with
    exactly N mismatches); nothing stops the pass. *)
Definition validateRef (fLines : list jsstring) (acc : list HashMismatch)
    (ref : LineTag) : list HashMismatch :=
  if inRange fLines (line ref) then
    let live := lineAt fLines (line ref - 1) in
    if strEq (computeLineHash (line ref) live) (hash ref) then acc
    else if recorded acc ref then acc
    else acc ++ [mkMismatch (line ref) (hash ref) live]
  else acc.

(** Modelled from the spec: the validation pass over the whole batch. *)
Definition collectMismatches (fLines : list jsstring) (edits : list HashlineEdit)
    : list HashMismatch :=
  fold_left (fun acc e => fold_left (validateRef fLines) (editTags e) acc) edits [].

(** Modelled from the spec: the failures that are not mismatches, namely
    an anchor out of bounds, an inverted range or pair, an insert without
    content. *)
Definition firstOutOfBounds (fLines : list jsstring) (tags : list LineTag)
    : option EditFailure :=
  match List.find (fun t => negb (inRange fLines (line t))) tags with
  | Some t => Some (RangeFailure (LineOutOfBounds (line t) (length fLines)))
  | None => None
  end.

(** Modelled from the spec: the checks of one edit, anchors first. *)
Definition checkEdit (fLines : list jsstring) (e : HashlineEdit) : option EditFailure :=
  match firstOutOfBounds fLines (editTags e) with
  | Some f => Some f
  | None =>
      match e with
      | ReplaceLine _ _ => None
      | ReplaceRange f l _ =>
          if (line l <? line f)%nat
          then Some (RangeFailure (InvertedRange (line f) (line l))) else None
      | Append _ c | Prepend _ c =>
          if (length c =? 0)%nat then Some EmptyInsertContent else None
      | Insert a b c =>
          if (line b <=? line a)%nat
          then Some (RangeFailure (InvertedPair (line a) (line b)))
          else if (length c =? 0)%nat then Some EmptyInsertContent else None
      end
  end.

(** Modelled from the spec: the first failure of the batch, if any. *)
Fixpoint checkEdits (fLines : list jsstring) (edits : list HashlineEdit)
    : option EditFailure :=
  match edits with
  | [] => None
  | e :: edits' =>
      match checkEdit fLines e with
      | Some f => Some f
      | None => checkEdits fLines edits'
      end
  end.

(** Modelled from the spec: a position-resolved edit against the original
    numbering, with a 0-based start, the number of lines removed, and the
    lines put in. *)
Record Splice := mkSplice {
  spStart : nat;
  spRemoved : nat;
  spLines : list jsstring
}.

(** Modelled from the spec: the insertion or replacement point of an edit.
    Without an anchor, an append goes to the end of the file and a prepend to
    its beginning; an insert between two anchors goes before the second. *)
Definition resolveEdit (fLines : list jsstring) (e : HashlineEdit) : Splice :=
  match e with
  | ReplaceLine t c => mkSplice (line t - 1) 1 c
  | ReplaceRange f l c => mkSplice (line f - 1) (line l - line f + 1) c
  | Append (Some a) c => mkSplice (line a) 0 c
  | Append None c =>
      (* end of file; an empty file is its single empty line *)
      match fLines with
      | [ [] ] => mkSplice 0 1 c
      | _ => mkSplice (length fLines) 0 c
      end
  | Prepend (Some b) c => mkSplice (line b - 1) 0 c
  | Prepend None c => mkSplice 0 0 c
  | Insert _ b c => mkSplice (line b - 1) 0 c
  end.

(** Modelled from the spec: descending order of start; at one start a
    removal goes before an insertion, as the tests on edits at one line
    expect. *)
Definition spliceBefore (a b : Splice) : bool :=
  (spStart b <? spStart a)%nat
  || ((spStart a =? spStart b)%nat && (0 <? spRemoved a)%nat && (spRemoved b =? 0)%nat).

(** Modelled from the spec: the splices in the order of their application. *)
Fixpoint insertSplice (s : Splice) (l : list Splice) : list Splice :=
  match l with
  | [] => [s]
  | s' :: l' => if spliceBefore s s' then s :: l else s' :: insertSplice s l'
  end.

Definition orderSplices (l : list Splice) : list Splice :=
  foldr insertSplice [] (reverse l).

(** Modelled from the spec: one splice; the content is put in verbatim. *)
Definition applySplice (fLines : list jsstring) (s : Splice) : list jsstring :=
  take (spStart s) fLines ++ spLines s ++ drop (spStart s + spRemoved s) fLines.

(** Modelled from the spec: the first changed line, 1-indexed, of a batch
    that is not empty. *)
Definition minStart (l : list Splice) : option nat :=
  match l with
  | [] => None
  | s :: l' => Some (S (foldr (fun s' m => Nat.min (spStart s') m) (spStart s) l'))
  end.

(** Modelled from the spec: [applyHashlineEdits] of [patch/hashline.ts] is
    missing from the sources.  After the spec's algorithm: split the content
    into lines; validate every tag referenced by any edit and collect every
    mismatch of the batch; with a mismatch, fail with the mismatch failure
    and no content; otherwise reject anchors out of bounds, inverted ranges
    and pairs and inserts without content; otherwise resolve every edit
    against the original numbering and splice in descending order of start. *)
Definition applyHashlineEdits (content : jsstring) (edits : list HashlineEdit)
    : result EditFailure Applied :=
  let fLines := splitLines content in
  match collectMismatches fLines edits with
  | (_ :: _) as ms => Err (MismatchFailure (newHashlineMismatchError ms fLines))
  | [] =>
      match checkEdits fLines edits with
      | Some f => Err f
      | None =>
          let splices := resolveEdit fLines <$> edits in
          Ok (mkApplied
                (joinLines (fold_left applySplice (orderSplices splices) fLines))
                (minStart splices))
      end
  end.

End Engine.

End Hashline.

Import Hashline.

(* ===================================================================== *)
(** * Specification predicates *)
(* ===================================================================== *)

(** [n] lies in the inclusive range [r]. *)
Definition inRangeOf (r : HashMismatchRange) (n : nat) : Prop :=
  rangeStart r <= n <= rangeEnd r.

(** [r] is a maximal run of the set [S]: all its numbers are in [S], and
    neither the number after its end nor the number before its start is. *)
Definition maximalRun (S : nat -> Prop) (r : HashMismatchRange) : Prop :=
  rangeStart r <= rangeEnd r
  /\ (forall n, inRangeOf r n -> S n)
  /\ ~ S (rangeEnd r + 1)
  /\ (forall n, n + 1 = rangeStart r -> ~ S n).

(** The end of [r1] and the start of [r2] leave a number out. *)
Definition gapBetween (r1 r2 : HashMismatchRange) : Prop :=
  rangeEnd r1 + 1 < rangeStart r2.

(** Consecutive ranges are in ascending order with at least one absent
    number between them, so that no two of them could be merged. *)
Fixpoint separatedRanges (rs : list HashMismatchRange) : Prop :=
  match rs with
  | r1 :: ((r2 :: _) as rs') =>
      rangeEnd r1 + 1 < rangeStart r2 /\ separatedRanges rs'
  | _ => True
  end.

(** The tags a batch refers to, in the order of the batch. *)
Definition referencedTags (edits : list HashlineEdit) : list LineTag :=
  concat (editTags <$> edits).

(** A referenced tag fails hash validation against the current content: it
    names a live line whose hash is not the tag's. *)
Definition failsHashValidation (computeLineHash : nat -> jsstring -> jsstring)
    (fLines : list jsstring) (t : LineTag) : bool :=
  inRange fLines (line t)
  && negb (strEq (computeLineHash (line t) (lineAt fLines (line t - 1))) (hash t)).

#[global] Instance LineTag_eq_dec : EqDecision LineTag.
Proof. solve_decision. Defined.

(** The tags of a list, each once, in the order of their first occurrence. *)
Definition keepFirst (acc : list LineTag) (t : LineTag) : list LineTag :=
  if bool_decide (t ∈ acc) then acc else acc ++ [t].
Definition distinctTags (tags : list LineTag) : list LineTag :=
  fold_left keepFirst tags [].

(** The mismatch entry of a failing tag. *)
Definition mismatchOf (fLines : list jsstring) (t : LineTag) : HashMismatch :=
  mkMismatch (line t) (hash t) (lineAt fLines (line t - 1)).

(** The tag a mismatch entry reports. *)
Definition mismatchTag (m : HashMismatch) : LineTag :=
  mkTag (mLine m) (expected m).

(** A line the parser classifies as a content line of a hunk: empty, or
    starting with a space, [+] or [-], and not the end-of-file marker. *)
Definition isContentLine (l : jsstring) : bool :=
  negb (strEq l EOF_MARKER)
  && match l with
     | [] => true
     | c :: _ => ((c =? 32) || (c =? 43) || (c =? 45))%N
     end.

(** A hunk header: bare [@@] or [@@ <context>]. *)
Definition isHunkHeader (l : jsstring) : bool :=
  strEq l EMPTY_CHANGE_CONTEXT_MARKER || startsWith CHANGE_CONTEXT_MARKER l.

(** Line [i] (0-based) is a hunk header and no content line follows it:
    the input ends there, or the next line is not a content line. *)
Definition headerWithoutContent (lines : list jsstring) (i : nat) : Prop :=
  (exists h, lines !! i = Some h /\ isHunkHeader h = true)
  /\ match lines !! (i + 1) with
     | None => True
     | Some l => isContentLine l = false
     end.

(** A chunk with at least one old or new line. *)
Definition nonEmptyChunk (c : UpdateChunk) : Prop :=
  oldLines c <> [] \/ newLines c <> [].

(** The text [target] stands verbatim at the offset [i] of [content]. *)
Definition occursAt (target content : jsstring) (i : nat) : Prop :=
  take (length target) (drop i content) = target.

#[global] Instance occursAt_dec (target content : jsstring) (i : nat) :
  Decision (occursAt target content i).
Proof. unfold occursAt. apply _. Defined.

(** The offsets of [content] at which [target] stands verbatim, in
    ascending order. *)
Definition occurrenceOffsets (target content : jsstring) : list nat :=
  List.filter (fun i => bool_decide (occursAt target content i))
              (seq 0 (S (length content))).

(** Stand-ins for the helpers that are not part of the sources, used to
    run the model on concrete inputs: line endings left as they are, no
    re-indentation, a fuzzy stage that finds nothing, and a line hash that
    mixes the line number with the code units of the line. *)
Definition keepLineEndings (s : jsstring) : jsstring := s.
Definition keepIndentation (_ _ newText : jsstring) : jsstring := newText.
Definition noFuzzyMatch (_ _ : jsstring) : MatchOutcome := mkOutcome None None None.
Definition sampleLineHash (l : nat) (content : jsstring) : jsstring :=
  js (pretty (foldr (fun c h => (h * 31 + c) mod 16777216)%N (N.of_nat l) content)).

(** A text from its lines. *)
Definition text (ls : list string) : jsstring := joinLines (js <$> ls).

(** The insertion point of a chunk without old lines: the end of the file,
    or the place of a final empty line. *)
Definition endInsertionIndex (originalLines : list jsstring) : nat :=
  if endsWithEmptyLine originalLines
  then length originalLines - 1 else length originalLines.

(** The scope line of a chunk duplicates its first old line, up to
    surrounding whitespace. *)
Definition scopeIsFirstOldLine (chunk : UpdateChunk) (ctx : jsstring) : bool :=
  match oldLines chunk with
  | o :: _ => bool_decide (trim o = trim ctx)
  | [] => false
  end.

(** ** The matcher *)

(** The Levenshtein distance through its recurrence on the last characters
    of two words (the Wagner-Fischer recurrence), the words being given by
    their reversals. *)
Fixpoint levRev (ra rb : jsstring) : nat :=
  match ra with
  | [] => length rb
  | x :: ra' =>
      (fix inner (rb : jsstring) : nat :=
         match rb with
         | [] => S (length ra')
         | y :: rb' =>
             Nat.min (Nat.min (levRev ra' rb + 1) (inner rb' + 1))
                     (levRev ra' rb' + (if (x =? y)%N then 0 else 1))
         end) rb
  end.

Definition levenshtein (a b : jsstring) : nat := levRev (reverse a) (reverse b).

(** [editScript a b n]: the word [a] is turned into the word [b] by [n]
    insertions, deletions and substitutions of one character. *)
Inductive editScript : jsstring -> jsstring -> nat -> Prop :=
| edit_done : editScript [] [] 0
| edit_keep x a b n : editScript a b n -> editScript (x :: a) (x :: b) n
| edit_substitute x y a b n : editScript a b n -> editScript (x :: a) (y :: b) (S n)
| edit_delete x a b n : editScript a b n -> editScript (x :: a) b (S n)
| edit_insert y a b n : editScript a b n -> editScript a (y :: b) (S n).

(** The reversed prefixes of [pb ++ bsuf] that are longer than [pb]. *)
Fixpoint revPrefixes (pb bsuf : jsstring) : list jsstring :=
  match bsuf with
  | [] => []
  | y :: bsuf' => (y :: pb) :: revPrefixes (y :: pb) bsuf'
  end.

(** A row of the table: the distances of one prefix of [a] to all the
    prefixes of [b]. *)
Definition tableRow (ra b : jsstring) : list nat :=
  levRev ra [] :: (levRev ra <$> revPrefixes [] b).

(** Similarity of two lines: 1 minus the distance normalised by the longer
    length; two empty lines are at similarity 1. *)
Definition similarity (a b : jsstring) : Q :=
  match Nat.max (length a) (length b) with
  | 0 => 1%Q
  | S _ as maxLen => (1 - Qnat (levenshtein a b) / Qnat maxLen)%Q
  end.

(** Mean similarity of the pattern with the lines at position [i], after
    the normalisation of both. *)
Definition meanSimilarity (lines pattern : list jsstring) (i : nat) : Q :=
  (foldr Qplus 0%Q
     (imap (fun j p => similarity (normalizeLineForFuzzy (lineAt lines (i + j)))
                                  (normalizeLineForFuzzy p)) pattern)
   / Qnat (length pattern))%Q.

(** Similarity of two lines in doubles: the quotient of the Levenshtein
    distance by the longer length, rounded, taken from 1, rounded. *)
Definition roundedSimilarity (a b : jsstring) : spec_float :=
  match Nat.max (length a) (length b) with
  | 0 => Ieee.one
  | S _ as maxLen =>
      Ieee.sub Ieee.one (Ieee.div (Ieee.ofNat (levenshtein a b)) (Ieee.ofNat maxLen))
  end.

(** The mean similarity in doubles: the similarities of the lines added
    from the first line on, each sum rounded, and the total divided by the
    number of lines, rounded. *)
Definition roundedMeanSimilarity (lines pattern : list jsstring) (i : nat)
    : spec_float :=
  Ieee.div
    (fold_left Ieee.add
       (imap (fun j p =>
                roundedSimilarity (normalizeLineForFuzzy (lineAt lines (i + j)))
                                  (normalizeLineForFuzzy p)) pattern)
       Ieee.zero)
    (Ieee.ofNat (length pattern)).

(** The pattern matches the lines at position [i] when each of its lines is
    related to the line opposite. *)
Definition blockMatches (R : jsstring -> jsstring -> Prop)
    (lines pattern : list jsstring) (i : nat) : Prop :=
  forall j p, pattern !! j = Some p -> R (lineAt lines (i + j)) p.

Definition exactEq (a b : jsstring) : Prop := a = b.
Definition trimEndEq (a b : jsstring) : Prop := trimEnd a = trimEnd b.
Definition trimEq (a b : jsstring) : Prop := trim a = trim b.
Definition unicodeEq (a b : jsstring) : Prop := normalizeUnicode a = normalizeUnicode b.

(** The positions the strict passes look at: from [searchStart] to
    [maxStart], in ascending order. *)
Definition maxStartOf (lines pattern : list jsstring) : nat :=
  length lines - length pattern.

Definition searchStartOf (lines pattern : list jsstring) (start : nat) (eof : bool) : nat :=
  if eof then maxStartOf lines pattern else start.

(** [i] is the first position, among those of the strict passes, where the
    pattern matches. *)
Definition firstMatch (R : jsstring -> jsstring -> Prop)
    (lines pattern : list jsstring) (start : nat) (eof : bool) (i : nat) : Prop :=
  searchStartOf lines pattern start eof <= i <= maxStartOf lines pattern
  /\ blockMatches R lines pattern i
  /\ forall j, searchStartOf lines pattern start eof <= j < i ->
               ~ blockMatches R lines pattern j.

Definition noMatch (R : jsstring -> jsstring -> Prop)
    (lines pattern : list jsstring) (start : nat) (eof : bool) : Prop :=
  forall j, searchStartOf lines pattern start eof <= j <= maxStartOf lines pattern ->
            ~ blockMatches R lines pattern j.

(** The positions the fuzzy pass scores, in the order it visits them: the
    positions of the strict passes, then, with the end-of-file flag, the
    positions from [start] up to them. *)
Definition fuzzyOrder (lines pattern : list jsstring) (start : nat) (eof : bool)
    : list nat :=
  let searchStart := searchStartOf lines pattern start eof in
  seq searchStart (S (maxStartOf lines pattern) - searchStart)
  ++ (if eof && (start <? searchStart)%nat
      then seq start (searchStart - start) else []).

(** One step of the fuzzy loops: position [j] replaces the best position
    so far when its score is strictly greater. *)
Definition keepBest (score : nat -> Q) (best : option nat * Q) (j : nat)
    : option nat * Q :=
  if Qlt_le_dec (snd best) (score j) then (Some j, score j) else best.

(** A strict pass: the first position from [searchStart] to [maxStart]
    where the pattern matches under [compare]. *)
Definition strictPass (lines pattern : list jsstring) (start : nat) (eof : bool)
    (compare : jsstring -> jsstring -> bool) : option nat :=
  firstFrom (fun i => matchesAt lines pattern i compare)
    (searchStartOf lines pattern start eof)
    (S (maxStartOf lines pattern) - searchStartOf lines pattern start eof).

(** The outcome of the fuzzy pass from the best position and score. *)
Definition fuzzyOutcome (best : option nat * Q) : SeekSequenceResult :=
  match fst best with
  | Some bestIndex =>
      if Qle_bool FUZZY_THRESHOLD (snd best)
      then mkSeek (Some bestIndex) (snd best)
      else mkSeek None (snd best)
  | None => mkSeek None (snd best)
  end.

(** [i] is the best position of [order] for [score]: nothing before it
    reaches its score, nothing after it exceeds it. *)
Definition firstBest (score : nat -> Q) (order : list nat) (i : nat) : Prop :=
  exists before after,
    order = before ++ i :: after
    /\ Forall (fun j => (score j < score i)%Q) before
    /\ Forall (fun j => (score j <= score i)%Q) after.

(** ** Sample inputs *)

(** The batch of the test "stale hash error collects all mismatches". *)
Definition sampleContent : jsstring := text ["aaa"; "bbb"; "ccc"; "ddd"; "eee"].
Definition sampleEdits : list HashlineEdit :=
  [ReplaceLine (mkTag 2 (js "000001")) [js "BBB"];
   ReplaceLine (mkTag 4 (js "000002")) [js "DDD"]].

(** A batch that refers to the stale tag of line 2 three times, in a range
    that starts and ends on it and in a single replacement. *)
Definition repeatedEdits : list HashlineEdit :=
  [ReplaceRange (mkTag 2 (js "000001")) (mkTag 2 (js "000001")) [js "BBB"];
   ReplaceLine (mkTag 4 (js "000002")) [js "DDD"];
   ReplaceLine (mkTag 2 (js "000001")) [js "bbb"]].

(** A haystack with a pattern that stands in it with another indentation. *)
Definition sampleHaystack : list jsstring :=
  [js "function f() {"; js "    return 1;"; js "}"; js "tail"].
Definition samplePattern : list jsstring := [js "return 1;"; js "}"].

(** The code points that [normalizeUnicode] turns into the ASCII hyphen,
    apostrophe, quotation mark and space. *)
Definition dashCodes : list N :=
  [0x2010; 0x2011; 0x2012; 0x2013; 0x2014; 0x2015; 0x2212]%N.
Definition singleQuoteCodes : list N := [0x2018; 0x2019; 0x201a; 0x201b]%N.
Definition doubleQuoteCodes : list N := [0x201c; 0x201d; 0x201e; 0x201f]%N.
Definition spaceCodes : list N :=
  [0x00a0; 0x2002; 0x2003; 0x2004; 0x2005; 0x2006; 0x2007; 0x2008; 0x2009;
   0x200a; 0x202f; 0x205f; 0x3000]%N.

(** Sample inputs of the fuzzy pass.  The second line of [nearPattern]
    differs from the line of [nearLines] in 4 of 25 characters: the mean
    similarity is 23/25 = 0.92 in exact arithmetic and
    0.9199999999999999 in doubles. *)
Definition nearLines : list jsstring :=
  [js "same"; js "abcdefghijklmnopqrstuvwxy"].
Definition nearPattern : list jsstring :=
  [js "same"; js "abcdefghijklmnopqrstuWXYZ"].

(** Two blocks at the similarities 12/13, 22/23, 11/12 and 11/12, 22/23,
    12/13 to [tiePattern]: the same mean in exact arithmetic, two doubles
    that differ in the last bit. *)
Definition tiePattern : list jsstring :=
  [js "abcdefghijkl"; js "ABCDEFGHIJKLMNOPQRSTUVW"; js "mnopqrstuvwx"].
Definition lowBlock : list jsstring :=
  [js "abcdefghijklZ"; js "ABCDEFGHIJKLMNOPQRSTUVZ"; js "mnopqrstuvwZ"].
Definition highBlock : list jsstring :=
  [js "abcdefghijkZ"; js "ABCDEFGHIJKLMNOPQRSTUVZ"; js "mnopqrstuvwxZ"].

(** A chunk with a scope line that is also its first old line. *)
Definition sampleScopedChunk : UpdateChunk :=
  mkChunk (Some (js "function f() {")) true
    [js "function f() {"; js "    return 1;"]
    [js "function f() {"; js "    return 2;"] false.

(** ** Character maps of the normalisers *)

(** The three replacements of [normalizeFuzzyText] on one character. *)
Definition fuzzyChar (c : N) : N :=
  let c1 := if isDoubleQuoteLike c then 34%N else c in
  let c2 := if isSingleQuoteLike c1 then 39%N else c1 in
  if isDashLike c2 then 45%N else c2.

(** A character of the class replaced by [normalizeLineForFuzzy]: space or
    tab. *)
Definition isBlank (c : N) : bool := ((c =? 32) || (c =? 9))%N.

(** ** The grammar of hunks *)

(** [line.slice(1)] *)
Definition lineBody (l : jsstring) : jsstring := drop 1 l.

(** The content lines that belong to the old text (context and removed
    lines), to the new text (context and added lines), and to both. *)
Definition isOldLine (l : jsstring) : bool :=
  match l with [] => true | c :: _ => ((c =? 32) || (c =? 45))%N end.
Definition isNewLine (l : jsstring) : bool :=
  match l with [] => true | c :: _ => ((c =? 32) || (c =? 43))%N end.
Definition isContextLine (l : jsstring) : bool :=
  match l with [] => true | c :: _ => (c =? 32)%N end.

(** The chunk described by the content lines [body] of a hunk. *)
Definition chunkOfBody (ctx : option jsstring) (body : list jsstring) (eof : bool)
    : UpdateChunk :=
  mkChunk ctx (existsb isContextLine body)
    (lineBody <$> List.filter isOldLine body)
    (lineBody <$> List.filter isNewLine body) eof.

(** The scope context named by a hunk header. *)
Definition headerContext (h : jsstring) : option jsstring :=
  if strEq h EMPTY_CHANGE_CONTEXT_MARKER then None
  else Some (drop (length CHANGE_CONTEXT_MARKER) h).

(** The lines after the content lines of a hunk end it: there is none, or
    the first of them is not a content line. *)
Definition endsHunk (rest : list jsstring) : Prop :=
  match rest with [] => True | l :: _ => isContentLine l = false end.

(** The end-of-file marker follows the content lines. *)
Definition eofFollows (rest : list jsstring) : bool :=
  match rest with l :: _ => strEq l EOF_MARKER | [] => false end.

(** A hunk of a diff: its header, its content lines, and whether the
    end-of-file marker closes it. *)
Record Hunk := mkHunk {
  hunkHeader : jsstring;
  hunkBody : list jsstring;
  hunkEof : bool
}.

Definition hunkLines (h : Hunk) : list jsstring :=
  hunkHeader h :: hunkBody h ++ (if hunkEof h then [EOF_MARKER] else []).

Definition hunkChunk (h : Hunk) : UpdateChunk :=
  chunkOfBody (headerContext (hunkHeader h)) (hunkBody h) (hunkEof h).

Definition wellFormedHunk (h : Hunk) : Prop :=
  isHunkHeader (hunkHeader h) = true
  /\ hunkBody h <> []
  /\ Forall (fun l => isContentLine l = true) (hunkBody h).

(** A line that the loop of [parseDiffHunks] skips. *)
Definition isBlankLine (l : jsstring) : Prop := trim l = [].

(** ** Replacements made at once *)

(** The replacements [rs] lie one after the other from line [pos] on,
    without overlap, inside a file of [len] lines. *)
Fixpoint fitsFrom (pos len : nat) (rs : list Replacement) : Prop :=
  match rs with
  | [] => True
  | r :: rs' =>
      pos <= startIndex r /\ startIndex r + oldLen r <= len
      /\ fitsFrom (startIndex r + oldLen r) len rs'
  end.

(** All the replacements made at once, in the numbering of the original
    file: [suffix] holds the original lines from line [pos] on. *)
Fixpoint substituteFrom (pos : nat) (suffix : list jsstring) (rs : list Replacement)
    : list jsstring :=
  match rs with
  | [] => suffix
  | r :: rs' =>
      take (startIndex r - pos) suffix ++ replacementLines r
        ++ substituteFrom (startIndex r + oldLen r)
             (drop (startIndex r + oldLen r - pos) suffix) rs'
  end.

(** The lines of a file as the hunk path sees them: the piece after a final
    newline is dropped. *)
Definition linesOfFile (content : jsstring) : list jsstring :=
  if endsWithEmptyLine (splitLines content) then dropLast (splitLines content)
  else splitLines content.

(** The lines with an empty last line ensured, as joined by the hunk path. *)
Definition withFinalEmptyLine (ls : list jsstring) : list jsstring :=
  if (length ls =? 0)%nat || negb (endsWithEmptyLine ls) then ls ++ [[]] else ls.

(** A chunk that has old lines to find and is not bound to the end of the
    file. *)
Definition plainChunk (chunk : UpdateChunk) : Prop :=
  oldLines chunk <> [] /\ isEndOfFile chunk = false.

(** The replacement lies inside a file of [len] lines. *)
Definition insideFile (len : nat) (r : Replacement) : Prop :=
  startIndex r + oldLen r <= len.

(** ** Remap entries *)

(** The key and the value of the remap entry of a mismatch. *)
Definition remapKey (m : HashMismatch) : jsstring :=
  formatTagKey (mLine m) (expected m).
Definition remapValue (computeLineHash : nat -> jsstring -> jsstring)
    (fLines : list jsstring) (m : HashMismatch) : jsstring :=
  formatTagKey (mLine m) (computeLineHash (mLine m) (lineAt fLines (mLine m - 1))).

(** ** Sample patches *)

(** A file system with two files, and patches on it. *)
Definition sampleFiles : gmap jsstring jsstring :=
  <[js "/w/a.txt" := text ["a"; "b"; ""]]> (<[js "/w/b.txt" := text ["x"; ""]]> ∅).
Definition sampleUpdate : PatchInput :=
  mkPatchInput (js "a.txt") Update None (Some (text ["@@"; " a"; "-b"; "+B"])).
Definition sampleCreate : PatchInput :=
  mkPatchInput (js "new.txt") Create None (Some (js "hello")).
Definition sampleDelete : PatchInput :=
  mkPatchInput (js "b.txt") Delete None None.

(* ===================================================================== *)
(** * Compaction of mismatched lines into ranges *)
(* ===================================================================== *)

Section Compaction.

Lemma elem_of_insertUnique (n m : nat) (l : list nat) :
  m ∈ insertUnique n l <-> m = n \/ m ∈ l.
Proof.
  induction l as [|k l IH]; simpl.
  - rewrite list_elem_of_singleton, elem_of_nil. tauto.
  - destruct (Nat.ltb_spec n k); [by rewrite elem_of_cons|].
    destruct (Nat.eqb_spec n k) as [->|Hne].
    + rewrite elem_of_cons. tauto.
    + rewrite !elem_of_cons, IH. tauto.
Qed.

Lemma elem_of_sortUnique (m : nat) (l : list nat) :
  m ∈ sortUnique l <-> m ∈ l.
Proof.
  induction l as [|k l IH]; simpl; [done|].
  rewrite elem_of_insertUnique, IH, elem_of_cons. tauto.
Qed.

Lemma insertUnique_sorted (n : nat) (l : list nat) :
  StronglySorted lt l -> StronglySorted lt (insertUnique n l).
Proof.
  induction l as [|k l IH]; simpl; intros Hs.
  - repeat constructor.
  - apply StronglySorted_cons in Hs as [Hk Hl].
    destruct (Nat.ltb_spec n k) as [Hlt|Hge].
    + apply StronglySorted_cons. split.
      * constructor; [done|]. eapply Forall_impl; [exact Hk|]. simpl. lia.
      * by apply StronglySorted_cons.
    + destruct (Nat.eqb_spec n k) as [->|Hne].
      * by apply StronglySorted_cons.
      * apply StronglySorted_cons. split; [|by apply IH].
        apply Forall_forall. intros x Hx.
        apply elem_of_insertUnique in Hx as [->|Hx]; [lia|].
        by eapply Forall_forall in Hk.
Qed.

Lemma sortUnique_sorted (l : list nat) : StronglySorted lt (sortUnique l).
Proof.
  induction l as [|k l IH]; simpl; [constructor|].
  by apply insertUnique_sorted.
Qed.

(** The first range of a sweep starts where the sweep started. *)
Lemma sweepRanges_head (start last : nat) (rest : list nat) :
  exists e rs, sweepRanges start last rest = mkRange start e :: rs /\ last <= e.
Proof.
  revert last. induction rest as [|n rest IH]; intros last; simpl.
  - by exists last, [].
  - destruct (Nat.eqb_spec n (last + 1)) as [->|Hne].
    + destruct (IH (last + 1)) as (e & rs & -> & Hle).
      exists e, rs. split; [done|lia].
    + by exists last, (sweepRanges n n rest).
Qed.

Lemma sweepRanges_wf (start last : nat) (rest : list nat) :
  start <= last ->
  StronglySorted lt (last :: rest) ->
  Forall (fun r => rangeStart r <= rangeEnd r) (sweepRanges start last rest).
Proof.
  revert start last. induction rest as [|n rest IH]; intros start last Hle Hs; simpl.
  - by repeat constructor.
  - apply StronglySorted_cons in Hs as [Hlast Hrest].
    apply Forall_cons in Hlast as [Hn _].
    destruct (Nat.eqb_spec n (last + 1)) as [->|Hne].
    + apply IH; [lia|done].
    + constructor; [done|]. by apply IH.
Qed.

Lemma sweepRanges_separated (start last : nat) (rest : list nat) :
  StronglySorted lt (last :: rest) ->
  separatedRanges (sweepRanges start last rest).
Proof.
  revert start last. induction rest as [|n rest IH]; intros start last Hs; simpl.
  - done.
  - apply StronglySorted_cons in Hs as [Hlast Hrest].
    apply Forall_cons in Hlast as [Hn _].
    destruct (Nat.eqb_spec n (last + 1)) as [->|Hne].
    + by apply IH.
    + pose proof (IH n n Hrest) as Hsep.
      destruct (sweepRanges_head n n rest) as (e & rs & Heq & _).
      rewrite Heq in *. simpl. split; [lia|done].
Qed.

Lemma sweepRanges_cover (start last : nat) (rest : list nat) (n : nat) :
  start <= last ->
  StronglySorted lt (last :: rest) ->
  (exists r, r ∈ sweepRanges start last rest /\ inRangeOf r n)
  <-> (start <= n <= last \/ n ∈ rest).
Proof.
  revert start last. induction rest as [|k rest IH]; intros start last Hle Hs; simpl.
  - split.
    + intros (r & Hr & Hin). apply list_elem_of_singleton in Hr as ->. by left.
    + intros [H|H]; [|by apply elem_of_nil in H].
      exists (mkRange start last). split; [by apply list_elem_of_singleton|done].
  - apply StronglySorted_cons in Hs as [Hlast Hrest].
    apply Forall_cons in Hlast as [Hk _].
    destruct (Nat.eqb_spec k (last + 1)) as [->|Hne].
    + rewrite (IH start (last + 1)), elem_of_cons by (done || lia).
      intuition lia.
    + assert (Hkk : k <= k) by lia.
      pose proof (IH k k Hkk Hrest) as IHk.
      split.
      * intros (r & Hr & Hin). apply elem_of_cons in Hr as [->|Hr].
        -- by left.
        -- right. apply elem_of_cons.
           destruct (proj1 IHk) as [?|?]; [by eauto|left; lia|by right].
      * rewrite elem_of_cons. intros [H|[->|H]].
        -- exists (mkRange start last). split; [by left|done].
        -- destruct (proj2 IHk) as (r & Hr & Hin); [left; lia|].
           exists r. split; [by right|done].
        -- destruct (proj2 IHk) as (r & Hr & Hin); [by right|].
           exists r. split; [by right|done].
Qed.

Lemma compactLineRanges_cover (l : list nat) (n : nat) :
  n ∈ l <-> exists r, r ∈ compactLineRanges l /\ inRangeOf r n.
Proof.
  unfold compactLineRanges.
  pose proof (sortUnique_sorted l) as Hs.
  rewrite <- (elem_of_sortUnique n l).
  destruct (sortUnique l) as [|k rest].
  - split; [by intros ?%elem_of_nil|]. by intros (r & ?%elem_of_nil & _).
  - rewrite (sweepRanges_cover k k rest n (Nat.le_refl k) Hs), elem_of_cons.
    intuition lia.
Qed.

Lemma compactLineRanges_wf (l : list nat) :
  Forall (fun r => rangeStart r <= rangeEnd r) (compactLineRanges l).
Proof.
  unfold compactLineRanges.
  pose proof (sortUnique_sorted l) as Hs.
  destruct (sortUnique l) as [|k rest]; [constructor|].
  by apply sweepRanges_wf.
Qed.

Lemma compactLineRanges_separated (l : list nat) :
  separatedRanges (compactLineRanges l).
Proof.
  unfold compactLineRanges.
  pose proof (sortUnique_sorted l) as Hs.
  destruct (sortUnique l) as [|k rest]; [done|].
  by apply sweepRanges_separated.
Qed.

Lemma separated_sorted (rs : list HashMismatchRange) :
  Forall (fun r => rangeStart r <= rangeEnd r) rs ->
  separatedRanges rs ->
  StronglySorted gapBetween rs.
Proof.
  induction rs as [|r rs IH]; intros Hwf Hsep; [constructor|].
  apply Forall_cons in Hwf as [Hr Hwf].
  destruct rs as [|r2 rs]; [repeat constructor|].
  destruct Hsep as [Hgap Hsep]. specialize (IH Hwf Hsep).
  apply StronglySorted_cons. split; [|done].
  apply StronglySorted_cons in IH as [Hall _].
  apply Forall_cons in Hwf as [Hr2 _].
  constructor; [done|].
  eapply Forall_impl; [exact Hall|]. unfold gapBetween in *. intros r3 H3. lia.
Qed.

Lemma sorted_comparable (rs : list HashMismatchRange) (r r' : HashMismatchRange) :
  StronglySorted gapBetween rs -> r ∈ rs -> r' ∈ rs ->
  r = r' \/ gapBetween r r' \/ gapBetween r' r.
Proof.
  induction rs as [|x rs IH]; intros Hs Hr Hr'; [by apply elem_of_nil in Hr|].
  apply StronglySorted_cons in Hs as [Hall Hs].
  apply elem_of_cons in Hr as [->|Hr]; apply elem_of_cons in Hr' as [->|Hr'].
  - by left.
  - right; left. by eapply Forall_forall in Hall.
  - right; right. by eapply Forall_forall in Hall.
  - by apply IH.
Qed.

(** Ranges that cover a set, are well formed and leave gaps between them
    are the maximal runs of the set. *)
Lemma covering_ranges_are_maximal (S : nat -> Prop) (rs : list HashMismatchRange) :
  (forall n, S n <-> exists r, r ∈ rs /\ inRangeOf r n) ->
  Forall (fun r => rangeStart r <= rangeEnd r) rs ->
  separatedRanges rs ->
  Forall (maximalRun S) rs.
Proof.
  intros Hcover Hwf Hsep.
  pose proof (separated_sorted rs Hwf Hsep) as Hsorted.
  apply Forall_forall. intros r Hr.
  assert (Hout : forall n, S n -> ~ inRangeOf r n ->
                           n + 1 < rangeStart r \/ rangeEnd r + 1 < n).
  { intros n Hn Hnot. apply Hcover in Hn as (r' & Hr' & Hin').
    eapply Forall_forall in Hwf as Hwr; [|exact Hr].
    eapply Forall_forall in Hwf as Hwr'; [|exact Hr'].
    unfold inRangeOf in *.
    destruct (sorted_comparable rs r r' Hsorted Hr Hr') as [->|[Hg|Hg]];
      [done|unfold gapBetween in Hg; right; lia
      |unfold gapBetween in Hg; left; lia]. }
  eapply Forall_forall in Hwf as Hwr; [|exact Hr].
  split; [done|]. split; [|split].
  - intros n Hn. apply Hcover. eauto.
  - intros Hn. apply Hout in Hn as [?|?]; unfold inRangeOf; lia.
  - intros n Heq Hn. apply Hout in Hn as [?|?]; unfold inRangeOf; lia.
Qed.

End Compaction.

(** C4. The [affectedRanges] of a [HashlineMismatchError] are the maximal
    contiguous inclusive ranges of the mismatched line numbers: a number is a
    mismatched line exactly when one of the ranges contains it, every range
    is well formed, consecutive ranges are in ascending order with a gap of
    at least one absent number, and every range is a maximal run (the number
    after its end and the number before its start are not mismatched lines),
    so that adjacent integers are merged and every gap starts a new range.  Lines 2,3,4 give the single range 2..4;
    lines 2,3,5,7 give the ranges 2..3, 5..5 and 7..7. *)
Theorem C4_affected_ranges_are_maximal_runs
    (computeLineHash : nat -> jsstring -> jsstring)
    (ms : list HashMismatch) (fLines : list jsstring) :
  let rs := affectedRanges (newHashlineMismatchError computeLineHash ms fLines) in
  rs = compactLineRanges (mLine <$> ms)
  /\ (forall n, n ∈ (mLine <$> ms) <-> exists r, r ∈ rs /\ inRangeOf r n)
  /\ Forall (fun r => rangeStart r <= rangeEnd r) rs
  /\ separatedRanges rs
  /\ Forall (maximalRun (fun n => n ∈ (mLine <$> ms))) rs
  /\ compactLineRanges [2; 3; 4] = [mkRange 2 4]
  /\ compactLineRanges [2; 3; 5; 7] = [mkRange 2 3; mkRange 5 5; mkRange 7 7].
Proof.
  simpl. split; [done|]. split; [|split; [|split; [|split]]].
  - intros n. apply compactLineRanges_cover.
  - apply compactLineRanges_wf.
  - apply compactLineRanges_separated.
  - apply covering_ranges_are_maximal.
    + intros n. apply compactLineRanges_cover.
    + apply compactLineRanges_wf.
    + apply compactLineRanges_separated.
  - split; reflexivity.
Qed.

(* ===================================================================== *)
(** * Aggregation of mismatches *)
(* ===================================================================== *)

Section Aggregation.

Variable computeLineHash : nat -> jsstring -> jsstring.
Variable fLines : list jsstring.

Local Abbreviation fails := (failsHashValidation computeLineHash fLines).
Local Abbreviation toMismatch := (mismatchOf fLines).

Lemma recorded_spec (tags : list LineTag) (t : LineTag) :
  recorded (toMismatch <$> tags) t = bool_decide (t ∈ tags).
Proof.
  induction tags as [|[l h] tags IH]; [done|].
  rewrite fmap_cons. unfold recorded in *. cbn [existsb]. rewrite IH. clear IH.
  destruct t as [l' h']. cbn [mLine expected mismatchOf line hash].
  destruct (Nat.eqb_spec l l') as [->|Hl]; simpl.
  - unfold strEq. destruct (decide (h = h')) as [->|Hh].
    + rewrite bool_decide_eq_true_2 by done. simpl. symmetry.
      apply bool_decide_eq_true_2. by left.
    + rewrite (bool_decide_eq_false_2 (h = h')) by done. simpl.
      apply bool_decide_ext. rewrite elem_of_cons. split; [by right|].
      intros [[= ?]|?]; done.
  - apply bool_decide_ext. rewrite elem_of_cons. split; [by right|].
    intros [[= ? ?]|?]; [congruence|done].
Qed.

Lemma validateRef_spec (tags : list LineTag) (t : LineTag) :
  validateRef computeLineHash fLines (toMismatch <$> tags) t
  = toMismatch <$> (if fails t then keepFirst tags t else tags).
Proof.
  unfold validateRef, failsHashValidation, keepFirst.
  destruct (inRange fLines (line t)); cbn [andb]; [|done].
  destruct (strEq _ _); cbn [negb]; [done|].
  rewrite recorded_spec. destruct (bool_decide (t ∈ tags)); [done|].
  by rewrite fmap_app.
Qed.

Lemma validateRefs_spec (refs tags : list LineTag) :
  fold_left (validateRef computeLineHash fLines) refs (toMismatch <$> tags)
  = toMismatch <$> fold_left keepFirst (List.filter fails refs) tags.
Proof.
  revert tags. induction refs as [|t refs IH]; intros tags; [done|].
  cbn [fold_left List.filter]. rewrite validateRef_spec.
  destruct (fails t); by rewrite IH.
Qed.

Lemma collectFrom_spec (edits : list HashlineEdit) (tags : list LineTag) :
  fold_left
    (fun acc e => fold_left (validateRef computeLineHash fLines) (editTags e) acc)
    edits (toMismatch <$> tags)
  = toMismatch <$> fold_left keepFirst (List.filter fails (referencedTags edits)) tags.
Proof.
  revert tags. induction edits as [|e edits IH]; intros tags; [done|].
  cbn [fold_left]. rewrite validateRefs_spec, IH. unfold referencedTags.
  rewrite fmap_cons. cbn [concat]. by rewrite List.filter_app, fold_left_app.
Qed.

Lemma collectMismatches_spec (edits : list HashlineEdit) :
  collectMismatches computeLineHash fLines edits
  = toMismatch <$> distinctTags (List.filter fails (referencedTags edits)).
Proof. unfold collectMismatches, distinctTags. apply (collectFrom_spec edits []). Qed.

Lemma mismatchTag_toMismatch (tags : list LineTag) :
  mismatchTag <$> (toMismatch <$> tags) = tags.
Proof.
  induction tags as [|[l h] tags IH]; [done|].
  rewrite !fmap_cons, IH. done.
Qed.

(** The tags kept are those of the list, each once. *)
Lemma keepFirst_fold (refs tags : list LineTag) :
  NoDup tags ->
  NoDup (fold_left keepFirst refs tags)
  /\ forall t, t ∈ fold_left keepFirst refs tags <-> t ∈ tags \/ t ∈ refs.
Proof.
  revert tags. induction refs as [|r refs IH]; intros tags Hnd.
  - split; [done|]. intros t. rewrite elem_of_nil. tauto.
  - cbn [fold_left]. unfold keepFirst at 2 4.
    destruct (decide (r ∈ tags)) as [Hin|Hout].
    + rewrite bool_decide_eq_true_2 by done.
      destruct (IH tags Hnd) as [H1 H2]. split; [done|].
      intros t. rewrite H2, elem_of_cons. split; [tauto|].
      intros [?|[->|?]]; tauto.
    + rewrite bool_decide_eq_false_2 by done.
      destruct (IH (tags ++ [r])) as [H1 H2].
      { apply NoDup_app. split; [done|]. split; [|apply NoDup_singleton].
        intros x Hx ->%list_elem_of_singleton. done. }
      split; [done|]. intros t.
      rewrite H2, elem_of_app, list_elem_of_singleton, elem_of_cons. tauto.
Qed.

Lemma distinctTags_spec (refs : list LineTag) :
  NoDup (distinctTags refs) /\ forall t, t ∈ distinctTags refs <-> t ∈ refs.
Proof.
  destruct (keepFirst_fold refs [] (NoDup_nil_2)) as [H1 H2].
  split; [done|]. intros t. rewrite H2, elem_of_nil. tauto.
Qed.

End Aggregation.

(** C1. A batch in which [N >= 1] distinct referenced tags fail hash
    validation against the current content makes [applyHashlineEdits] fail
    with a [HashlineMismatchError] whose [mismatches] hold exactly one entry
    for each failing tag, however many edits refer to it: [N] entries, with
    the line and the expected hash of the tag and the line of the file, in
    the order in which the batch first refers to the tags.  The failure
    carries the unmodified lines of the file and no content is produced. *)
Theorem C1_mismatch_aggregation
    (computeLineHash : nat -> jsstring -> jsstring)
    (content : jsstring) (edits : list HashlineEdit)
    (failing : list LineTag) (N : nat) :
  let fLines := splitLines content in
  let fails := failsHashValidation computeLineHash fLines in
  NoDup failing ->
  (forall t, t ∈ failing <-> t ∈ referencedTags edits /\ fails t = true) ->
  length failing = N ->
  0 < N ->
  exists e,
    applyHashlineEdits computeLineHash content edits = Err (MismatchFailure e)
    /\ length (mismatches e) = N
    /\ NoDup (mismatchTag <$> mismatches e)
    /\ (forall t, t ∈ mismatchTag <$> mismatches e <-> t ∈ failing)
    /\ mismatches e = mismatchOf fLines <$> (mismatchTag <$> mismatches e)
    /\ mismatchTag <$> mismatches e
       = distinctTags (List.filter fails (referencedTags edits))
    /\ fileLines e = fLines
    /\ (forall a, applyHashlineEdits computeLineHash content edits <> Ok a).
Proof.
  intros fLines fails Hnd Hfailing HN Hpos.
  unfold applyHashlineEdits. fold fLines.
  rewrite collectMismatches_spec. fold fails.
  destruct (distinctTags_spec (List.filter fails (referencedTags edits))) as [Hd Hin].
  set (tags := distinctTags (List.filter fails (referencedTags edits))) in *.
  assert (Hsame : forall t, t ∈ tags <-> t ∈ failing).
  { intros t. rewrite Hin, Hfailing, !list_elem_of_In, filter_In. done. }
  assert (Hlen : length tags = N).
  { rewrite <- HN. apply Permutation_length. by apply NoDup_Permutation. }
  destruct (mismatchOf fLines <$> tags) as [|m ms] eqn:Hms.
  { apply (f_equal length) in Hms. rewrite length_fmap in Hms. simpl in Hms. lia. }
  rewrite <- Hms.
  eexists. split; [reflexivity|]. cbn [mismatches fileLines newHashlineMismatchError].
  rewrite mismatchTag_toMismatch.
  split; [by rewrite length_fmap|].
  repeat (split; [done|]). by intros a.
Qed.

(* ===================================================================== *)
(** * The hunk parser *)
(* ===================================================================== *)

(** Reduction of the sequencing once the first computation is known. *)
Ltac bind_simpl := cbn [mbind result_bind] in *.

Section Parser.

Lemma strEq_true (a b : jsstring) : strEq a b = true <-> a = b.
Proof. unfold strEq. apply bool_decide_eq_true. Qed.

Lemma strEq_false (a b : jsstring) : strEq a b = false <-> a <> b.
Proof. unfold strEq. apply bool_decide_eq_false. Qed.

Lemma strEq_refl (a : jsstring) : strEq a a = true.
Proof. by apply strEq_true. Qed.

(** The loop never decreases the count of parsed lines, consumes at most
    the lines it is given, and a chunk that has parsed lines has old or new
    lines. *)
Lemma parseChunkLines_ok (lineNumber : nat) (ls : list jsstring)
    (chunk chunk' : UpdateChunk) (p p' : nat) :
  parseChunkLines lineNumber ls chunk p = Ok (chunk', p') ->
  (p = 0 \/ nonEmptyChunk chunk) ->
  p <= p' <= p + length ls /\ (p' = 0 \/ nonEmptyChunk chunk').
Proof.
  revert chunk p. induction ls as [|l ls IH]; intros chunk p Hrun Hinv; simpl in Hrun.
  - injection Hrun as <- <-. split; [simpl; lia|done].
  - destruct (strEq l EOF_MARKER).
    { destruct (Nat.eqb_spec p 0) as [Hp|Hp]; [done|].
      injection Hrun as <- <-. split; [simpl; lia|].
      right. destruct Hinv as [?|Hne]; [done|]. exact Hne. }
    assert (Hstep : forall c, nonEmptyChunk c ->
              parseChunkLines lineNumber ls c (S p) = Ok (chunk', p') ->
              p <= p' <= p + length (l :: ls) /\ (p' = 0 \/ nonEmptyChunk chunk')).
    { intros c Hc Hr. destruct (IH c (S p) Hr) as [Hb Hi]; [by right|].
      split; [simpl; lia|done]. }
    destruct l as [|c rest].
    { eapply Hstep; [|exact Hrun]. left; simpl; by destruct (oldLines chunk). }
    destruct (c =? 32)%N.
    { eapply Hstep; [|exact Hrun]. left; simpl; by destruct (oldLines chunk). }
    destruct (c =? 43)%N.
    { eapply Hstep; [|exact Hrun]. right; simpl; by destruct (newLines chunk). }
    destruct (c =? 45)%N.
    { eapply Hstep; [|exact Hrun]. left; simpl; by destruct (oldLines chunk). }
    destruct (Nat.eqb_spec p 0) as [Hp|Hp]; [done|].
    injection Hrun as <- <-. split; [simpl; lia|].
    right. by destruct Hinv.
Qed.

(** Every failure of the loop is a [ParseError] with a line number. *)
Lemma parseChunkLines_err (lineNumber : nat) (ls : list jsstring)
    (chunk : UpdateChunk) (p : nat) (e : PatchError) :
  parseChunkLines lineNumber ls chunk p = Err e ->
  exists msg, e = ParseError msg (Some (lineNumber + 1)).
Proof.
  revert chunk p. induction ls as [|l ls IH]; intros chunk p Hrun; simpl in Hrun; [done|].
  destruct (strEq l EOF_MARKER).
  { destruct (p =? 0); [|done]. injection Hrun as <-. eauto. }
  destruct l as [|c rest]; [by eapply IH|].
  destruct (c =? 32)%N; [by eapply IH|].
  destruct (c =? 43)%N; [by eapply IH|].
  destruct (c =? 45)%N; [by eapply IH|].
  destruct (p =? 0); [|done]. injection Hrun as <-. eauto.
Qed.

Lemma parseHeader_start (l0 : jsstring) (lineNumber : nat) (allow : bool)
    (ctx : option jsstring) (startIdx : nat) :
  parseHeader l0 lineNumber allow = Ok (ctx, startIdx) -> startIdx <= 1.
Proof.
  unfold parseHeader. intros H.
  destruct (strEq _ _); [injection H as <- <-; lia|].
  destruct (startsWith _ _); [injection H as <- <-; lia|].
  destruct allow; simpl in H; [injection H as <- <-; lia|done].
Qed.

Lemma parseOneChunk_ok (lines : list jsstring) (lineNumber : nat) (allow : bool)
    (chunk : UpdateChunk) (consumed : nat) :
  parseOneChunk lines lineNumber allow = Ok (chunk, consumed) ->
  1 <= consumed <= length lines /\ nonEmptyChunk chunk.
Proof.
  unfold parseOneChunk. intros H.
  destruct lines as [|l0 lines']; [done|].
  destruct (parseHeader l0 lineNumber allow) as [[ctx startIdx]|] eqn:Hh;
    bind_simpl; [|done].
  apply parseHeader_start in Hh.
  destruct (Nat.leb_spec (length (l0 :: lines')) startIdx) as [|Hlen]; [done|].
  destruct (parseChunkLines _ _ _ _) as [[c p]|] eqn:Hp; bind_simpl; [|done].
  apply parseChunkLines_ok in Hp as [Hb Hi]; [|by left].
  destruct (Nat.eqb_spec p 0) as [|Hp0]; [done|].
  injection H as <- <-. rewrite length_drop in Hb.
  split; [lia|]. by destruct Hi.
Qed.

Lemma parseOneChunk_err (lines : list jsstring) (lineNumber : nat) (allow : bool)
    (e : PatchError) :
  parseOneChunk lines lineNumber allow = Err e ->
  exists msg n, e = ParseError msg (Some n).
Proof.
  unfold parseOneChunk. intros H.
  destruct lines as [|l0 lines']; [injection H as <-; eauto|].
  destruct (parseHeader l0 lineNumber allow) as [[ctx startIdx]|e'] eqn:Hh;
    bind_simpl.
  - destruct (_ <=? _); [injection H as <-; eauto|].
    destruct (parseChunkLines _ _ _ _) as [[c p]|e'] eqn:Hp; bind_simpl.
    + destruct (p =? 0); [injection H as <-; eauto|done].
    + injection H as <-. apply parseChunkLines_err in Hp as [msg ->]. eauto.
  - injection H as <-. unfold parseHeader in Hh.
    destruct (strEq _ _); [done|]. destruct (startsWith _ _); [done|].
    destruct allow; simpl in Hh; [done|]. injection Hh as <-. eauto.
Qed.

(** The loop of [parseDiffHunks] ends within the fuel it is given. *)
Lemma parseLoop_total (fuel : nat) (lines : list jsstring) (i : nat)
    (chunks : list UpdateChunk) :
  length lines - i < fuel ->
  exists r, parseLoop fuel lines i chunks = Some r.
Proof.
  revert i chunks. induction fuel as [|fuel IH]; intros i chunks Hf; [lia|].
  simpl. destruct (Nat.leb_spec (length lines) i) as [|Hi]; [eauto|].
  destruct (strEq _ _); [apply IH; lia|].
  destruct (parseOneChunk _ _ _) as [[c n]|e] eqn:Hc; [|eauto].
  apply parseOneChunk_ok in Hc as [Hn _]. apply IH. lia.
Qed.

Lemma parseLoop_ok (fuel : nat) (lines : list jsstring) (i : nat)
    (chunks chunks' : list UpdateChunk) :
  parseLoop fuel lines i chunks = Some (Ok chunks') ->
  Forall nonEmptyChunk chunks -> Forall nonEmptyChunk chunks'.
Proof.
  revert i chunks. induction fuel as [|fuel IH]; intros i chunks H Hall; [done|].
  simpl in H. destruct (_ <=? _); [by injection H as <-|].
  destruct (strEq _ _); [by eapply IH|].
  destruct (parseOneChunk _ _ _) as [[c n]|e] eqn:Hc; [|done].
  apply parseOneChunk_ok in Hc as [_ Hc].
  eapply IH; [exact H|]. apply Forall_app. split; [done|by constructor].
Qed.

Lemma parseLoop_err (fuel : nat) (lines : list jsstring) (i : nat)
    (chunks : list UpdateChunk) (e : PatchError) :
  parseLoop fuel lines i chunks = Some (Err e) ->
  exists msg n, e = ParseError msg (Some n).
Proof.
  revert i chunks. induction fuel as [|fuel IH]; intros i chunks H; [done|].
  simpl in H. destruct (_ <=? _); [done|].
  destruct (strEq _ _); [by eapply IH|].
  destruct (parseOneChunk _ _ _) as [[c n]|e'] eqn:Hc; [by eapply IH|].
  injection H as <-. by eapply parseOneChunk_err.
Qed.

Lemma trimStart_nonempty (s : jsstring) (c : N) :
  c ∈ s -> isWhiteSpace c = false -> trimStart s <> [].
Proof.
  induction s as [|d s IH]; intros Hin Hc; [by apply elem_of_nil in Hin|].
  simpl. destruct (isWhiteSpace d) eqn:Hd; [|done].
  apply IH; [|done]. apply elem_of_cons in Hin as [->|Hin]; [congruence|done].
Qed.

Lemma trim_nonempty (s : jsstring) (c : N) :
  c ∈ s -> isWhiteSpace c = false -> trim s <> [].
Proof.
  intros Hin Hc. unfold trim, trimEnd.
  assert (Hts : c ∈ trimStart s).
  { clear -Hin Hc. induction s as [|d s IH]; [done|]. simpl.
    destruct (isWhiteSpace d) eqn:Hd; [|done].
    apply IH. apply elem_of_cons in Hin as [->|Hin]; [congruence|done]. }
  intros Hnil. apply (f_equal reverse) in Hnil.
  rewrite reverse_involutive in Hnil. simpl in Hnil.
  revert Hnil. apply (trimStart_nonempty _ c); [|done].
  by apply elem_of_reverse.
Qed.

Lemma hunkHeader_shape (h : jsstring) :
  isHunkHeader h = true -> exists r, h = 64%N :: 64%N :: r.
Proof.
  unfold isHunkHeader. intros [H|H]%orb_true_iff.
  - apply strEq_true in H as ->. exists []. reflexivity.
  - destruct h as [|a [|b r]]; cbn in H; try done.
    { by rewrite andb_false_r in H. }
    apply andb_true_iff in H as [Ha H]. apply andb_true_iff in H as [Hb _].
    apply N.eqb_eq in Ha as <-. apply N.eqb_eq in Hb as <-. eauto.
Qed.

Lemma parseHeader_of_header (h : jsstring) (lineNumber : nat) (allow : bool) :
  isHunkHeader h = true ->
  exists ctx, parseHeader h lineNumber allow = Ok (ctx, 1).
Proof.
  unfold isHunkHeader, parseHeader. intros [H|H]%orb_true_iff.
  - rewrite H. eauto.
  - rewrite H. destruct (strEq _ _); eauto.
Qed.

(** A header that no content line follows is rejected, whatever comes
    after. *)
Lemma parseOneChunk_header_without_content (h : jsstring) (rest : list jsstring)
    (lineNumber : nat) (allow : bool) :
  isHunkHeader h = true ->
  match rest with [] => True | l :: _ => isContentLine l = false end ->
  exists msg,
    parseOneChunk (h :: rest) lineNumber allow
    = Err (ParseError msg (Some (lineNumber + 1))).
Proof.
  intros Hh Hrest. unfold parseOneChunk.
  destruct (parseHeader_of_header h lineNumber allow Hh) as [ctx ->].
  bind_simpl.
  destruct rest as [|l rest']; [simpl; eauto|].
  cbn [length Nat.leb drop]. simpl parseChunkLines.
  unfold isContentLine in Hrest.
  destruct (strEq l EOF_MARKER); [simpl; eauto|]. simpl in Hrest.
  destruct l as [|c r]; [done|].
  destruct (c =? 32)%N; [done|]. destruct (c =? 43)%N; [done|].
  destruct (c =? 45)%N; [done|]. simpl. eauto.
Qed.

Lemma parseLoop_header_without_content (fuel : nat) (lines : list jsstring)
    (i : nat) (chunks : list UpdateChunk) :
  headerWithoutContent lines i ->
  exists msg,
    parseLoop (S fuel) lines i chunks = Some (Err (ParseError msg (Some (i + 2)))).
Proof.
  intros [(h & Hi & Hh) Hnext]. simpl.
  pose proof (lookup_lt_Some _ _ _ Hi) as Hlt.
  destruct (Nat.leb_spec (length lines) i) as [|_]; [lia|].
  unfold lineAt. rewrite Hi. simpl.
  destruct (hunkHeader_shape h Hh) as [r ->].
  rewrite (proj2 (strEq_false _ _)).
  2:{ apply (trim_nonempty _ 64%N); [by left|done]. }
  rewrite (drop_S _ _ _ Hi).
  destruct (parseOneChunk_header_without_content (64%N :: 64%N :: r)
              (drop (S i) lines) (i + 1) (length chunks =? 0) Hh) as [msg Hmsg].
  { destruct (drop (S i) lines) as [|l ls] eqn:Hd; [done|].
    assert (Hl : lines !! (i + 1) = Some l).
    { replace (i + 1) with (S i + 0) by lia. rewrite <- lookup_drop, Hd. done. }
    by rewrite Hl in Hnext. }
  rewrite Hmsg. exists msg. do 4 f_equal. lia.
Qed.

End Parser.

Section ParserReach.

Lemma header_not_eof (h : jsstring) :
  isHunkHeader h = true -> strEq h EOF_MARKER = false.
Proof.
  intros Hh. destruct (hunkHeader_shape h Hh) as [r ->]. by apply strEq_false.
Qed.

(** The loop over the content lines never passes over a hunk header. *)
Lemma parseChunkLines_stops_at_header (lineNumber : nat) (ls : list jsstring)
    (chunk chunk' : UpdateChunk) (p p' k : nat) (h : jsstring) :
  parseChunkLines lineNumber ls chunk p = Ok (chunk', p') ->
  ls !! k = Some h -> isHunkHeader h = true ->
  p' <= p + k.
Proof.
  revert chunk p k. induction ls as [|l ls IH]; intros chunk p k Hrun Hk Hh; [done|].
  simpl in Hrun. destruct k as [|k]; simpl in Hk.
  - injection Hk as ->. rewrite (header_not_eof h Hh) in Hrun.
    destruct (hunkHeader_shape h Hh) as [r ->]. simpl in Hrun.
    destruct (p =? 0); [done|]. injection Hrun as _ <-. lia.
  - destruct (strEq l EOF_MARKER).
    { destruct (p =? 0); [done|]. injection Hrun as _ <-. lia. }
    assert (Hstep : forall c, parseChunkLines lineNumber ls c (S p) = Ok (chunk', p') ->
              p' <= p + S k).
    { intros c Hc. pose proof (IH c (S p) k Hc Hk Hh). lia. }
    destruct l as [|c rest]; [by eapply Hstep|].
    destruct (c =? 32)%N; [by eapply Hstep|].
    destruct (c =? 43)%N; [by eapply Hstep|].
    destruct (c =? 45)%N; [by eapply Hstep|].
    destruct (p =? 0); [done|]. injection Hrun as _ <-. lia.
Qed.

(** A chunk that starts before a hunk header ends at or before it. *)
Lemma parseOneChunk_stops_at_header (lines : list jsstring) (lineNumber : nat)
    (allow : bool) (chunk : UpdateChunk) (consumed k : nat) (h : jsstring) :
  parseOneChunk lines lineNumber allow = Ok (chunk, consumed) ->
  lines !! S k = Some h -> isHunkHeader h = true ->
  consumed <= S k.
Proof.
  unfold parseOneChunk. intros H Hk Hh.
  destruct lines as [|l0 lines']; [done|].
  destruct (parseHeader l0 lineNumber allow) as [[ctx startIdx]|] eqn:Hp;
    bind_simpl; [|done].
  destruct (_ <=? _); [done|].
  destruct (parseChunkLines _ _ _ _) as [[c p]|] eqn:Hc; bind_simpl; [|done].
  destruct (p =? 0); [done|]. injection H as _ <-.
  apply parseHeader_start in Hp.
  assert (Hk' : drop startIdx (l0 :: lines') !! (S k - startIdx) = Some h).
  { rewrite lookup_drop. by replace (startIdx + (S k - startIdx)) with (S k) by lia. }
  pose proof (parseChunkLines_stops_at_header _ _ _ _ _ _ _ _ Hc Hk' Hh). lia.
Qed.

(** The line number of a failure of [parseOneChunk] is that of the first
    line of the chunk or of the line after it. *)
Lemma parseOneChunk_err_line (lines : list jsstring) (lineNumber : nat) (allow : bool)
    (e : PatchError) :
  parseOneChunk lines lineNumber allow = Err e ->
  exists msg n, e = ParseError msg (Some n) /\ lineNumber <= n <= lineNumber + 1.
Proof.
  unfold parseOneChunk. intros H.
  destruct lines as [|l0 lines']; [injection H as <-; eexists _, _; split; [done|lia]|].
  destruct (parseHeader l0 lineNumber allow) as [[ctx startIdx]|e'] eqn:Hh;
    bind_simpl.
  - pose proof (parseHeader_start _ _ _ _ _ Hh) as Hs.
    destruct (_ <=? _); [injection H as <-; eexists _, _; split; [done|lia]|].
    destruct (parseChunkLines _ _ _ _) as [[c p]|e'] eqn:Hp; bind_simpl.
    + destruct (p =? 0); [injection H as <-; eexists _, _; split; [done|lia]|done].
    + injection H as <-. apply parseChunkLines_err in Hp as [msg ->].
      eexists _, _; split; [done|lia].
  - injection H as <-. unfold parseHeader in Hh.
    destruct (strEq _ _); [done|]. destruct (startsWith _ _); [done|].
    destruct allow; simpl in Hh; [done|]. injection Hh as <-.
    eexists _, _; split; [done|lia].
Qed.

(** From any position at or before a hunk header that no content line
    follows, the loop of [parseDiffHunks] fails, at the latest on the line
    after that header. *)
Lemma parseLoop_fails_before_empty_hunk (fuel : nat) (lines : list jsstring)
    (i j : nat) (chunks : list UpdateChunk) :
  headerWithoutContent lines i ->
  j <= i ->
  length lines - j < fuel ->
  exists msg n,
    parseLoop fuel lines j chunks = Some (Err (ParseError msg (Some n)))
    /\ n <= i + 2.
Proof.
  intros Hhead. revert j chunks.
  induction fuel as [|fuel IH]; intros j chunks Hj Hfuel; [lia|].
  destruct Hhead as [(h & Hi & Hh) Hnext].
  pose proof (lookup_lt_Some _ _ _ Hi) as Hlt.
  destruct (decide (j = i)) as [->|Hne].
  { destruct (parseLoop_header_without_content fuel lines i chunks
                (conj (ex_intro _ h (conj Hi Hh)) Hnext)) as [msg Hmsg].
    exists msg, (i + 2). by split. }
  cbn [parseLoop].
  destruct (Nat.leb_spec (length lines) j) as [|_]; [lia|].
  destruct (strEq (trim (lineAt lines j)) []).
  { apply IH; lia. }
  destruct (parseOneChunk (drop j lines) (j + 1) (length chunks =? 0))
    as [[chunk consumed]|e] eqn:Hc.
  - pose proof (parseOneChunk_ok _ _ _ _ _ Hc) as [Hpos _].
    assert (Hk : drop j lines !! S (i - j - 1) = Some h).
    { rewrite lookup_drop. by replace (j + S (i - j - 1)) with i by lia. }
    pose proof (parseOneChunk_stops_at_header _ _ _ _ _ _ _ Hc Hk Hh).
    apply IH; lia.
  - apply parseOneChunk_err_line in Hc as (msg & n & -> & Hn).
    exists msg, n. split; [done|lia].
Qed.

End ParserReach.

(** C8. [parseDiffHunks] always returns; every failure is a [ParseError]
    carrying a line number; a successful parse never contains a chunk whose
    old and new lines are both empty; and parsing a diff fails whenever one
    of its lines is a hunk header (bare [@@] or [@@ <context>]) that no
    content line follows, be it the end of the input, the next header, the
    end-of-file marker or any other line that is not a content line: the
    parse error is raised at the latest on the line after that header. *)
Theorem C8_empty_hunk_is_a_parse_error (diff : jsstring) :
  (exists r, parseDiffHunks diff = Some r)
  /\ (forall chunks, parseDiffHunks diff = Some (Ok chunks) ->
        Forall nonEmptyChunk chunks)
  /\ (forall e, parseDiffHunks diff = Some (Err e) ->
        exists msg n, e = ParseError msg (Some n))
  /\ (forall i,
        headerWithoutContent (splitLines diff) i ->
        exists msg n,
          parseDiffHunks diff = Some (Err (ParseError msg (Some n)))
          /\ n <= i + 2).
Proof.
  unfold parseDiffHunks. split; [|split; [|split]].
  - apply parseLoop_total. lia.
  - intros chunks H. eapply parseLoop_ok; [exact H|constructor].
  - intros e H. by eapply parseLoop_err.
  - intros i Hi. apply parseLoop_fails_before_empty_hunk; [done|lia|lia].
Qed.

(* ===================================================================== *)
(** * The patch applicator *)
(* ===================================================================== *)

Section Applicator.

Lemma resolveOldLines_insertion (originalLines : list jsstring) (path : jsstring)
    (lineIndex : nat) (chunk : UpdateChunk) :
  oldLines chunk = [] ->
  resolveOldLines originalLines path lineIndex chunk
  = Ok (lineIndex,
        mkReplacement (endInsertionIndex originalLines) 0 (newLines chunk)).
Proof. intros H. unfold resolveOldLines, endInsertionIndex. by rewrite H. Qed.

Lemma endsWithEmptyLine_snoc (l : list jsstring) :
  endsWithEmptyLine l = true -> l = dropLast l ++ [[]].
Proof.
  unfold endsWithEmptyLine, dropLast.
  destruct l as [|x l] using rev_ind; [done|]. clear IHl.
  rewrite last_snoc, length_app. simpl. intros ->%strEq_true.
  replace (length l + 1 - 1) with (length l) by lia.
  by rewrite take_app_length.
Qed.

(** What splicing the insertion does to the lines of the file. *)
Lemma splice_end_insertion (originalLines newL : list jsstring) :
  spliceReplacement (mkReplacement (endInsertionIndex originalLines) 0 newL)
                    originalLines
  = if endsWithEmptyLine originalLines
    then dropLast originalLines ++ newL ++ [[]]
    else originalLines ++ newL.
Proof.
  unfold spliceReplacement, endInsertionIndex. simpl.
  destruct (endsWithEmptyLine originalLines) eqn:He.
  - apply endsWithEmptyLine_snoc in He.
    set (d := dropLast originalLines) in *.
    assert (Hlen : length originalLines - 1 = length d).
    { rewrite He, length_app. simpl. lia. }
    rewrite Hlen, Nat.add_0_r. rewrite He at 1 2.
    by rewrite take_app_length, drop_app_length.
  - rewrite Nat.add_0_r, firstn_all, drop_all. by rewrite app_nil_r.
Qed.

Lemma joinLines_snoc (ls : list jsstring) (x : jsstring) :
  ls <> [] -> joinLines (ls ++ [x]) = joinLines ls ++ 10%N :: x.
Proof.
  induction ls as [|l ls IH]; [done|]. intros _.
  destruct ls as [|l' ls']; [done|].
  change (joinLines ((l :: l' :: ls') ++ [x]))
    with (l ++ 10%N :: joinLines ((l' :: ls') ++ [x])).
  rewrite IH by done.
  change (joinLines (l :: l' :: ls')) with (l ++ 10%N :: joinLines (l' :: ls')).
  by rewrite <- app_assoc.
Qed.

Lemma endsWithNewline_snoc (s : jsstring) : endsWithNewline (s ++ [10%N]) = true.
Proof. unfold endsWithNewline. by rewrite last_snoc. Qed.

(** Lines whose last element is empty join into the empty text or into a
    text that ends with a newline. *)
Lemma joinLines_last_empty (ls : list jsstring) :
  last ls = Some [] ->
  joinLines ls = [] \/ endsWithNewline (joinLines ls) = true.
Proof.
  destruct ls as [|x ls] using rev_ind; [done|]. clear IHls.
  rewrite last_snoc. intros [= ->].
  destruct ls as [|l ls]; [by left|right].
  rewrite joinLines_snoc by done. apply endsWithNewline_snoc.
Qed.

(** The whole-text path always ends its result with a newline. *)
Lemma applySimpleReplace_ends_with_newline
    (normalizeToLF : jsstring -> jsstring)
    (adjust : jsstring -> jsstring -> jsstring -> jsstring)
    (fuzzyFind : jsstring -> jsstring -> MatchOutcome)
    (content path : jsstring) (chunk : UpdateChunk) (r : jsstring) :
  applySimpleReplace normalizeToLF adjust fuzzyFind content path chunk = Ok r ->
  endsWithNewline r = true.
Proof.
  unfold applySimpleReplace.
  destruct (multipleOccurrences _); [done|].
  destruct (matched _) as [m|]; [|by destruct (closest _)].
  destruct (endsWithNewline (_ ++ _ ++ _)) eqn:He; simpl; intros [= <-].
  - done.
  - apply endsWithNewline_snoc.
Qed.

(** The hunk path ends its result with a newline unless the result is the
    empty text. *)
Lemma applyHunks_newline_or_empty (content path : jsstring)
    (chunks : list UpdateChunk) (r : jsstring) :
  applyHunks content path chunks = Ok r ->
  r = [] \/ endsWithNewline r = true.
Proof.
  unfold applyHunks.
  destruct (computeReplacements _ _ _) as [reps|]; bind_simpl; [|done].
  intros [= <-]. apply joinLines_last_empty.
  destruct (_ || _) eqn:Hc.
  - by rewrite last_snoc.
  - apply orb_false_iff in Hc as [_ Hc]. apply negb_false_iff in Hc.
    unfold endsWithEmptyLine in Hc.
    destruct (last _) as [x|]; [|done]. by apply strEq_true in Hc as ->.
Qed.

Lemma indexOfFrom_none_count (target s : jsstring) (i : nat) :
  indexOfFrom target s i = None -> countFrom target s = 0.
Proof.
  revert i. induction s as [|c s IH]; intros i H.
  - cbn [indexOfFrom countFrom] in *. by destruct (startsWith target []).
  - cbn [indexOfFrom countFrom] in *.
    destruct (startsWith target (c :: s)); [done|]. by eapply IH.
Qed.

(** More than one verbatim occurrence: the matcher reports the count and
    no match. *)
Lemma findEditMatch_multiple (fuzzyFind : jsstring -> jsstring -> MatchOutcome)
    (content target : jsstring) :
  1 < countOccurrences target content ->
  findEditMatch fuzzyFind content target
  = mkOutcome None None (Some (countOccurrences target content)).
Proof.
  unfold findEditMatch, countOccurrences. intros Hn.
  destruct (length target =? 0); [lia|].
  destruct (indexOfFrom target content 0) eqn:Hi.
  - by destruct (Nat.ltb_spec 1 (countFrom target content)); [|lia].
  - rewrite (indexOfFrom_none_count _ _ _ Hi) in Hn. lia.
Qed.

End Applicator.

Section Occurrences.

Lemma startsWith_take (p s : jsstring) :
  startsWith p s = true <-> take (length p) s = p.
Proof.
  revert s. induction p as [|a p IH]; intros s; [done|].
  destruct s as [|b s]; simpl; [done|].
  rewrite andb_true_iff, N.eqb_eq, IH. split.
  - by intros [-> ->].
  - by intros [= -> ->].
Qed.

Lemma occursAt_lt (target content : jsstring) (i : nat) :
  target <> [] -> occursAt target content i -> i < length content.
Proof.
  unfold occursAt. intros Hne H.
  destruct (Nat.lt_ge_cases i (length content)) as [|Hge]; [done|].
  rewrite drop_ge, take_nil in H by done. congruence.
Qed.

Lemma countFrom_filter (target s : jsstring) (o : nat) :
  countFrom target s
  = length (List.filter
              (fun i => bool_decide (take (length target) (drop (i - o) s) = target))
              (seq o (S (length s)))).
Proof.
  revert o. induction s as [|c s IH]; intros o.
  - cbn [countFrom length seq List.filter]. rewrite Nat.sub_diag, Nat.add_0_r.
    cbn [drop].
    destruct (startsWith target []) eqn:Hs.
    + apply startsWith_take in Hs. by rewrite bool_decide_eq_true_2.
    + rewrite bool_decide_eq_false_2; [done|].
      intros H. apply startsWith_take in H. congruence.
  - cbn [countFrom].
    change (seq o (S (length (c :: s)))) with (o :: seq (S o) (S (length s))).
    cbn [List.filter]. rewrite Nat.sub_diag. change (drop 0 (c :: s)) with (c :: s).
    rewrite (IH (S o)).
    rewrite (List.filter_ext_in
               (fun i => bool_decide (take (length target) (drop (i - o) (c :: s)) = target))
               (fun i => bool_decide (take (length target) (drop (i - S o) s) = target))
               (seq (S o) (S (length s)))).
    2:{ intros i Hi%in_seq. replace (i - o) with (S (i - S o)) by lia. done. }
    destruct (startsWith target (c :: s)) eqn:Hs.
    + apply startsWith_take in Hs. by rewrite bool_decide_eq_true_2.
    + rewrite bool_decide_eq_false_2; [done|].
      intros H. apply startsWith_take in H. congruence.
Qed.

(** The count of the matcher is the number of offsets at which the target
    stands. *)
Lemma countOccurrences_offsets (target content : jsstring) :
  target <> [] ->
  countOccurrences target content = length (occurrenceOffsets target content).
Proof.
  intros Hne. unfold countOccurrences, occurrenceOffsets.
  destruct target as [|a target]; [done|]. cbn [length Nat.eqb].
  rewrite (countFrom_filter _ _ 0). f_equal.
  apply List.filter_ext. intros i. by rewrite Nat.sub_0_r.
Qed.

Lemma occurrenceOffsets_spec (target content : jsstring) (i : nat) :
  target <> [] ->
  i ∈ occurrenceOffsets target content <-> occursAt target content i.
Proof.
  intros Hne. unfold occurrenceOffsets.
  rewrite list_elem_of_In, filter_In, in_seq, bool_decide_eq_true. split; [tauto|].
  intros H. split; [|done]. apply occursAt_lt in H; [lia|done].
Qed.

Lemma occurrenceOffsets_NoDup (target content : jsstring) :
  NoDup (occurrenceOffsets target content).
Proof.
  unfold occurrenceOffsets. apply NoDup_ListNoDup, List.NoDup_filter, seq_NoDup.
Qed.

Lemma indexOfFrom_first (target s : jsstring) (o k : nat) :
  indexOfFrom target s o = Some k ->
  o <= k /\ occursAt target s (k - o)
  /\ forall j, j < k - o -> ~ occursAt target s j.
Proof.
  unfold occursAt. revert o. induction s as [|c s IH]; intros o; cbn [indexOfFrom].
  - destruct (startsWith target []) eqn:Hs; [|done]. intros [= <-].
    rewrite Nat.sub_diag. split; [done|]. split; [by apply startsWith_take|lia].
  - destruct (startsWith target (c :: s)) eqn:Hs.
    + intros [= <-]. rewrite Nat.sub_diag.
      split; [done|]. split; [by apply startsWith_take|lia].
    + intros Hk. destruct (IH _ Hk) as (Ho & Hat & Hfirst).
      replace (k - o) with (S (k - S o)) by lia.
      split; [lia|]. split; [done|].
      intros [|j] Hj.
      * rewrite drop_0. intros H. apply startsWith_take in H. congruence.
      * apply Hfirst. lia.
Qed.

(** The verbatim stage of the matcher, by the number of offsets at which
    the target stands. *)
Lemma findEditMatch_several (fuzzyFind : jsstring -> jsstring -> MatchOutcome)
    (content target : jsstring) (i j : nat) :
  target <> [] -> i <> j ->
  occursAt target content i -> occursAt target content j ->
  2 <= length (occurrenceOffsets target content)
  /\ findEditMatch fuzzyFind content target
     = mkOutcome None None (Some (length (occurrenceOffsets target content))).
Proof.
  intros Hne Hij Hi Hj.
  assert (Htwo : 2 <= length (occurrenceOffsets target content)).
  { change 2 with (length [i; j]). apply submseteq_length, NoDup_submseteq.
    - apply NoDup_cons. split; [by intros ->%list_elem_of_singleton|].
      apply NoDup_singleton.
    - intros x. rewrite !elem_of_cons, elem_of_nil.
      intros [->|[->|[]]]; by apply occurrenceOffsets_spec. }
  split; [done|].
  rewrite <- countOccurrences_offsets by done.
  apply findEditMatch_multiple. rewrite countOccurrences_offsets by done. lia.
Qed.

Lemma findEditMatch_single (fuzzyFind : jsstring -> jsstring -> MatchOutcome)
    (content target : jsstring) (i : nat) :
  target <> [] ->
  occursAt target content i ->
  (forall j, occursAt target content j -> j = i) ->
  findEditMatch fuzzyFind content target
  = mkOutcome (Some (mkEditMatch target i (lineOfOffset content i) 1%Q)) None None.
Proof.
  intros Hne Hi Honly. unfold findEditMatch.
  destruct (Nat.eqb_spec (length target) 0) as [H0|_]; [by destruct target|].
  assert (Hcount : countOccurrences target content <= 1).
  { rewrite countOccurrences_offsets by done.
    change 1 with (length [i]). apply submseteq_length, NoDup_submseteq.
    - apply occurrenceOffsets_NoDup.
    - intros x Hx%occurrenceOffsets_spec; [|done].
      apply list_elem_of_singleton. by apply Honly. }
  destruct (indexOfFrom target content 0) as [k|] eqn:Hk.
  - apply indexOfFrom_first in Hk as (_ & Hat & _). rewrite Nat.sub_0_r in Hat.
    rewrite (Honly k Hat).
    by destruct (Nat.ltb_spec 1 (countOccurrences target content)); [lia|].
  - exfalso. apply indexOfFrom_none_count in Hk.
    assert (Hin : i ∈ occurrenceOffsets target content)
      by (by apply occurrenceOffsets_spec).
    pose proof (countOccurrences_offsets target content Hne) as Hc.
    unfold countOccurrences in Hc.
    destruct (Nat.eqb_spec (length target) 0) as [H0|_]; [by destruct target|].
    rewrite Hk in Hc. destruct (occurrenceOffsets target content); [|done].
    by apply elem_of_nil in Hin.
Qed.

End Occurrences.

(** C6, as stated, fails: a chunk without old lines is not inserted at the
    cursor.  With the cursor at line 0 of a two-line file that does not end
    with a blank line, the insertion is recorded at index 2. *)
Lemma C6_counterexample :
  ~ (forall (originalLines : list jsstring) (path : jsstring) (lineIndex : nat)
            (chunk : UpdateChunk) (cursor cursor' : nat) (r : Replacement),
       oldLines chunk = [] ->
       locateContext originalLines path lineIndex chunk = Ok cursor ->
       resolveChunk originalLines path lineIndex chunk = Ok (cursor', r) ->
       startIndex r
       = if endsWithEmptyLine originalLines
         then length originalLines - 1 else cursor).
Proof.
  intros H.
  specialize (H [js "a"; js "b"] (js "f") 0
                (mkChunk None false [] [js "x"] false) 0 0
                (mkReplacement 2 0 [js "x"])
                eq_refl eq_refl eq_refl).
  vm_compute in H. discriminate H.
Qed.

(** C6, amended. A chunk without old lines is recorded as a pure insertion
    (no line removed) of the chunk's new lines at the end of the file, or at
    the place of the final line when that line is empty, wherever the cursor
    stands; the cursor is the one left by the scope step and is not moved.
    Spliced into the file, the new lines come after the last line, or just
    before the final empty line. *)
Theorem C6_pure_insertion_at_end_of_file
    (originalLines : list jsstring) (path : jsstring) (lineIndex cursor : nat)
    (chunk : UpdateChunk) :
  oldLines chunk = [] ->
  locateContext originalLines path lineIndex chunk = Ok cursor ->
  let r := mkReplacement (endInsertionIndex originalLines) 0 (newLines chunk) in
  resolveChunk originalLines path lineIndex chunk = Ok (cursor, r)
  /\ startIndex r
     = (if endsWithEmptyLine originalLines
        then length originalLines - 1 else length originalLines)
  /\ oldLen r = 0
  /\ replacementLines r = newLines chunk
  /\ spliceReplacement r originalLines
     = (if endsWithEmptyLine originalLines
        then dropLast originalLines ++ newLines chunk ++ [[]]
        else originalLines ++ newLines chunk).
Proof.
  intros Hold Hctx r. unfold resolveChunk. rewrite Hctx. bind_simpl.
  rewrite resolveOldLines_insertion by done.
  repeat split. apply splice_end_insertion.
Qed.

(** A run of C6 on a file that ends with a blank line, the chunk naming a
    scope line. *)
Lemma C6_witness :
  let originalLines := [js "foo"; js "bar"; []] in
  let chunk := mkChunk (Some (js "foo")) false [] [js "new"] false in
  let r := mkReplacement (endInsertionIndex originalLines) 0 (newLines chunk) in
  resolveChunk originalLines (js "f") 0 chunk = Ok (1, r)
  /\ startIndex r
     = (if endsWithEmptyLine originalLines
        then length originalLines - 1 else length originalLines)
  /\ oldLen r = 0
  /\ replacementLines r = newLines chunk
  /\ spliceReplacement r originalLines
     = (if endsWithEmptyLine originalLines
        then dropLast originalLines ++ newLines chunk ++ [[]]
        else originalLines ++ newLines chunk).
Proof.
  apply (C6_pure_insertion_at_end_of_file
           [js "foo"; js "bar"; []] (js "f") 0 1
           (mkChunk (Some (js "foo")) false [] [js "new"] false)).
  - reflexivity.
  - vm_compute. reflexivity.
Defined.

(** C10. The hunk path does not always end the new content with a newline:
    a hunk that removes every line of the file leaves the empty text, which
    does not end with a newline, and so does a hunk that leaves a single
    blank line.  The diff
    below parses to a chunk with a scope line, so it is applied on the hunk
    path, whatever the helpers of the whole-text path are. *)
Theorem C10_hunk_path_can_produce_text_without_final_newline :
  let chunk := mkChunk (Some (js "a")) false [js "a"] [] false in
  parseDiffHunks (text ["@@ a"; "-a"]) = Some (Ok [chunk])
  /\ (forall normalizeToLF adjust fuzzyFind,
        applyDiffToContent normalizeToLF adjust fuzzyFind
          (text ["a"; ""]) (js "f") [chunk] = Ok []
        /\ applyDiffToContent normalizeToLF adjust fuzzyFind
             (text ["a"; ""; ""]) (js "f") [chunk] = Ok [])
  /\ endsWithNewline [] = false.
Proof.
  split; [vm_compute; reflexivity|]. split; [|reflexivity].
  intros normalizeToLF adjust fuzzyFind. split; vm_compute; reflexivity.
Qed.

(** C3, as stated, fails: a single chunk with no scope line and no context
    lines that only adds lines is not resolved as a whole-text replacement
    (shown with helpers that change nothing and a fuzzy stage that finds
    nothing); the lines are inserted at the end of the file. *)
Lemma C3_counterexample :
  ~ (forall (content path : jsstring) (chunk : UpdateChunk),
       changeContext chunk = None ->
       hasContextLines chunk = false ->
       applyDiffToContent keepLineEndings keepIndentation noFuzzyMatch
         content path [chunk]
       = applySimpleReplace keepLineEndings keepIndentation noFuzzyMatch
           content path chunk).
Proof.
  intros H.
  specialize (H (text ["a"; ""]) (js "f") (mkChunk None false [] [js "x"] false)
                eq_refl eq_refl).
  vm_compute in H. discriminate H.
Qed.

(** C3, amended. A single chunk with no scope line, no context lines and at
    least one old line is resolved by the whole-text replacement over the
    entire content, at the level of characters.  When the old text is not
    empty and stands verbatim at two or more offsets of the content, whether
    or not the occurrences overlap, application fails with an
    [ApplyPatchError] that names the number of those offsets.  When it stands
    at exactly one offset, the text at that offset is replaced by the new
    text, re-indented, and a final newline is added when the result has
    none. *)
Theorem C3_single_bare_chunk_is_whole_text_replace
    (normalizeToLF : jsstring -> jsstring)
    (adjust : jsstring -> jsstring -> jsstring -> jsstring)
    (fuzzyFind : jsstring -> jsstring -> MatchOutcome)
    (content path : jsstring) (chunk : UpdateChunk) :
  changeContext chunk = None ->
  hasContextLines chunk = false ->
  oldLines chunk <> [] ->
  let oldText := normalizeToLF (joinLines (oldLines chunk)) in
  let fileText := normalizeToLF content in
  let outcome :=
    applyDiffToContent normalizeToLF adjust fuzzyFind content path [chunk] in
  outcome = applySimpleReplace normalizeToLF adjust fuzzyFind content path chunk
  /\ (oldText <> [] ->
      forall i j, i <> j ->
        occursAt oldText fileText i -> occursAt oldText fileText j ->
        2 <= length (occurrenceOffsets oldText fileText)
        /\ outcome
           = Err (ApplyPatchError
                    (FoundOccurrences (length (occurrenceOffsets oldText fileText))
                                      path)))
  /\ (oldText <> [] ->
      forall i, occursAt oldText fileText i ->
        (forall j, occursAt oldText fileText j -> j = i) ->
        let result :=
          take i fileText
          ++ adjust oldText oldText (joinLines (newLines chunk))
          ++ drop (i + length oldText) fileText in
        outcome = Ok (if endsWithNewline result then result else result ++ [10%N])).
Proof.
  intros Hctx Hcl Hold oldText fileText outcome.
  assert (Hguard : isSimpleReplace chunk = true).
  { unfold isSimpleReplace. rewrite Hctx, Hcl. simpl.
    destruct (oldLines chunk); [done|]. done. }
  assert (Hroute : outcome
            = applySimpleReplace normalizeToLF adjust fuzzyFind content path chunk).
  { unfold outcome, applyDiffToContent. by rewrite Hguard. }
  split; [done|]. rewrite Hroute. unfold applySimpleReplace.
  fold oldText fileText. split.
  - intros Hne i j Hij Hi Hj.
    destruct (findEditMatch_several fuzzyFind fileText oldText i j Hne Hij Hi Hj)
      as [Htwo ->].
    split; [done|]. unfold multipleOccurrences. cbn [occurrences].
    by destruct (Nat.ltb_spec 1 (length (occurrenceOffsets oldText fileText)));
      [|lia].
  - intros Hne i Hi Honly.
    rewrite (findEditMatch_single fuzzyFind fileText oldText i Hne Hi Honly).
    cbn [multipleOccurrences occurrences matched actualText matchStart].
    cbv zeta. by destruct (endsWithNewline _).
Qed.

(** A run of C3 on the file of three lines [}]: the old text, two lines
    [}], stands at the offsets 0 and 2, which overlap. *)
Lemma C3_witness :
  let content := text ["}"; "}"; "}"] in
  let chunk := mkChunk None false [js "}"; js "}"] [js "x"] false in
  occurrenceOffsets (text ["}"; "}"]) content = [0; 2]
  /\ applyDiffToContent keepLineEndings keepIndentation noFuzzyMatch
       content (js "f") [chunk]
     = Err (ApplyPatchError (FoundOccurrences 2 (js "f"))).
Proof.
  intros content chunk. split; [vm_compute; reflexivity|].
  destruct (C3_single_bare_chunk_is_whole_text_replace
              keepLineEndings keepIndentation noFuzzyMatch content (js "f") chunk)
    as (_ & H & _); [reflexivity|reflexivity|discriminate|].
  destruct (H ltac:(discriminate) 0 2) as [_ ->];
    [lia|vm_compute; reflexivity|vm_compute; reflexivity|].
  vm_compute. reflexivity.
Defined.

(* ===================================================================== *)
(** * The Levenshtein distance *)
(* ===================================================================== *)

Section Levenshtein.

Lemma levRev_nil_r (ra : jsstring) : levRev ra [] = length ra.
Proof. by destruct ra. Qed.

Lemma levRev_cons (x y : N) (ra rb : jsstring) :
  levRev (x :: ra) (y :: rb)
  = Nat.min (Nat.min (levRev ra (y :: rb) + 1) (levRev (x :: ra) rb + 1))
            (levRev ra rb + (if (x =? y)%N then 0 else 1)).
Proof. reflexivity. Qed.

Lemma levRev_refl (ra : jsstring) : levRev ra ra = 0.
Proof.
  induction ra as [|x ra IH]; [done|].
  rewrite levRev_cons, IH, N.eqb_refl. lia.
Qed.

Lemma levRev_bound (ra rb : jsstring) :
  levRev ra rb <= Nat.max (length ra) (length rb).
Proof.
  revert rb. induction ra as [|x ra IH]; intros rb; [simpl; lia|].
  induction rb as [|y rb IHb]; [rewrite levRev_nil_r; lia|].
  rewrite levRev_cons. specialize (IH rb). simpl length.
  destruct (x =? y)%N; lia.
Qed.

Lemma levRow_spec (x : N) (ra bsuf pb : jsstring) :
  levRow x bsuf (levRev ra pb) (levRev ra <$> revPrefixes pb bsuf)
         (levRev (x :: ra) pb)
  = levRev (x :: ra) <$> revPrefixes pb bsuf.
Proof.
  revert pb. induction bsuf as [|y bsuf IH]; intros pb; [done|].
  cbn [revPrefixes]. rewrite !fmap_cons. cbn [levRow].
  rewrite <- levRev_cons. f_equal. apply IH.
Qed.

Lemma levStep_spec (x : N) (ra b : jsstring) :
  levStep b (S (length ra)) x (tableRow ra b) = tableRow (x :: ra) b.
Proof.
  unfold levStep, tableRow.
  change (levRev (x :: ra) []) with (S (length ra)). f_equal.
  rewrite <- (levRow_spec x ra b []).
  change (levRev (x :: ra) []) with (S (length ra)). done.
Qed.

Lemma levRows_spec (b a ra : jsstring) :
  levRows b (S (length ra)) a (tableRow ra b) = tableRow (reverse a ++ ra) b.
Proof.
  revert ra. induction a as [|x a IH]; intros ra; [done|].
  cbn [levRows]. rewrite levStep_spec.
  change (S (S (length ra))) with (S (length (x :: ra))).
  rewrite IH, reverse_cons, <- app_assoc. done.
Qed.

Lemma levRev_nil_prefixes (pb bsuf : jsstring) :
  levRev [] <$> revPrefixes pb bsuf = seq (S (length pb)) (length bsuf).
Proof.
  revert pb. induction bsuf as [|y bsuf IH]; intros pb; [done|].
  cbn [revPrefixes]. rewrite fmap_cons, IH. done.
Qed.

Lemma last_revPrefixes (pb bsuf : jsstring) (y : N) :
  last (revPrefixes pb (y :: bsuf)) = Some (reverse (y :: bsuf) ++ pb).
Proof.
  revert pb y. induction bsuf as [|z bsuf IH]; intros pb y.
  - done.
  - change (revPrefixes pb (y :: z :: bsuf))
      with ((y :: pb) :: revPrefixes (y :: pb) (z :: bsuf)).
    rewrite last_cons, IH.
    rewrite (reverse_cons (z :: bsuf) y), <- app_assoc. done.
Qed.

(** The two-row programme computes the Levenshtein distance. *)
Lemma levenshteinDistance_correct (a b : jsstring) :
  levenshteinDistance a b = levenshtein a b.
Proof.
  unfold levenshteinDistance, levenshtein.
  destruct (strEq a b) eqn:Hab.
  { apply strEq_true in Hab as ->. by rewrite levRev_refl. }
  destruct a as [|x a]; [simpl; by rewrite length_reverse|].
  destruct b as [|y b]; [simpl; by rewrite levRev_nil_r, length_reverse|].
  cbn [length Nat.eqb].
  assert (Hinit : seq 0 (S (S (length b))) = tableRow [] (y :: b)).
  { unfold tableRow. rewrite levRev_nil_prefixes. done. }
  rewrite Hinit.
  change 1 with (S (length (@nil N))).
  rewrite levRows_spec, app_nil_r.
  unfold tableRow. rewrite last_cons, fmap_last, last_revPrefixes, app_nil_r.
  done.
Qed.

Lemma levenshteinDistance_bound (a b : jsstring) :
  levenshteinDistance a b <= Nat.max (length a) (length b).
Proof.
  rewrite levenshteinDistance_correct. unfold levenshtein.
  pose proof (levRev_bound (reverse a) (reverse b)) as H.
  by rewrite !length_reverse in H.
Qed.

(** ** The distance is the least number of edits *)

Lemma editScript_deletes (a : jsstring) : editScript a [] (length a).
Proof. induction a as [|x a IH]; [constructor|]. by apply edit_delete. Qed.

Lemma editScript_inserts (b : jsstring) : editScript [] b (length b).
Proof. induction b as [|y b IH]; [constructor|]. by apply edit_insert. Qed.

Lemma levRev_script (ra rb : jsstring) : editScript ra rb (levRev ra rb).
Proof.
  revert rb. induction ra as [|x ra IH]; intros rb; [apply editScript_inserts|].
  induction rb as [|y rb IHb]; [apply (editScript_deletes (x :: ra))|].
  rewrite levRev_cons.
  destruct (Nat.min_spec (Nat.min (levRev ra (y :: rb) + 1) (levRev (x :: ra) rb + 1))
              (levRev ra rb + (if (x =? y)%N then 0 else 1))) as [[_ ->]|[_ ->]].
  - destruct (Nat.min_spec (levRev ra (y :: rb) + 1) (levRev (x :: ra) rb + 1))
      as [[_ ->]|[_ ->]]; rewrite Nat.add_1_r.
    + apply edit_delete, IH.
    + apply edit_insert, IHb.
  - destruct (N.eqb_spec x y) as [->|_].
    + rewrite Nat.add_0_r. apply edit_keep, IH.
    + rewrite Nat.add_1_r. apply edit_substitute, IH.
Qed.

Lemma levRev_delete (x : N) (ra rb : jsstring) :
  levRev (x :: ra) rb <= S (levRev ra rb).
Proof.
  destruct rb as [|y rb]; [rewrite !levRev_nil_r; simpl; lia|].
  rewrite levRev_cons. lia.
Qed.

Lemma levRev_insert (y : N) (ra rb : jsstring) :
  levRev ra (y :: rb) <= S (levRev ra rb).
Proof.
  destruct ra as [|x ra]; [simpl; lia|].
  rewrite levRev_cons. lia.
Qed.

Lemma levRev_least (ra rb : jsstring) (n : nat) :
  editScript ra rb n -> levRev ra rb <= n.
Proof.
  induction 1 as [|x a b n _ IH|x y a b n _ IH|x a b n _ IH|y a b n _ IH].
  - done.
  - rewrite levRev_cons, N.eqb_refl. lia.
  - rewrite levRev_cons. destruct (x =? y)%N; lia.
  - pose proof (levRev_delete x a b). lia.
  - pose proof (levRev_insert y a b). lia.
Qed.

(** Edit scripts read from the other end. *)
Lemma editScript_snoc_keep (a b : jsstring) (n : nat) (x : N) :
  editScript a b n -> editScript (a ++ [x]) (b ++ [x]) n.
Proof.
  induction 1; simpl; try (by constructor).
  apply edit_keep. constructor.
Qed.

Lemma editScript_snoc_substitute (a b : jsstring) (n : nat) (x y : N) :
  editScript a b n -> editScript (a ++ [x]) (b ++ [y]) (S n).
Proof.
  induction 1; simpl; try (by constructor).
  apply edit_substitute. constructor.
Qed.

Lemma editScript_snoc_delete (a b : jsstring) (n : nat) (x : N) :
  editScript a b n -> editScript (a ++ [x]) b (S n).
Proof.
  induction 1; simpl; try (by constructor).
  apply edit_delete. constructor.
Qed.

Lemma editScript_snoc_insert (a b : jsstring) (n : nat) (y : N) :
  editScript a b n -> editScript a (b ++ [y]) (S n).
Proof.
  induction 1; simpl; try (by constructor).
  apply edit_insert. constructor.
Qed.

Lemma editScript_reverse (a b : jsstring) (n : nat) :
  editScript a b n -> editScript (reverse a) (reverse b) n.
Proof.
  induction 1; rewrite ?reverse_cons.
  - constructor.
  - by apply editScript_snoc_keep.
  - by apply editScript_snoc_substitute.
  - by apply editScript_snoc_delete.
  - by apply editScript_snoc_insert.
Qed.

(** The distance computed by the programme is the least number of
    insertions, deletions and substitutions that turn [a] into [b]. *)
Lemma levenshteinDistance_least_edits (a b : jsstring) :
  editScript a b (levenshteinDistance a b)
  /\ forall n, editScript a b n -> levenshteinDistance a b <= n.
Proof.
  rewrite levenshteinDistance_correct. unfold levenshtein. split.
  - rewrite <- (reverse_involutive a) at 1. rewrite <- (reverse_involutive b) at 1.
    apply editScript_reverse, levRev_script.
  - intros n Hn. by apply levRev_least, editScript_reverse.
Qed.

End Levenshtein.

(* ===================================================================== *)
(** * The sequence matcher *)
(* ===================================================================== *)

Section Matcher.

Lemma cmpExact_iff (a b : jsstring) : cmpExact a b = true <-> exactEq a b.
Proof. apply strEq_true. Qed.

Lemma cmpTrimEnd_iff (a b : jsstring) : cmpTrimEnd a b = true <-> trimEndEq a b.
Proof. apply strEq_true. Qed.

Lemma cmpTrim_iff (a b : jsstring) : cmpTrim a b = true <-> trimEq a b.
Proof. apply strEq_true. Qed.

Lemma cmpUnicode_iff (a b : jsstring) : cmpUnicode a b = true <-> unicodeEq a b.
Proof. apply strEq_true. Qed.

Lemma matchesFrom_iff (lines : list jsstring) (compare : jsstring -> jsstring -> bool)
    (k : nat) (pattern : list jsstring) :
  matchesFrom lines compare k pattern = true
  <-> forall j p, pattern !! j = Some p -> compare (lineAt lines (k + j)) p = true.
Proof.
  revert k. induction pattern as [|q pattern IH]; intros k; simpl.
  - split; [intros _ j p H; by rewrite lookup_nil in H|done].
  - destruct (compare (lineAt lines k) q) eqn:Hc.
    + rewrite IH. split.
      * intros H [|j] p Hj; simpl in Hj.
        -- injection Hj as <-. by rewrite Nat.add_0_r.
        -- rewrite <- Nat.add_succ_comm. by apply H.
      * intros H j p Hj. rewrite Nat.add_succ_comm. by apply H.
    + split; [done|]. intros H.
      specialize (H 0 q eq_refl). rewrite Nat.add_0_r in H. congruence.
Qed.

Lemma matchesAt_iff (R : jsstring -> jsstring -> Prop)
    (compare : jsstring -> jsstring -> bool) (lines pattern : list jsstring) (i : nat) :
  (forall a b, compare a b = true <-> R a b) ->
  matchesAt lines pattern i compare = true <-> blockMatches R lines pattern i.
Proof.
  intros HR. unfold matchesAt, blockMatches. rewrite matchesFrom_iff.
  split; intros H j p Hj; apply HR; by apply H.
Qed.

Lemma firstFrom_Some (p : nat -> bool) (i n k : nat) :
  firstFrom p i n = Some k <->
  i <= k < i + n /\ p k = true /\ forall j, i <= j < k -> p j = false.
Proof.
  revert i. induction n as [|n IH]; intros i; simpl.
  - split; [done|lia].
  - destruct (p i) eqn:Hp.
    + split.
      * intros [= <-]. repeat split; [lia..|done|lia].
      * intros (Hk & Hpk & Hfirst). f_equal.
        destruct (decide (i = k)) as [|Hne]; [done|].
        rewrite Hfirst in Hp by lia. done.
    + rewrite IH. split.
      * intros (Hk & Hpk & Hfirst). repeat split; [lia..|done|].
        intros j Hj. destruct (decide (j = i)) as [->|]; [done|]. apply Hfirst. lia.
      * intros (Hk & Hpk & Hfirst).
        assert (i <> k) by congruence.
        repeat split; [lia..|done|]. intros j Hj. apply Hfirst. lia.
Qed.

Lemma firstFrom_None (p : nat -> bool) (i n : nat) :
  firstFrom p i n = None <-> forall j, i <= j < i + n -> p j = false.
Proof.
  revert i. induction n as [|n IH]; intros i; simpl.
  - split; [lia|done].
  - destruct (p i) eqn:Hp.
    + split; [done|]. intros H. rewrite H in Hp by lia. done.
    + rewrite IH. split.
      * intros H j Hj. destruct (decide (j = i)) as [->|]; [done|]. apply H. lia.
      * intros H j Hj. apply H. lia.
Qed.

Lemma bestFrom_fold (score : nat -> Q) (i n : nat) (best : option nat * Q) :
  bestFrom score i n best = fold_left (keepBest score) (seq i n) best.
Proof.
  revert i best. induction n as [|n IH]; intros i best; [done|].
  simpl. by rewrite IH.
Qed.

(** The loop keeps the first of the best positions, provided that it beats
    the initial score. *)
Lemma keepBest_fold (score : nat -> Q) (l : list nat) (b0 : option nat) (s0 : Q) :
  let r := fold_left (keepBest score) l (b0, s0) in
  (s0 <= snd r)%Q
  /\ Forall (fun j => (score j <= snd r)%Q) l
  /\ ((fst r = b0 /\ snd r = s0)
      \/ exists i, fst r = Some i /\ snd r = score i /\ (s0 < score i)%Q
                   /\ firstBest score l i).
Proof.
  revert b0 s0. induction l as [|j l IH]; intros b0 s0.
  - simpl. split; [apply Qle_refl|]. split; [constructor|by left].
  - cbn [fold_left]. cbv zeta.
    destruct (Qlt_le_dec s0 (score j)) as [Hlt|Hle] eqn:Hd.
    + replace (keepBest score (b0, s0) j) with (Some j, score j)
        by (unfold keepBest; simpl; by rewrite Hd).
      destruct (IH (Some j) (score j)) as (Hs & Hall & Hcase).
      split; [apply Qlt_le_weak; by eapply Qlt_le_trans|].
      split; [by constructor|]. right.
      destruct Hcase as [[Hb Hsc]|(i & Hb & Hsc & Hgt & pre & post & -> & Hpre & Hpost)].
      * exists j. rewrite Hb, Hsc. repeat split; [done|].
        exists [], l. repeat split; [constructor|].
        rewrite <- Hsc. done.
      * exists i. repeat split; [done..|by eapply Qlt_trans|].
        exists (j :: pre), post. repeat split; [by constructor|done].
    + replace (keepBest score (b0, s0) j) with (b0, s0)
        by (unfold keepBest; simpl; by rewrite Hd).
      destruct (IH b0 s0) as (Hs & Hall & Hcase).
      split; [done|]. split; [constructor; [by eapply Qle_trans|done]|].
      destruct Hcase as [?|(i & Hb & Hsc & Hgt & pre & post & -> & Hpre & Hpost)];
        [by left|right].
      exists i. repeat split; [done..|].
      exists (j :: pre), post. repeat split; [|done].
      constructor; [by eapply Qle_lt_trans|done].
Qed.

(** The shape of [seekSequence] for a pattern that is not empty and not
    longer than the lines. *)
Lemma seekSequence_cases (lines pattern : list jsstring) (start : nat) (eof : bool) :
  pattern <> [] ->
  length pattern <= length lines ->
  seekSequence lines pattern start eof
  = match strictPass lines pattern start eof cmpExact with
    | Some i => mkSeek (Some i) 1%Q
    | None =>
    match strictPass lines pattern start eof cmpTrimEnd with
    | Some i => mkSeek (Some i) (99 # 100)%Q
    | None =>
    match strictPass lines pattern start eof cmpTrim with
    | Some i => mkSeek (Some i) (98 # 100)%Q
    | None =>
    match strictPass lines pattern start eof cmpUnicode with
    | Some i => mkSeek (Some i) (97 # 100)%Q
    | None =>
        fuzzyOutcome
          (fold_left (keepBest (fuzzyScoreAt lines pattern))
                     (fuzzyOrder lines pattern start eof) (None, 0%Q))
    end end end end.
Proof.
  intros Hne Hlen. unfold seekSequence.
  destruct (Nat.eqb_spec (length pattern) 0) as [H0|_]; [by destruct pattern|].
  destruct (Nat.ltb_spec (length lines) (length pattern)) as [|_]; [lia|].
  rewrite (proj2 (Nat.leb_le _ _) Hlen), andb_true_r. cbv zeta.
  unfold strictPass, searchStartOf, maxStartOf, fuzzyOutcome, fuzzyOrder.
  destruct (firstFrom (fun i => matchesAt lines pattern i cmpExact) _ _); [done|].
  destruct (firstFrom (fun i => matchesAt lines pattern i cmpTrimEnd) _ _); [done|].
  destruct (firstFrom (fun i => matchesAt lines pattern i cmpTrim) _ _); [done|].
  destruct (firstFrom (fun i => matchesAt lines pattern i cmpUnicode) _ _); [done|].
  rewrite fold_left_app, <- bestFrom_fold.
  destruct (eof && _); [by rewrite <- bestFrom_fold|done].
Qed.

(** A strict pass finds the first match of its relation, or there is none. *)
Lemma strictPass_Some (R : jsstring -> jsstring -> Prop)
    (compare : jsstring -> jsstring -> bool)
    (lines pattern : list jsstring) (start : nat) (eof : bool) (i : nat) :
  (forall a b, compare a b = true <-> R a b) ->
  strictPass lines pattern start eof compare = Some i
  <-> firstMatch R lines pattern start eof i.
Proof.
  intros HR. unfold strictPass, firstMatch. rewrite firstFrom_Some.
  rewrite (matchesAt_iff R compare) by done.
  split.
  - intros (Hi & Hm & Hfirst). repeat split; [lia..|done|].
    intros j Hj Hmj. specialize (Hfirst j Hj).
    apply (matchesAt_iff R compare) in Hmj; [congruence|done].
  - intros (Hi & Hm & Hfirst). repeat split; [lia..|done|].
    intros j Hj. specialize (Hfirst j Hj).
    destruct (matchesAt lines pattern j compare) eqn:Hmj; [|done].
    apply (matchesAt_iff R compare) in Hmj; done.
Qed.

Lemma strictPass_None (R : jsstring -> jsstring -> Prop)
    (compare : jsstring -> jsstring -> bool)
    (lines pattern : list jsstring) (start : nat) (eof : bool) :
  (forall a b, compare a b = true <-> R a b) ->
  strictPass lines pattern start eof compare = None
  <-> noMatch R lines pattern start eof.
Proof.
  intros HR. unfold strictPass, noMatch. rewrite firstFrom_None.
  split.
  - intros H j Hj Hmj. specialize (H j ltac:(lia)).
    apply (matchesAt_iff R compare) in Hmj; [congruence|done].
  - intros H j Hj.
    destruct (matchesAt lines pattern j compare) eqn:Hmj; [|done].
    apply (matchesAt_iff R compare) in Hmj; [|done].
    exfalso. apply (H j); [lia|done].
Qed.

(** ** Scores *)

Lemma similarityScore_eq (a b : jsstring) : similarityScore a b = similarity a b.
Proof.
  unfold similarityScore, similarity.
  destruct a as [|x a], b as [|y b]; simpl; try done;
    by rewrite levenshteinDistance_correct.
Qed.


Lemma Qnat_pos (n : nat) : 0 < n -> (0 < Qnat n)%Q.
Proof. intros H. unfold Qnat. change 0%Q with (inject_Z 0). rewrite <- Zlt_Qlt. lia. Qed.

Lemma Qnat_S (n : nat) : (Qnat (S n) == Qnat n + 1)%Q.
Proof.
  unfold Qnat. rewrite Nat2Z.inj_succ, <- Z.add_1_r, inject_Z_plus. reflexivity.
Qed.





Lemma fuzzyTotal_sum (lines : list jsstring) (k : nat) (pattern : list jsstring)
    (acc : Q) :
  (fuzzyTotal lines k pattern acc
   == acc + foldr Qplus 0%Q
        (imap (fun j p => similarity (normalizeLineForFuzzy (lineAt lines (k + j)))
                                     (normalizeLineForFuzzy p)) pattern))%Q.
Proof.
  revert k acc. induction pattern as [|p pattern IH]; intros k acc.
  - simpl. lra.
  - cbn [fuzzyTotal imap foldr]. rewrite IH, similarityScore_eq, Nat.add_0_r.
    rewrite (imap_ext
               ((fun j q => similarity
                   (normalizeLineForFuzzy (lineAt lines (k + j)))
                   (normalizeLineForFuzzy q)) ∘ S)
               (fun j q => similarity
                   (normalizeLineForFuzzy (lineAt lines (S k + j)))
                   (normalizeLineForFuzzy q))).
    2:{ intros j q _. simpl. by rewrite Nat.add_succ_r. }
    lra.
Qed.

(** The score of a position is the mean similarity of its lines. *)
Lemma fuzzyScoreAt_mean (lines pattern : list jsstring) (i : nat) :
  (fuzzyScoreAt lines pattern i == meanSimilarity lines pattern i)%Q.
Proof.
  unfold fuzzyScoreAt, meanSimilarity. rewrite fuzzyTotal_sum.
  apply Qdiv_comp; [lra|reflexivity].
Qed.

Lemma firstBest_unique (score : nat -> Q) (l : list nat) (i i' : nat) :
  firstBest score l i -> firstBest score l i' -> i = i'.
Proof.
  intros (pre & post & -> & Hpre & Hpost) (pre' & post' & Heq & Hpre' & Hpost').
  revert pre' Heq Hpre'. induction pre as [|x pre IH]; intros pre' Heq Hpre'.
  - destruct pre' as [|x' pre']; simpl in Heq; [congruence|].
    injection Heq as <- ->. apply Forall_cons in Hpre' as [Hlt _].
    apply Forall_app in Hpost as [_ Hle]. apply Forall_cons in Hle as [Hle _].
    by apply Qlt_not_le in Hlt.
  - destruct pre' as [|x' pre']; simpl in Heq.
    + injection Heq as -> <-. apply Forall_cons in Hpre as [Hlt _].
      apply Forall_app in Hpost' as [_ Hle]. apply Forall_cons in Hle as [Hle _].
      by apply Qlt_not_le in Hlt.
    + injection Heq as <- Heq. apply Forall_cons in Hpre as [_ Hpre].
      apply Forall_cons in Hpre' as [_ Hpre']. by apply (IH Hpre pre').
Qed.

Lemma firstBest_elem (score : nat -> Q) (l : list nat) (i : nat) :
  firstBest score l i -> i ∈ l /\ Forall (fun j => (score j <= score i)%Q) l.
Proof.
  intros (pre & post & -> & Hpre & Hpost). split.
  - apply elem_of_app. right. by left.
  - apply Forall_app. split.
    + eapply Forall_impl; [exact Hpre|]. intros j. apply Qlt_le_weak.
    + constructor; [apply Qle_refl|done].
Qed.

Lemma threshold_pos : (0 < FUZZY_THRESHOLD)%Q.
Proof. reflexivity. Qed.

(** The fuzzy pass: what [fuzzyOutcome] returns for the fold over the
    positions it visits. *)
Lemma fuzzy_pass_spec (score : nat -> Q) (order : list nat) :
  let r := fuzzyOutcome (fold_left (keepBest score) order (None, 0%Q)) in
  (forall i, index r = Some i <->
             firstBest score order i /\ (FUZZY_THRESHOLD <= score i)%Q)
  /\ (forall i, index r = Some i -> confidence r = score i)
  /\ (index r = None ->
      (confidence r < FUZZY_THRESHOLD)%Q
      /\ Forall (fun j => (score j <= confidence r)%Q) order
      /\ ((confidence r == 0)%Q
          \/ exists j, j ∈ order /\ confidence r = score j))
  /\ (0 <= confidence r)%Q.
Proof.
  destruct (keepBest_fold score order None 0%Q) as (Hs & Hall & Hcase).
  unfold fuzzyOutcome. cbv zeta.
  destruct (fold_left (keepBest score) order (None, 0%Q)) as [b sc].
  simpl in *.
  destruct Hcase as [[-> ->]|(i0 & -> & -> & Hgt & Hbest)]; simpl.
  - split; [|split; [done|split; [|apply Qle_refl]]].
    + intros i. split; [done|]. intros [Hb Hthr]. exfalso.
      apply firstBest_elem in Hb as [Hin _].
      eapply Forall_forall in Hall; [|exact Hin].
      pose proof threshold_pos. lra.
    + intros _. split; [apply threshold_pos|]. split; [done|by left].
  - destruct (Qle_bool FUZZY_THRESHOLD (score i0)) eqn:Hthr; simpl.
    + apply Qle_bool_iff in Hthr.
      split; [|split; [by intros i [= <-]|split; [done|by apply Qlt_le_weak]]].
      intros i. split.
      * by intros [= <-].
      * intros [Hb _]. f_equal. by eapply firstBest_unique.
    + assert (Hlt : (score i0 < FUZZY_THRESHOLD)%Q).
      { apply Qnot_le_lt. intros H. apply Qle_bool_iff in H. congruence. }
      split; [|split; [done|split; [|by apply Qlt_le_weak]]].
      * intros i. split; [done|]. intros [Hb Hge]. exfalso.
        assert (i = i0) as -> by (by eapply firstBest_unique). lra.
      * intros _. split; [done|]. split; [done|]. right. exists i0.
        by apply firstBest_elem in Hbest as [? _].
Qed.

(** Every position looked at leaves room for the whole pattern. *)
Lemma candidates_in_range (lines pattern : list jsstring) (start : nat) (eof : bool)
    (j : nat) :
  length pattern <= length lines ->
  j ∈ fuzzyOrder lines pattern start eof ->
  j + length pattern <= length lines
  /\ (eof = false -> start <= j).
Proof.
  intros Hlen. unfold fuzzyOrder, searchStartOf, maxStartOf.
  rewrite elem_of_app, elem_of_seq.
  destruct eof; simpl.
  - destruct (Nat.ltb_spec start (length lines - length pattern)).
    + rewrite elem_of_seq. intros [?|?]; split; (lia || done).
    + rewrite elem_of_nil. intros [?|[]]. split; (lia || done).
  - rewrite elem_of_nil. intros [?|[]]. split; [lia|]. intros _. lia.
Qed.

(** A returned index leaves room for the whole pattern, and is not before
    [start] when the end-of-file flag is not set. *)
Lemma seekSequence_index_range (lines pattern : list jsstring) (start : nat)
    (eof : bool) (i : nat) :
  pattern <> [] ->
  index (seekSequence lines pattern start eof) = Some i ->
  i + length pattern <= length lines /\ (eof = false -> start <= i).
Proof.
  intros Hne Hi.
  destruct (Nat.ltb_spec (length lines) (length pattern)) as [Hlt|Hlen].
  { unfold seekSequence in Hi.
    destruct (Nat.eqb_spec (length pattern) 0) as [H0|_]; [by destruct pattern|].
    by rewrite (proj2 (Nat.ltb_lt _ _) Hlt) in Hi. }
  rewrite seekSequence_cases in Hi by done.
  assert (Hstrict : forall compare k,
            strictPass lines pattern start eof compare = Some k ->
            k + length pattern <= length lines /\ (eof = false -> start <= k)).
  { intros compare k Hk. unfold strictPass in Hk.
    apply firstFrom_Some in Hk as (Hk & _ & _).
    unfold searchStartOf, maxStartOf in Hk. clear Hi.
    destruct eof; split; (lia || done). }
  destruct (strictPass lines pattern start eof cmpExact) eqn:H1;
    [injection Hi as ->; by eapply Hstrict|].
  destruct (strictPass lines pattern start eof cmpTrimEnd) eqn:H2;
    [injection Hi as ->; by eapply Hstrict|].
  destruct (strictPass lines pattern start eof cmpTrim) eqn:H3;
    [injection Hi as ->; by eapply Hstrict|].
  destruct (strictPass lines pattern start eof cmpUnicode) eqn:H4;
    [injection Hi as ->; by eapply Hstrict|].
  apply (fuzzy_pass_spec (fuzzyScoreAt lines pattern)) in Hi as [Hb _].
  apply firstBest_elem in Hb as [Hin _].
  by eapply candidates_in_range.
Qed.

Lemma similarityScore_same (a : jsstring) : (similarityScore a a == 1)%Q.
Proof.
  unfold similarityScore.
  destruct (_ && _); [reflexivity|].
  destruct (_ =? _); [reflexivity|].
  unfold levenshteinDistance. rewrite strEq_refl.
  change (Qnat 0) with 0%Q. unfold Qdiv. rewrite Qmult_0_l. lra.
Qed.

Lemma fuzzyTotal_exact (lines : list jsstring) (k : nat) (pattern : list jsstring)
    (acc : Q) :
  (forall j p, pattern !! j = Some p -> lineAt lines (k + j) = p) ->
  (fuzzyTotal lines k pattern acc == acc + Qnat (length pattern))%Q.
Proof.
  revert k acc. induction pattern as [|p pattern IH]; intros k acc H.
  - cbn [fuzzyTotal]. change (Qnat (length [])) with 0%Q. lra.
  - cbn [fuzzyTotal length]. rewrite IH.
    + rewrite <- (H 0 p eq_refl), Nat.add_0_r, similarityScore_same, Qnat_S. lra.
    + intros j q Hj. replace (S k + j) with (k + S j) by lia. by apply H.
Qed.

(** A position where the pattern stands verbatim has the score 1. *)
Lemma fuzzyScoreAt_exact (lines pattern : list jsstring) (i : nat) :
  pattern <> [] ->
  blockMatches exactEq lines pattern i ->
  (fuzzyScoreAt lines pattern i == 1)%Q.
Proof.
  intros Hne Hm. unfold fuzzyScoreAt. rewrite fuzzyTotal_exact by exact Hm.
  assert (Hpos : (0 < Qnat (length pattern))%Q).
  { apply Qnat_pos. destruct pattern; [done|simpl; lia]. }
  rewrite Qplus_0_l. unfold Qdiv. apply Qmult_inv_r. intros H. rewrite H in Hpos.
  by apply Qlt_irrefl in Hpos.
Qed.

End Matcher.

(* ===================================================================== *)
(** * The order of the doubles *)
(* ===================================================================== *)

Section DoubleOrder.

Import Ieee.

Lemma double_lt_key (x y : spec_float) :
  lt x y = true <-> keyLt (orderKey x) (orderKey y).
Proof.
  unfold lt, SFltb, SFcompare, keyLt, orderKey.
  destruct x as [[]|[]| |[] m e], y as [[]|[]| |[] m' e']; simpl;
    try (split; [discriminate|lia]); try (split; [done|lia]);
    try (split; [lia|done]); try (split; [done|done]).
  all: change (Pos.compare_cont Eq ?a ?b) with (Pos.compare a b).
  all: destruct (Z.compare_spec e e'); destruct (Pos.compare_spec m m'); simpl;
    split; intros; try discriminate; try done; lia.
Qed.

Lemma double_le_key (x y : spec_float) :
  le x y = true
  <-> keyLt (orderKey x) (orderKey y)
      \/ (isNumber x /\ orderKey x = orderKey y).
Proof.
  unfold le, SFleb, SFcompare, keyLt, orderKey, isNumber.
  destruct x as [[]|[]| |[] m e], y as [[]|[]| |[] m' e']; simpl;
    try (split; [discriminate|intros [?|[? ?]]; (done || lia)]);
    try (split; [intros _; (by right) || (left; lia)|done]).
  all: change (Pos.compare_cont Eq ?a ?b) with (Pos.compare a b).
  all: destruct (Z.compare_spec e e'); destruct (Pos.compare_spec m m'); simpl;
    split; intros Hk; try discriminate; try done;
    try (destruct Hk as [?|[? [= ? ?]]]; lia);
    try (left; lia); try (right; split; [done|]; subst; reflexivity).
Qed.

End DoubleOrder.

Section DoubleLaws.

Import Ieee.

Lemma keyLt_number (a b : option (Z * Z * Z)) : keyLt a b -> a <> None /\ b <> None.
Proof. destruct a as [[[??]?]|], b as [[[??]?]|]; simpl; done. Qed.

Lemma double_lt_number (x y : spec_float) : lt x y = true -> isNumber x /\ isNumber y.
Proof. rewrite double_lt_key. apply keyLt_number. Qed.

Lemma double_le_number (x y : spec_float) : le x y = true -> isNumber x /\ isNumber y.
Proof.
  rewrite double_le_key. intros [H|[H E]]; [by apply keyLt_number|].
  split; [done|]. unfold isNumber. by rewrite <- E.
Qed.

Lemma keyLt_trans (a b c : option (Z * Z * Z)) : keyLt a b -> keyLt b c -> keyLt a c.
Proof.
  destruct a as [[[??]?]|], b as [[[??]?]|], c as [[[??]?]|]; simpl; try done. lia.
Qed.

Lemma keyLt_irrefl (a : option (Z * Z * Z)) : ~ keyLt a a.
Proof. destruct a as [[[??]?]|]; simpl; lia. Qed.

Lemma keyLt_total (a b : option (Z * Z * Z)) :
  a <> None -> b <> None -> keyLt a b \/ a = b \/ keyLt b a.
Proof.
  destruct a as [[[c1 e1] m1]|], b as [[[c2 e2] m2]|]; simpl; try done. intros _ _.
  destruct (Z.lt_trichotomy c1 c2) as [?|[->|?]]; [lia| |lia].
  destruct (Z.lt_trichotomy e1 e2) as [?|[->|?]]; [lia| |lia].
  destruct (Z.lt_trichotomy m1 m2) as [?|[->|?]]; [lia| |lia].
  right; by left.
Qed.

Lemma double_lt_le (x y : spec_float) : lt x y = true -> le x y = true.
Proof. rewrite double_lt_key, double_le_key. by left. Qed.

Lemma double_lt_not_le (x y : spec_float) : lt x y = true -> le y x = false.
Proof.
  rewrite double_lt_key. intros H. apply not_true_is_false. rewrite double_le_key.
  intros [H'|[_ E]].
  - by eapply keyLt_irrefl, keyLt_trans.
  - rewrite E in H. by eapply keyLt_irrefl.
Qed.

Lemma double_le_not_lt (x y : spec_float) : le x y = true -> lt y x = false.
Proof.
  intros H. apply not_true_is_false. intros H'%double_lt_not_le. congruence.
Qed.

Lemma double_not_lt_le (x y : spec_float) :
  isNumber x -> isNumber y -> lt x y = false -> le y x = true.
Proof.
  intros Hx Hy H. apply double_le_key.
  destruct (keyLt_total (orderKey x) (orderKey y) Hx Hy) as [Hlt|[E|Hgt]].
  - apply double_lt_key in Hlt. congruence.
  - right. by split.
  - by left.
Qed.

Lemma double_lt_le_trans (x y z : spec_float) :
  lt x y = true -> le y z = true -> lt x z = true.
Proof.
  rewrite !double_lt_key, double_le_key. intros H [H'|[_ E]].
  - by eapply keyLt_trans.
  - by rewrite <- E.
Qed.

Lemma double_le_lt_trans (x y z : spec_float) :
  le x y = true -> lt y z = true -> lt x z = true.
Proof.
  rewrite !double_lt_key, double_le_key. intros [H|[_ E]] H'.
  - by eapply keyLt_trans.
  - by rewrite E.
Qed.

Lemma double_lt_trans (x y z : spec_float) :
  lt x y = true -> lt y z = true -> lt x z = true.
Proof. intros H H'. eapply double_lt_le_trans; [exact H|by apply double_lt_le]. Qed.

Lemma double_le_trans (x y z : spec_float) :
  le x y = true -> le y z = true -> le x z = true.
Proof.
  rewrite !double_le_key. intros [H|[Hx E]] [H'|[Hy E']].
  - left. by eapply keyLt_trans.
  - left. by rewrite <- E'.
  - left. by rewrite E.
  - right. split; [done|congruence].
Qed.

Lemma double_le_refl (x : spec_float) : isNumber x -> le x x = true.
Proof. intros H. apply double_le_key. right. by split. Qed.

Lemma double_lt_irrefl (x : spec_float) : lt x x = false.
Proof. apply not_true_is_false. rewrite double_lt_key. apply keyLt_irrefl. Qed.

End DoubleLaws.

(* ===================================================================== *)
(** * Exact operations on doubles *)
(* ===================================================================== *)

Section DoubleArithmetic.

Import Ieee.

Local Open Scope Z_scope.

Lemma iter_pos_iter {A : Type} (f : A -> A) (p : positive) (x : A) :
  SpecFloat.iter_pos f p x = Pos.iter f x p.
Proof.
  revert x. induction p as [p IH|p IH|]; intros x; simpl; [|by rewrite !IH|done].
  by rewrite !IH, !Pos.iter_swap.
Qed.

Lemma shift_value (n : Z) (v : positive) :
  0 <= n -> Z.pos (shift n v) = Z.pos v * 2 ^ n.
Proof. intros Hn. by rewrite shift_equiv, Z.shiftl_mul_pow2. Qed.

Lemma digits_bounds (v : positive) :
  2 ^ (Z.pos (digits2_pos v) - 1) <= Z.pos v < 2 ^ Z.pos (digits2_pos v).
Proof.
  induction v as [v IH|v IH|]; simpl digits2_pos; [| |simpl; lia].
  all: rewrite Pos2Z.inj_succ.
  all: replace (Z.succ (Z.pos (digits2_pos v)) - 1)
         with (Z.succ (Z.pos (digits2_pos v) - 1)) by lia.
  all: rewrite !Z.pow_succ_r by lia; lia.
Qed.

Lemma digits_unique (v : positive) (d : Z) :
  2 ^ (d - 1) <= Z.pos v < 2 ^ d -> Z.pos (digits2_pos v) = d.
Proof.
  intros [Hl Hu]. destruct (digits_bounds v) as [Hl' Hu'].
  set (d' := Z.pos (digits2_pos v)) in *.
  assert (Hd : 0 < d).
  { destruct (Z.lt_ge_cases 0 d) as [|Hle]; [done|].
    assert (2 ^ d <= 2 ^ 0) by (destruct (Z.eq_dec d 0) as [->|];
      [lia|rewrite Z.pow_neg_r by lia; simpl; lia]).
    simpl in *. lia. }
  destruct (Z.lt_trichotomy d' d) as [Hlt|[->|Hgt]]; [|done|].
  - assert (2 ^ d' <= 2 ^ (d - 1)) by (apply Z.pow_le_mono_r; lia). lia.
  - assert (2 ^ d <= 2 ^ (d' - 1)) by (apply Z.pow_le_mono_r; lia). lia.
Qed.

Lemma digits_shift (n : Z) (v : positive) :
  0 <= n -> Z.pos (digits2_pos (shift n v)) = Z.pos (digits2_pos v) + n.
Proof.
  intros Hn. apply digits_unique. rewrite shift_value by done.
  destruct (digits_bounds v) as [Hl Hu].
  replace (Z.pos (digits2_pos v) + n - 1) with (Z.pos (digits2_pos v) - 1 + n) by lia.
  rewrite !Z.pow_add_r by lia.
  assert (0 < 2 ^ n) by (apply Z.pow_pos_nonneg; lia). nia.
Qed.

(** Shifting out bits that are zero leaves no rounding information. *)
Lemma shr_exact (p : positive) (x : positive) :
  SpecFloat.iter_pos shr_1 p (Build_shr_record (Z.pos (Pos.iter xO x p)) false false)
  = Build_shr_record (Z.pos x) false false.
Proof.
  rewrite iter_pos_iter. induction p as [|p IH] using Pos.peano_ind; [done|].
  rewrite (Pos.iter_succ_r p _ shr_1), (Pos.iter_succ p _ xO). exact IH.
Qed.

Lemma shr_shift (s : Z) (x : positive) (e : Z) :
  0 <= s ->
  shr (Build_shr_record (Z.pos (shift s x)) false false) (e - s) s
  = (Build_shr_record (Z.pos x) false false, e).
Proof.
  intros Hs. destruct s as [|p|p]; [| |lia].
  - simpl. f_equal. lia.
  - simpl shift. unfold shr. rewrite shr_exact. f_equal. lia.
Qed.

(** A mantissa of 53 bits, shifted to the left, is rounded to itself. *)
Lemma binary_round_aux_exact (x : positive) (e s : Z) :
  Z.pos (digits2_pos x) = 53 -> -1074 <= e <= 971 -> 0 <= s ->
  binary_round_aux prec emax false (Z.pos (shift s x)) (e - s) loc_Exact
  = S754_finite false x e.
Proof.
  intros Hd He Hs. unfold binary_round_aux, shr_fexp.
  cbn [Zdigits2 shr_record_of_loc]. rewrite digits_shift, Hd by done.
  assert (Hf : fexp prec emax (53 + e) = e).
  { unfold fexp, SpecFloat.emin, prec, emax. lia. }
  replace (53 + s + (e - s)) with (53 + e) by lia. rewrite Hf.
  replace (e - (e - s)) with s by lia. rewrite shr_shift by done.
  cbn [shr_m loc_of_shr_record round_nearest_even Zdigits2 shr_record_of_loc].
  rewrite Hd, Hf, Z.sub_diag. cbn [shr shr_m].
  unfold prec, emax. by rewrite (proj2 (Z.leb_le e (1024 - 53))) by lia.
Qed.

(** The integer [v * 2^n], given with the exponent [-n], is rounded to the
    double that holds [v]. *)
Lemma binary_round_exact (m v : positive) (n : Z) :
  0 <= n -> Z.pos m = Z.pos v * 2 ^ n -> Z.pos v < 2 ^ 53 ->
  binary_round prec emax false m (- n) = exactDouble v.
Proof.
  intros Hn Hm Hv. unfold binary_round, exactDouble.
  destruct (digits_bounds v) as [Hl Hu].
  set (d := Z.pos (digits2_pos v)) in *.
  assert (Hd : 1 <= d <= 53).
  { split; [lia|]. destruct (Z.le_gt_cases d 53) as [|Hgt]; [done|].
    assert (2 ^ 53 <= 2 ^ (d - 1)) by (apply Z.pow_le_mono_r; lia). lia. }
  assert (Hdm : Z.pos (digits2_pos m) = d + n).
  { apply digits_unique. rewrite Hm.
    replace (d + n - 1) with (d - 1 + n) by lia. rewrite !Z.pow_add_r by lia.
    assert (0 < 2 ^ n) by (apply Z.pow_pos_nonneg; lia). nia. }
  rewrite Hdm. replace (d + n + - n) with d by lia.
  assert (Hf : fexp prec emax d = d - 53).
  { unfold fexp, SpecFloat.emin, prec, emax. lia. }
  rewrite Hf. set (x := shift (53 - d) v).
  assert (Hx : Z.pos x = Z.pos v * 2 ^ (53 - d)) by (apply shift_value; lia).
  assert (Hdx : Z.pos (digits2_pos x) = 53).
  { unfold x. rewrite digits_shift by lia. fold d. lia. }
  unfold shl_align. destruct (d - 53 - - n) as [|t|t] eqn:Ht.
  - replace m with (shift 0 x).
    2:{ apply Pos2Z.inj. change (shift 0 x) with x. rewrite Hx, Hm.
        f_equal. f_equal. lia. }
    replace (- n) with (d - 53 - 0) by lia.
    apply binary_round_aux_exact; [done|lia|lia].
  - replace m with (shift (Z.pos t) x).
    2:{ apply Pos2Z.inj. rewrite shift_value, Hx, Hm by lia.
        rewrite <- Z.mul_assoc, <- Z.pow_add_r by lia. f_equal. f_equal. lia. }
    replace (- n) with (d - 53 - Z.pos t) by lia.
    apply binary_round_aux_exact; [done|lia|lia].
  - replace (Pos.iter xO m t) with (shift 0 x).
    2:{ apply Pos2Z.inj. change (Pos.iter xO m t) with (shift (Z.pos t) m).
        rewrite (shift_value (Z.pos t) m) by lia. change (shift 0 x) with x.
        rewrite Hx, Hm.
        rewrite <- Z.mul_assoc, <- Z.pow_add_r by lia. f_equal. f_equal. lia. }
    replace (d - 53) with (d - 53 - 0) at 1 by lia.
    apply binary_round_aux_exact; [done|lia|lia].
Qed.

Lemma ofNat_exact (k : nat) :
  (0 < k)%nat -> Z.of_nat k < 2 ^ 53 -> ofNat k = exactDouble (Pos.of_nat k).
Proof.
  intros Hk Hb. unfold ofNat, binary_normalize.
  destruct (Z.of_nat k) as [|p|p] eqn:Hz; [lia| |lia].
  assert (Pos.of_nat k = p) as -> by lia.
  apply (binary_round_exact p p 0); [lia|lia|lia].
Qed.

(** Adding 1 to an integer below [2^53 - 1] is exact. *)
Lemma add_exactDouble_one (v : positive) :
  Z.pos v + 1 < 2 ^ 53 -> add (exactDouble v) one = exactDouble (v + 1).
Proof.
  intros Hv. unfold add, SFadd, exactDouble, one.
  destruct (digits_bounds v) as [Hl Hu].
  set (d := Z.pos (digits2_pos v)) in *.
  assert (Hd : 1 <= d <= 53).
  { split; [lia|]. destruct (Z.le_gt_cases d 53) as [|Hgt]; [done|].
    assert (2 ^ 53 <= 2 ^ (d - 1)) by (apply Z.pow_le_mono_r; lia). lia. }
  rewrite Z.min_r by lia.
  set (x := shift (53 - d) v).
  assert (Hx : Z.pos x = Z.pos v * 2 ^ (53 - d)) by (apply shift_value; lia).
  assert (Ha : Z.pos (shl_align x (d - 53) (-52)).1 = Z.pos v * 2 ^ 52).
  { unfold shl_align. destruct (-52 - (d - 53)) as [|t|t] eqn:Ht; cbn [fst].
    - rewrite Hx. f_equal. f_equal. lia.
    - lia.
    - change (Pos.iter xO x t) with (shift (Z.pos t) x).
      rewrite shift_value, Hx by lia.
      rewrite <- Z.mul_assoc, <- Z.pow_add_r by lia. f_equal. f_equal. lia. }
  cbn [cond_Zopp]. change (shl_align 4503599627370496 (-52) (-52)).1
    with 4503599627370496%positive.
  destruct (Z.pos (shl_align x (d - 53) (-52)).1 + 4503599627370496) as [|m|m] eqn:Hm;
    [lia| |lia].
  unfold binary_normalize.
  apply (binary_round_exact m (v + 1) 52); [lia| |lia].
  rewrite <- Hm, Ha. change (2 ^ 52) with 4503599627370496. lia.
Qed.

Lemma div_eucl_exact (a b : Z) : 0 < b -> Z.div_eucl (b * a) b = (a, 0).
Proof.
  intros Hb. pose proof (Z.div_eucl_eq (b * a) b ltac:(lia)) as He.
  pose proof (Z.mod_pos_bound (b * a) b Hb) as Hr.
  unfold Z.modulo in Hr. destruct (Z.div_eucl (b * a) b) as [q r].
  assert (q = a) by nia. subst q. f_equal. lia.
Qed.

(** An integer below [2^53] divided by itself is 1. *)
Lemma div_exactDouble_self (v : positive) :
  Z.pos v < 2 ^ 53 -> div (exactDouble v) (exactDouble v) = one.
Proof.
  intros Hv. unfold div, SFdiv, exactDouble.
  set (x := shift _ v). set (e := _ - 53).
  unfold SFdiv_core_binary. rewrite !Z.sub_diag.
  change (fexp prec emax 0) with (-53). change (Z.min (-53) 0) with (-53).
  change (0 - -53) with 53. cbv iota beta.
  rewrite Z.shiftl_mul_pow2 by lia. rewrite (Z.mul_comm (Z.pos x)).
  rewrite Z.mul_comm, div_eucl_exact by lia.
  assert (Hloc : new_location (Z.pos x) 0 = loc_Exact).
  { unfold new_location, new_location_even, new_location_odd.
    by destruct (Z.even (Z.pos x)). }
  rewrite Hloc. vm_compute. reflexivity.
Qed.

(** ** Numbers above zero *)

Lemma shr_1_half (r : shr_record) : 0 <= shr_m r -> shr_m (shr_1 r) = shr_m r / 2.
Proof.
  destruct r as [m r s]. simpl. intros Hm.
  destruct m as [|[p|p|]|p]; simpl; try done; try lia.
  - apply (Z.div_unique_pos _ _ _ 1); lia.
  - apply (Z.div_unique_pos _ _ _ 0); lia.
Qed.

Lemma shr_iter_div (p : positive) (r : shr_record) :
  0 <= shr_m r -> shr_m (SpecFloat.iter_pos shr_1 p r) = shr_m r / 2 ^ Z.pos p.
Proof.
  intros Hm. rewrite iter_pos_iter.
  assert (H : 0 <= shr_m (Pos.iter shr_1 r p)
              /\ shr_m (Pos.iter shr_1 r p) = shr_m r / 2 ^ Z.pos p); [|by destruct H].
  induction p as [|p [IH0 IH]] using Pos.peano_ind.
  - simpl Pos.iter. rewrite shr_1_half by done. split; [|done].
    apply Z.div_pos; lia.
  - rewrite Pos.iter_succ, shr_1_half, IH by done.
    rewrite Pos2Z.inj_succ, Z.pow_succ_r by lia.
    assert (0 < 2 ^ Z.pos p) by (apply Z.pow_pos_nonneg; lia).
    rewrite Z.div_div by lia. rewrite (Z.mul_comm 2). split; [|done].
    apply Z.div_pos; lia.
Qed.

Lemma shr_fexp_positive (m e : Z) (l : location) :
  0 < m -> SpecFloat.emin prec emax <= e ->
  0 < shr_m (shr_fexp prec emax m e l).1
  /\ SpecFloat.emin prec emax <= (shr_fexp prec emax m e l).2.
Proof.
  intros Hm He. unfold shr_fexp, shr.
  assert (Hrec : shr_m (shr_record_of_loc m l) = m) by (by destruct l as [|[]]).
  destruct m as [|v|v]; [lia| |lia]. cbn [Zdigits2].
  destruct (digits_bounds v) as [Hl Hu].
  set (d := Z.pos (digits2_pos v)) in *.
  destruct (fexp prec emax (d + e) - e) as [|p|p] eqn:Hs; cbn [fst snd];
    rewrite ?Hrec; [done| |done].
  rewrite shr_iter_div, Hrec by (rewrite Hrec; lia).
  assert (Hp : Z.pos p <= d - 1).
  { revert Hs He. unfold fexp, SpecFloat.emin, prec, emax. lia. }
  split; [|lia].
  assert (2 ^ Z.pos p <= 2 ^ (d - 1)) by (apply Z.pow_le_mono_r; lia).
  assert (0 < 2 ^ Z.pos p) by (apply Z.pow_pos_nonneg; lia).
  assert (1 <= Z.pos v / 2 ^ Z.pos p); [|lia].
  apply Z.div_le_lower_bound; lia.
Qed.

Lemma round_nearest_even_positive (m : Z) (l : location) :
  0 < m -> 0 < round_nearest_even m l.
Proof.
  intros Hm. destruct l as [|[]]; simpl; try lia. destruct (Z.even m); lia.
Qed.

Lemma binary_round_aux_positive (m : positive) (e : Z) (l : location) :
  SpecFloat.emin prec emax <= e ->
  isPositive (binary_round_aux prec emax false (Z.pos m) e l).
Proof.
  intros He. unfold binary_round_aux.
  destruct (shr_fexp_positive (Z.pos m) e l ltac:(lia) He) as [H1 H1'].
  destruct (shr_fexp prec emax (Z.pos m) e l) as [mrs' e']. cbn [fst snd] in *.
  set (m1 := round_nearest_even _ _).
  assert (Hm1 : 0 < m1) by (by apply round_nearest_even_positive).
  destruct (shr_fexp_positive m1 e' loc_Exact Hm1 H1') as [H2 _].
  destruct (shr_fexp prec emax m1 e' loc_Exact) as [mrs'' e'']. cbn [fst] in *.
  destruct (shr_m mrs'') as [|q|q]; [lia| |lia].
  by destruct (e'' <=? emax - prec).
Qed.

(** A length that is not zero is a number above zero. *)
Lemma ofNat_positive (n : nat) : isPositive (ofNat (S n)).
Proof.
  unfold ofNat, binary_normalize.
  change (Z.of_nat (S n)) with (Z.pos (Pos.of_succ_nat n)). cbv iota beta.
  unfold binary_round, shl_align.
  match goal with
  | |- context [fexp prec emax ?a] =>
      assert (Ht : SpecFloat.emin prec emax <= fexp prec emax a)
        by (unfold fexp; lia);
      revert Ht; generalize (fexp prec emax a)
  end.
  intros t Ht. destruct (t - 0) as [|p|p]; apply binary_round_aux_positive;
    (done || (unfold SpecFloat.emin, prec, emax; lia)).
Qed.

End DoubleArithmetic.

(* ===================================================================== *)
(** * The fuzzy pass on doubles *)
(* ===================================================================== *)

Section DoubleMatcher.

Import Ieee.

Lemma double_bestFrom_fold (score : nat -> spec_float) (i n : nat)
    (best : option nat * spec_float) :
  bestFrom score i n best = fold_left (keepBest score) (seq i n) best.
Proof.
  revert i best. induction n as [|n IH]; intros i best; [done|].
  simpl. by rewrite IH.
Qed.

(** The loop keeps its initial state when no score beats the initial
    score, and otherwise the first of the best positions. *)
Lemma double_keepBest_fold (score : nat -> spec_float) (l : list nat)
    (b0 : option nat) (s0 : spec_float) :
  let r := fold_left (keepBest score) l (b0, s0) in
  (fst r = b0 /\ snd r = s0 /\ Forall (fun j => lt s0 (score j) = false) l)
  \/ exists i, fst r = Some i /\ snd r = score i /\ lt s0 (score i) = true
               /\ firstBest score l i.
Proof.
  revert b0 s0. induction l as [|j l IH]; intros b0 s0.
  - left. by repeat split.
  - cbn [fold_left]. cbv zeta.
    destruct (lt s0 (score j)) eqn:Hj.
    + replace (keepBest score (b0, s0) j) with (Some j, score j)
        by (unfold keepBest; simpl; by rewrite Hj).
      right.
      destruct (IH (Some j) (score j))
        as [(Hb & Hs & Hall)|(i & Hb & Hs & Hgt & pre & post & -> & Hpre & Hpost)].
      * exists j. rewrite Hb, Hs. repeat split; [done|].
        exists [], l. by repeat split.
      * exists i. repeat split; [done..|by eapply double_lt_trans|].
        exists (j :: pre), post. repeat split; [|done].
        constructor; [by apply double_lt_not_le|done].
    + replace (keepBest score (b0, s0) j) with (b0, s0)
        by (unfold keepBest; simpl; by rewrite Hj).
      destruct (IH b0 s0)
        as [(Hb & Hs & Hall)|(i & Hb & Hs & Hgt & pre & post & -> & Hpre & Hpost)].
      * left. repeat split; [done..|]. by constructor.
      * right. exists i. repeat split; [done..|].
        exists (j :: pre), post. repeat split; [|done].
        constructor; [|done]. apply not_true_is_false. intros Hle.
        rewrite (double_lt_le_trans _ _ _ Hgt Hle) in Hj. done.
Qed.

Lemma double_firstBest_elem (score : nat -> spec_float) (l : list nat) (i : nat) :
  firstBest score l i ->
  i ∈ l /\ Forall (fun j => lt (score i) (score j) = false) l.
Proof.
  intros (pre & post & -> & Hpre & Hpost). split.
  - apply elem_of_app. right. by left.
  - apply Forall_app. split.
    + eapply Forall_impl; [exact Hpre|]. intros j Hj. simpl in Hj.
      apply not_true_is_false. intros H%double_lt_le. congruence.
    + constructor; [apply double_lt_irrefl|done].
Qed.

(** Two best positions whose scores are numbers are one position. *)
Lemma double_firstBest_unique (score : nat -> spec_float) (l : list nat) (i i' : nat) :
  isNumber (score i) -> isNumber (score i') ->
  firstBest score l i -> firstBest score l i' -> i = i'.
Proof.
  intros Hn Hn' (pre & post & -> & Hpre & Hpost) (pre' & post' & Heq & Hpre' & Hpost').
  revert pre' Heq Hpre'. induction pre as [|x pre IH]; intros pre' Heq Hpre'.
  - destruct pre' as [|x' pre']; simpl in Heq; [congruence|].
    injection Heq as <- ->. apply Forall_cons in Hpre' as [Hle _].
    apply Forall_app in Hpost as [_ Hlt]. apply Forall_cons in Hlt as [Hlt _].
    rewrite (double_not_lt_le _ _ Hn Hn' Hlt) in Hle. done.
  - destruct pre' as [|x' pre']; simpl in Heq.
    + injection Heq as -> <-. apply Forall_cons in Hpre as [Hle _].
      apply Forall_app in Hpost' as [_ Hlt]. apply Forall_cons in Hlt as [Hlt _].
      rewrite (double_not_lt_le _ _ Hn' Hn Hlt) in Hle. done.
    + injection Heq as <- Heq. apply Forall_cons in Hpre as [_ Hpre].
      apply Forall_cons in Hpre' as [_ Hpre']. by apply (IH Hpre pre').
Qed.

Lemma double_threshold_pos : lt zero FUZZY_THRESHOLD = true.
Proof. reflexivity. Qed.

(** The fuzzy pass: what [fuzzyOutcome] returns for the fold over the
    positions it visits. *)
Lemma double_fuzzy_pass_spec (score : nat -> spec_float) (order : list nat) :
  let r := fuzzyOutcome (fold_left (keepBest score) order (None, zero)) in
  (forall i, index r = Some i <->
             firstBest score order i /\ le FUZZY_THRESHOLD (score i) = true)
  /\ (forall i, index r = Some i -> confidence r = score i)
  /\ (index r = None ->
      le FUZZY_THRESHOLD (confidence r) = false
      /\ Forall (fun j => le FUZZY_THRESHOLD (score j) = false) order
      /\ Forall (fun j => lt (confidence r) (score j) = false) order
      /\ (confidence r = zero \/ exists j, j ∈ order /\ confidence r = score j)).
Proof.
  pose proof (double_keepBest_fold score order None zero) as Hcase.
  unfold fuzzyOutcome. cbv zeta in *.
  destruct (fold_left (keepBest score) order (None, zero)) as [b sc].
  simpl in *.
  destruct Hcase as [(-> & -> & Hall)|(i0 & -> & -> & Hgt & Hbest)]; simpl.
  - assert (Hlow : Forall (fun j => le FUZZY_THRESHOLD (score j) = false) order).
    { eapply Forall_impl; [exact Hall|]. intros j Hj. simpl in Hj.
      apply not_true_is_false. intros Hle.
      rewrite (double_lt_le_trans _ _ _ double_threshold_pos Hle) in Hj. done. }
    split; [|split; [done|]].
    + intros i. split; [done|]. intros [Hb Hthr]. exfalso.
      apply double_firstBest_elem in Hb as [Hin _].
      eapply Forall_forall in Hlow; [|exact Hin]. simpl in Hlow. congruence.
    + intros _. split; [done|]. split; [done|]. split; [done|by left].
  - destruct (le FUZZY_THRESHOLD (score i0)) eqn:Hthr; simpl.
    + split; [|split; [by intros i [= <-]|done]].
      intros i. split.
      * by intros [= <-].
      * intros [Hb Hi]. f_equal. symmetry.
        eapply double_firstBest_unique; [| |exact Hb|exact Hbest].
        -- by apply double_le_number in Hi as [_ ?].
        -- by apply double_lt_number in Hgt as [_ ?].
    + pose proof (double_firstBest_elem _ _ _ Hbest) as [Hin Hmax].
      assert (Hlow : Forall (fun j => le FUZZY_THRESHOLD (score j) = false) order).
      { eapply Forall_impl; [exact Hmax|]. intros j Hj. simpl in Hj.
        apply not_true_is_false. intros Hle.
        assert (Hji : le (score j) (score i0) = true).
        { apply double_not_lt_le; [|by apply double_le_number in Hle as [_ ?]|done].
          by apply double_lt_number in Hgt as [_ ?]. }
        rewrite (double_le_trans _ _ _ Hle Hji) in Hthr. done. }
      split; [|split; [done|]].
      * intros i. split; [done|]. intros [Hb Hi]. exfalso.
        apply double_firstBest_elem in Hb as [Hini _].
        eapply Forall_forall in Hlow; [|exact Hini]. simpl in Hlow. congruence.
      * intros _. split; [done|]. split; [done|]. split; [done|].
        right. by exists i0.
Qed.

(** The shape of [seekSequence] for a pattern that is not empty and not
    longer than the lines. *)
Lemma double_seekSequence_cases (lines pattern : list jsstring) (start : nat)
    (eof : bool) :
  pattern <> [] ->
  length pattern <= length lines ->
  seekSequence lines pattern start eof
  = match strictPass lines pattern start eof cmpExact with
    | Some i => mkSeek (Some i) one
    | None =>
    match strictPass lines pattern start eof cmpTrimEnd with
    | Some i => mkSeek (Some i) c99
    | None =>
    match strictPass lines pattern start eof cmpTrim with
    | Some i => mkSeek (Some i) c98
    | None =>
    match strictPass lines pattern start eof cmpUnicode with
    | Some i => mkSeek (Some i) c97
    | None =>
        fuzzyOutcome
          (fold_left (keepBest (fuzzyScoreAt lines pattern))
                     (fuzzyOrder lines pattern start eof) (None, zero))
    end end end end.
Proof.
  intros Hne Hlen. unfold seekSequence.
  destruct (Nat.eqb_spec (length pattern) 0) as [H0|_]; [by destruct pattern|].
  destruct (Nat.ltb_spec (length lines) (length pattern)) as [|_]; [lia|].
  rewrite (proj2 (Nat.leb_le _ _) Hlen), andb_true_r. cbv zeta.
  unfold strictPass, searchStartOf, maxStartOf, fuzzyOutcome, fuzzyOrder.
  destruct (firstFrom (fun i => matchesAt lines pattern i cmpExact) _ _); [done|].
  destruct (firstFrom (fun i => matchesAt lines pattern i cmpTrimEnd) _ _); [done|].
  destruct (firstFrom (fun i => matchesAt lines pattern i cmpTrim) _ _); [done|].
  destruct (firstFrom (fun i => matchesAt lines pattern i cmpUnicode) _ _); [done|].
  rewrite fold_left_app, <- double_bestFrom_fold.
  destruct (eof && _); [by rewrite <- double_bestFrom_fold|done].
Qed.

Lemma double_similarityScore_eq (a b : jsstring) :
  similarityScore a b = roundedSimilarity a b.
Proof.
  unfold similarityScore, roundedSimilarity.
  destruct a as [|x a], b as [|y b]; simpl; try done;
    by rewrite levenshteinDistance_correct.
Qed.

Lemma double_fuzzyTotal_fold (lines : list jsstring) (k : nat)
    (pattern : list jsstring) (acc : spec_float) :
  fuzzyTotal lines k pattern acc
  = fold_left add
      (imap (fun j p =>
               roundedSimilarity (normalizeLineForFuzzy (lineAt lines (k + j)))
                                 (normalizeLineForFuzzy p)) pattern)
      acc.
Proof.
  revert k acc. induction pattern as [|p pattern IH]; intros k acc; [done|].
  cbn [fuzzyTotal imap fold_left]. rewrite IH, double_similarityScore_eq, Nat.add_0_r.
  f_equal. apply imap_ext. intros j q _. simpl. by rewrite Nat.add_succ_r.
Qed.

Lemma double_fuzzyScoreAt_mean (lines pattern : list jsstring) (i : nat) :
  fuzzyScoreAt lines pattern i = roundedMeanSimilarity lines pattern i.
Proof. unfold fuzzyScoreAt, roundedMeanSimilarity. by rewrite double_fuzzyTotal_fold. Qed.

End DoubleMatcher.

(* ===================================================================== *)
(** * Scores of blocks that match *)
(* ===================================================================== *)

Section DoubleScores.

Import Ieee.

Lemma double_similarityScore_same (a : jsstring) : similarityScore a a = one.
Proof.
  unfold similarityScore.
  destruct (_ && _); [done|]. rewrite Nat.max_id.
  destruct (length a) as [|n] eqn:Hn; [done|]. simpl Nat.eqb. cbv iota.
  unfold levenshteinDistance. rewrite strEq_refl.
  pose proof (ofNat_positive n) as Hp.
  destruct (ofNat (S n)) as [| [] | | [] m e]; try done.
Qed.

Lemma double_add_one (a : nat) :
  (Z.of_nat (S a) < 2 ^ 53)%Z -> add (ofNat a) one = ofNat (S a).
Proof.
  intros Ha. destruct a as [|a]; [done|].
  rewrite !ofNat_exact by lia. rewrite add_exactDouble_one by lia.
  f_equal. lia.
Qed.

Lemma double_fuzzyTotal_same (lines : list jsstring) (k : nat)
    (pattern : list jsstring) (a : nat) :
  (forall j p, pattern !! j = Some p ->
     normalizeLineForFuzzy (lineAt lines (k + j)) = normalizeLineForFuzzy p) ->
  (Z.of_nat (a + length pattern) < 2 ^ 53)%Z ->
  fuzzyTotal lines k pattern (ofNat a) = ofNat (a + length pattern).
Proof.
  revert k a. induction pattern as [|p pattern IH]; intros k a H Hb.
  - cbn [fuzzyTotal length]. by rewrite Nat.add_0_r.
  - cbn [fuzzyTotal length] in *.
    rewrite <- (H 0 p eq_refl), Nat.add_0_r, double_similarityScore_same.
    rewrite double_add_one by lia. rewrite IH.
    + f_equal. lia.
    + intros j q Hj. replace (S k + j) with (k + S j) by lia. by apply H.
    + lia.
Qed.

(** A block whose lines equal those of the pattern after normalisation has
    the score 1. *)
Lemma double_fuzzyScoreAt_same (lines pattern : list jsstring) (i : nat) :
  pattern <> [] ->
  (Z.of_nat (length pattern) < 2 ^ 53)%Z ->
  (forall j p, pattern !! j = Some p ->
     normalizeLineForFuzzy (lineAt lines (i + j)) = normalizeLineForFuzzy p) ->
  fuzzyScoreAt lines pattern i = one.
Proof.
  intros Hne Hb H. unfold fuzzyScoreAt.
  change zero with (ofNat 0). rewrite double_fuzzyTotal_same by done.
  cbn [Nat.add].
  assert (0 < length pattern) by (destruct pattern; [done|simpl; lia]).
  rewrite ofNat_exact by done.
  apply div_exactDouble_self. lia.
Qed.

Lemma normalizeUnicodeChar_table (c : N) :
  normalizeUnicodeChar c
  = if bool_decide (c ∈ dashCodes) then 45%N
    else if bool_decide (c ∈ singleQuoteCodes) then 39%N
    else if bool_decide (c ∈ doubleQuoteCodes) then 34%N
    else if bool_decide (c ∈ spaceCodes) then 32%N
    else c.
Proof.
  unfold normalizeUnicodeChar, dashCodes, singleQuoteCodes, doubleQuoteCodes,
    spaceCodes.
  repeat match goal with
  | |- context [(c =? ?k)%N] =>
      destruct (N.eqb_spec c k) as [->|?]; [vm_compute; reflexivity|]
  end.
  cbn [orb].
  repeat (rewrite bool_decide_eq_false_2;
          [|rewrite !elem_of_cons, elem_of_nil; intros H; repeat destruct H as [H|H]; done]).
  done.
Qed.

End DoubleScores.


(** C2. For a pattern that is not empty and not longer than the haystack,
    [seekSequence] returns the result of the first strategy that succeeds,
    in the order: equality of the lines (confidence 1), equality of the lines
    without trailing whitespace (0.99), without leading and trailing
    whitespace (0.98), after the normalisation of Unicode punctuation (0.97),
    each at the first position where it holds; and when none of them holds
    anywhere, the fuzzy pass.  The fuzzy pass scores every position in
    doubles: the similarity of each line to the line of the pattern, both
    normalised, is 1 minus the quotient of their Levenshtein distance by the
    longer length; the similarities are added from the first line on and the
    total is divided by the number of lines, every operation rounded to the
    nearest double.  The pass returns the first of the positions whose score
    no other position exceeds, with that score as the confidence, exactly
    when that score is at least the double 0.92, and no index otherwise.  The
    distance of the program is the Levenshtein distance: the least number of
    insertions, deletions and substitutions of one character that turn one
    line into the other.  The normalisation of Unicode punctuation trims the
    line and maps the dashes, quotation marks and spaces of its table to
    their ASCII characters; the normalisation of the fuzzy pass trims the
    line, maps quotation marks and dashes, and collapses runs of spaces and
    tabs. *)
Theorem C2_seekSequence_cascade
    (lines pattern : list jsstring) (start : nat) (eof : bool) :
  pattern <> [] ->
  length pattern <= length lines ->
  let r := Ieee.seekSequence lines pattern start eof in
  let score := Ieee.fuzzyScoreAt lines pattern in
  let order := fuzzyOrder lines pattern start eof in
  (forall i, firstMatch exactEq lines pattern start eof i ->
             r = Ieee.mkSeek (Some i) Ieee.one)
  /\ (noMatch exactEq lines pattern start eof ->
      forall i, firstMatch trimEndEq lines pattern start eof i ->
                r = Ieee.mkSeek (Some i) Ieee.c99)
  /\ (noMatch exactEq lines pattern start eof ->
      noMatch trimEndEq lines pattern start eof ->
      forall i, firstMatch trimEq lines pattern start eof i ->
                r = Ieee.mkSeek (Some i) Ieee.c98)
  /\ (noMatch exactEq lines pattern start eof ->
      noMatch trimEndEq lines pattern start eof ->
      noMatch trimEq lines pattern start eof ->
      forall i, firstMatch unicodeEq lines pattern start eof i ->
                r = Ieee.mkSeek (Some i) Ieee.c97)
  /\ (noMatch exactEq lines pattern start eof ->
      noMatch trimEndEq lines pattern start eof ->
      noMatch trimEq lines pattern start eof ->
      noMatch unicodeEq lines pattern start eof ->
      (forall i, Ieee.index r = Some i <->
                 Ieee.firstBest score order i
                 /\ Ieee.le Ieee.FUZZY_THRESHOLD (score i) = true)
      /\ (forall i, Ieee.index r = Some i -> Ieee.confidence r = score i)
      /\ (Ieee.index r = None ->
          Forall (fun j => Ieee.le Ieee.FUZZY_THRESHOLD (score j) = false) order))
  /\ (forall i, score i = roundedMeanSimilarity lines pattern i)
  /\ (forall a b, levenshteinDistance a b = levenshtein a b
                   /\ editScript a b (levenshteinDistance a b)
                   /\ forall n, editScript a b n -> levenshteinDistance a b <= n)
  /\ (Ieee.one = Ieee.ofNat 1
      /\ Ieee.c99 = Ieee.div (Ieee.ofNat 99) (Ieee.ofNat 100)
      /\ Ieee.c98 = Ieee.div (Ieee.ofNat 98) (Ieee.ofNat 100)
      /\ Ieee.c97 = Ieee.div (Ieee.ofNat 97) (Ieee.ofNat 100)
      /\ Ieee.FUZZY_THRESHOLD = Ieee.div (Ieee.ofNat 92) (Ieee.ofNat 100))
  /\ (forall s,
        normalizeUnicode s
        = (fun c => if bool_decide (c ∈ dashCodes) then 45%N
                    else if bool_decide (c ∈ singleQuoteCodes) then 39%N
                    else if bool_decide (c ∈ doubleQuoteCodes) then 34%N
                    else if bool_decide (c ∈ spaceCodes) then 32%N
                    else c) <$> trim s)
  /\ (normalizeUnicode (32 :: 0x2018 :: 97 :: 0x2014 :: 0x201c :: 0x3000 :: 98 :: [9])%N
      = [39; 97; 45; 34; 32; 98]%N
      /\ normalizeLineForFuzzy (js "   ") = []
      /\ normalizeLineForFuzzy (js "  a   b" ++ 9%N :: js " c  ") = js "a b c"
      /\ normalizeLineForFuzzy [0x201e; 97; 0xbb; 32; 0x2013; 32; 32; 96; 98; 0xb4]%N
         = [34; 97; 34; 32; 45; 32; 39; 98; 39]%N).
Proof.
  intros Hne Hlen r score order. subst r.
  rewrite double_seekSequence_cases by done.
  pose proof (fun i => proj2 (strictPass_Some exactEq cmpExact
                lines pattern start eof i cmpExact_iff)) as S1.
  pose proof (fun i => proj2 (strictPass_Some trimEndEq cmpTrimEnd
                lines pattern start eof i cmpTrimEnd_iff)) as S2.
  pose proof (fun i => proj2 (strictPass_Some trimEq cmpTrim
                lines pattern start eof i cmpTrim_iff)) as S3.
  pose proof (fun i => proj2 (strictPass_Some unicodeEq cmpUnicode
                lines pattern start eof i cmpUnicode_iff)) as S4.
  pose proof (proj2 (strictPass_None exactEq cmpExact
                lines pattern start eof cmpExact_iff)) as N1.
  pose proof (proj2 (strictPass_None trimEndEq cmpTrimEnd
                lines pattern start eof cmpTrimEnd_iff)) as N2.
  pose proof (proj2 (strictPass_None trimEq cmpTrim
                lines pattern start eof cmpTrim_iff)) as N3.
  pose proof (proj2 (strictPass_None unicodeEq cmpUnicode
                lines pattern start eof cmpUnicode_iff)) as N4.
  split; [|split; [|split; [|split; [|split; [|split; [|split; [|split; [|split]]]]]]]].
  - intros i Hi. by rewrite (S1 i Hi).
  - intros H1 i Hi. by rewrite (N1 H1), (S2 i Hi).
  - intros H1 H2 i Hi. by rewrite (N1 H1), (N2 H2), (S3 i Hi).
  - intros H1 H2 H3 i Hi. by rewrite (N1 H1), (N2 H2), (N3 H3), (S4 i Hi).
  - intros H1 H2 H3 H4. rewrite (N1 H1), (N2 H2), (N3 H3), (N4 H4).
    destruct (double_fuzzy_pass_spec score order) as (Hsome & Hconf & Hnone).
    split; [exact Hsome|]. split; [exact Hconf|].
    intros Hn. by destruct (Hnone Hn) as (_ & Hall & _).
  - apply double_fuzzyScoreAt_mean.
  - intros a b. split; [apply levenshteinDistance_correct|].
    apply levenshteinDistance_least_edits.
  - vm_compute. by repeat split.
  - intros s. unfold normalizeUnicode. apply list_fmap_ext.
    intros _ c _. apply normalizeUnicodeChar_table.
  - vm_compute. by repeat split.
Qed.


(** C5, as stated, fails: with the end-of-file flag, a position before the
    end can be returned although the end position itself qualifies.  The
    last line scores 0.9615 against the pattern, which is above 0.92, yet the
    verbatim first line is returned. *)
Lemma C5_counterexample :
  ~ (forall (lines pattern : list jsstring) (start : nat),
       pattern <> [] ->
       length pattern <= length lines ->
       Ieee.le Ieee.FUZZY_THRESHOLD
         (Ieee.fuzzyScoreAt lines pattern (length lines - length pattern)) = true ->
       Ieee.index (Ieee.seekSequence lines pattern start true)
       = Some (length lines - length pattern)).
Proof.
  intros H.
  specialize (H [js "abcdefghijklmnopqrstuvwxyZ"; js "abcdefghijklmnopqrstuvwxyz"]
                [js "abcdefghijklmnopqrstuvwxyZ"] 0).
  assert (Hidx : Some 0 = Some 1); [|discriminate Hidx].
  apply H.
  - discriminate.
  - simpl. lia.
  - vm_compute. reflexivity.
Qed.

Section EndOfFile.

Lemma strictPass_eof (lines pattern : list jsstring) (start : nat)
    (compare : jsstring -> jsstring -> bool) :
  strictPass lines pattern start true compare
  = if matchesAt lines pattern (maxStartOf lines pattern) compare
    then Some (maxStartOf lines pattern) else None.
Proof.
  unfold strictPass, searchStartOf.
  replace (S (maxStartOf lines pattern) - maxStartOf lines pattern) with 1 by lia.
  done.
Qed.

Lemma fuzzyOrder_eof (lines pattern : list jsstring) (start : nat) :
  fuzzyOrder lines pattern start true
  = maxStartOf lines pattern
    :: seq start (maxStartOf lines pattern - start).
Proof.
  unfold fuzzyOrder, searchStartOf.
  replace (S (maxStartOf lines pattern) - maxStartOf lines pattern) with 1 by lia.
  simpl. destruct (Nat.ltb_spec start (maxStartOf lines pattern)) as [|Hge]; [done|].
  by replace (maxStartOf lines pattern - start) with 0 by lia.
Qed.

Lemma matchesAt_true (R : jsstring -> jsstring -> Prop)
    (compare : jsstring -> jsstring -> bool) (lines pattern : list jsstring) (i : nat) :
  (forall a b, compare a b = true <-> R a b) ->
  blockMatches R lines pattern i -> matchesAt lines pattern i compare = true.
Proof. intros HR. by apply matchesAt_iff. Qed.

Lemma matchesAt_false (R : jsstring -> jsstring -> Prop)
    (compare : jsstring -> jsstring -> bool) (lines pattern : list jsstring) (i : nat) :
  (forall a b, compare a b = true <-> R a b) ->
  ~ blockMatches R lines pattern i -> matchesAt lines pattern i compare = false.
Proof.
  intros HR Hn. destruct (matchesAt lines pattern i compare) eqn:Hm; [|done].
  by apply (matchesAt_iff R compare) in Hm.
Qed.

End EndOfFile.

(** C5, amended. With the end-of-file flag set, the four strict passes look
    at the single position [haystackLength - patternLength]; when none of
    them matches there, the fuzzy pass scores that position and then every
    position from the start index up to it, and returns the first of the
    positions whose score, a double, no other position exceeds, the end
    position first, when that score is at least 0.92.  So a pattern (of fewer
    than [2^53] lines) that stands verbatim at an earlier position, at or
    after the start index, always yields a defined index. *)
Theorem C5_end_of_file_search
    (lines pattern : list jsstring) (start : nat) :
  pattern <> [] ->
  length pattern <= length lines ->
  let endPos := length lines - length pattern in
  let r := Ieee.seekSequence lines pattern start true in
  let score := Ieee.fuzzyScoreAt lines pattern in
  (blockMatches exactEq lines pattern endPos ->
   r = Ieee.mkSeek (Some endPos) Ieee.one)
  /\ (~ blockMatches exactEq lines pattern endPos ->
      blockMatches trimEndEq lines pattern endPos ->
      r = Ieee.mkSeek (Some endPos) Ieee.c99)
  /\ (~ blockMatches exactEq lines pattern endPos ->
      ~ blockMatches trimEndEq lines pattern endPos ->
      blockMatches trimEq lines pattern endPos ->
      r = Ieee.mkSeek (Some endPos) Ieee.c98)
  /\ (~ blockMatches exactEq lines pattern endPos ->
      ~ blockMatches trimEndEq lines pattern endPos ->
      ~ blockMatches trimEq lines pattern endPos ->
      blockMatches unicodeEq lines pattern endPos ->
      r = Ieee.mkSeek (Some endPos) Ieee.c97)
  /\ (~ blockMatches exactEq lines pattern endPos ->
      ~ blockMatches trimEndEq lines pattern endPos ->
      ~ blockMatches trimEq lines pattern endPos ->
      ~ blockMatches unicodeEq lines pattern endPos ->
      (forall i, Ieee.index r = Some i <->
                 Ieee.firstBest score (endPos :: seq start (endPos - start)) i
                 /\ Ieee.le Ieee.FUZZY_THRESHOLD (score i) = true)
      /\ (forall i, Ieee.index r = Some i -> Ieee.confidence r = score i))
  /\ (forall p, start <= p < endPos ->
                blockMatches exactEq lines pattern p ->
                (Z.of_nat (length pattern) < 2 ^ 53)%Z ->
                exists k, Ieee.index r = Some k
                          /\ Ieee.le Ieee.c97 (Ieee.confidence r) = true).
Proof.
  intros Hne Hlen endPos r score. subst r.
  rewrite double_seekSequence_cases by done.
  rewrite !strictPass_eof, fuzzyOrder_eof.
  change (maxStartOf lines pattern) with endPos.
  pose proof (matchesAt_true exactEq cmpExact lines pattern endPos cmpExact_iff) as T1.
  pose proof (matchesAt_true trimEndEq cmpTrimEnd lines pattern endPos cmpTrimEnd_iff) as T2.
  pose proof (matchesAt_true trimEq cmpTrim lines pattern endPos cmpTrim_iff) as T3.
  pose proof (matchesAt_true unicodeEq cmpUnicode lines pattern endPos cmpUnicode_iff) as T4.
  pose proof (matchesAt_false exactEq cmpExact lines pattern endPos cmpExact_iff) as F1.
  pose proof (matchesAt_false trimEndEq cmpTrimEnd lines pattern endPos cmpTrimEnd_iff) as F2.
  pose proof (matchesAt_false trimEq cmpTrim lines pattern endPos cmpTrim_iff) as F3.
  pose proof (matchesAt_false unicodeEq cmpUnicode lines pattern endPos cmpUnicode_iff) as F4.
  split; [|split; [|split; [|split; [|split]]]].
  - intros H1. by rewrite T1.
  - intros H1 H2. by rewrite F1, T2.
  - intros H1 H2 H3. by rewrite F1, F2, T3.
  - intros H1 H2 H3 H4. by rewrite F1, F2, F3, T4.
  - intros H1 H2 H3 H4. rewrite F1, F2, F3, F4 by done.
    destruct (double_fuzzy_pass_spec score (endPos :: seq start (endPos - start)))
      as (Hsome & Hconf & _).
    by split.
  - intros p Hp Hexact Hsmall.
    destruct (matchesAt lines pattern endPos cmpExact);
      [eexists; split; [reflexivity|reflexivity]|].
    destruct (matchesAt lines pattern endPos cmpTrimEnd);
      [eexists; split; [reflexivity|reflexivity]|].
    destruct (matchesAt lines pattern endPos cmpTrim);
      [eexists; split; [reflexivity|reflexivity]|].
    destruct (matchesAt lines pattern endPos cmpUnicode);
      [eexists; split; [reflexivity|reflexivity]|].
    destruct (double_fuzzy_pass_spec score (endPos :: seq start (endPos - start)))
      as (Hsome & Hconf & Hnone).
    assert (Hone : score p = Ieee.one).
    { apply double_fuzzyScoreAt_same; [done..|].
      intros j q Hj. by rewrite (Hexact j q Hj). }
    assert (Hin : p ∈ endPos :: seq start (endPos - start)).
    { apply elem_of_cons. right. apply elem_of_seq. lia. }
    set (r := Ieee.fuzzyOutcome _) in *.
    destruct (Ieee.index r) as [k|] eqn:Hk.
    + exists k. split; [done|]. rewrite (Hconf k eq_refl).
      destruct (proj1 (Hsome k) eq_refl) as [Hb Hthr].
      apply double_firstBest_elem in Hb as [_ Hall].
      eapply Forall_forall in Hall; [|exact Hin]. simpl in Hall.
      rewrite Hone in Hall.
      apply (double_le_trans _ Ieee.one); [reflexivity|].
      apply double_not_lt_le; [|done|done].
      by apply double_le_number in Hthr as [_ ?].
    + exfalso. destruct (Hnone eq_refl) as (_ & Hall & _).
      eapply Forall_forall in Hall; [|exact Hin]. simpl in Hall.
      rewrite Hone in Hall. discriminate Hall.
Qed.

(** C7. For a chunk that declares a scope context line, the line is sought
    with [seekSequence] from the current cursor.  When it is not found, the
    chunk, and with it the whole application, fails with an
    [ApplyPatchError].  When it is found at [idx], which is at or after the
    cursor and within the file, the chunk's old lines are resolved from the
    cursor [idx + 1], or from [idx] itself when the first old line equals the
    scope line up to surrounding whitespace. *)
Theorem C7_scope_context_moves_cursor
    (originalLines : list jsstring) (path : jsstring) (lineIndex : nat)
    (chunk : UpdateChunk) (ctx : jsstring) :
  changeContext chunk = Some ctx ->
  match index (seekSequence originalLines [ctx] lineIndex false) with
  | None =>
      resolveChunk originalLines path lineIndex chunk
      = Err (ApplyPatchError (FailedToFindContext ctx path))
      /\ forall replacements chunks,
           resolveChunks originalLines path lineIndex replacements (chunk :: chunks)
           = Err (ApplyPatchError (FailedToFindContext ctx path))
  | Some idx =>
      let cursor := if scopeIsFirstOldLine chunk ctx then idx else idx + 1 in
      lineIndex <= idx < length originalLines
      /\ locateContext originalLines path lineIndex chunk = Ok cursor
      /\ resolveChunk originalLines path lineIndex chunk
         = resolveOldLines originalLines path cursor chunk
  end.
Proof.
  intros Hctx.
  destruct (index (seekSequence originalLines [ctx] lineIndex false))
    as [idx|] eqn:Hidx.
  - assert (Hloc : locateContext originalLines path lineIndex chunk
                   = Ok (if scopeIsFirstOldLine chunk ctx then idx else idx + 1)).
    { unfold locateContext, scopeIsFirstOldLine. rewrite Hctx, Hidx.
      destruct (oldLines chunk) as [|o old]; [done|]. simpl.
      unfold strEq. by destruct (bool_decide _). }
    apply seekSequence_index_range in Hidx as [Hr Hs]; [|done].
    simpl in Hr. split; [split; [by apply Hs|lia]|].
    split; [done|]. unfold resolveChunk. by rewrite Hloc.
  - assert (Hres : resolveChunk originalLines path lineIndex chunk
                   = Err (ApplyPatchError (FailedToFindContext ctx path))).
    { unfold resolveChunk, locateContext. by rewrite Hctx, Hidx. }
    split; [done|]. intros replacements chunks. cbn [resolveChunks]. by rewrite Hres.
Qed.

(* ===================================================================== *)
(** * The hashline engine on the scenarios of the test suite *)
(* ===================================================================== *)

Section Scenarios.

Lemma splitLines_nonempty (s : jsstring) : splitLines s <> [].
Proof.
  induction s as [|c s IH]; simpl; [done|].
  destruct (c =? 10)%N; [done|]. by destruct (splitLines s).
Qed.

(** Joining the lines of a text gives the text back. *)
Lemma joinLines_splitLines (s : jsstring) : joinLines (splitLines s) = s.
Proof.
  induction s as [|c s IH]; [done|]. simpl.
  destruct (N.eqb_spec c 10) as [->|Hc].
  - pose proof (splitLines_nonempty s) as Hne.
    destruct (splitLines s) as [|l ls]; [done|].
    change (joinLines ([] :: l :: ls)) with ([] ++ 10%N :: joinLines (l :: ls)).
    by rewrite IH.
  - destruct (splitLines s) as [|l ls] eqn:Hs; [by apply splitLines_nonempty in Hs|].
    destruct ls as [|l' ls'].
    + simpl in *. by rewrite IH.
    + change (joinLines ((c :: l) :: l' :: ls'))
        with (c :: (l ++ 10%N :: joinLines (l' :: ls'))).
      change (joinLines (l :: l' :: ls'))
        with (l ++ 10%N :: joinLines (l' :: ls')) in IH.
      by rewrite IH.
Qed.

(** An empty batch leaves the content as it is, with no first changed
    line. *)
Lemma applyHashlineEdits_empty_batch
    (computeLineHash : nat -> jsstring -> jsstring) (content : jsstring) :
  applyHashlineEdits computeLineHash content [] = Ok (mkApplied content None).
Proof.
  unfold applyHashlineEdits. simpl. by rewrite joinLines_splitLines.
Qed.

(** The tag of a line of the content, as the formatter would print it. *)
Local Abbreviation tagOf l c := (mkTag l (sampleLineHash l (js c))).
Local Abbreviation run content edits :=
  (applyHashlineEdits sampleLineHash (text content) edits).

Example replaces_single_line :
  run ["aaa"; "bbb"; "ccc"] [ReplaceLine (tagOf 2 "bbb") [js "BBB"]]
  = Ok (mkApplied (text ["aaa"; "BBB"; "ccc"]) (Some 2)).
Proof. vm_compute. reflexivity. Qed.

Example range_replace_shrinks :
  run ["aaa"; "bbb"; "ccc"; "ddd"]
      [ReplaceRange (tagOf 2 "bbb") (tagOf 3 "ccc") [js "ONE"]]
  = Ok (mkApplied (text ["aaa"; "ONE"; "ddd"]) (Some 2)).
Proof. vm_compute. reflexivity. Qed.

Example deletes_last_line :
  run ["aaa"; "bbb"; "ccc"] [ReplaceLine (tagOf 3 "ccc") []]
  = Ok (mkApplied (text ["aaa"; "bbb"]) (Some 3)).
Proof. vm_compute. reflexivity. Qed.

Example inserts_at_end_of_file_without_anchor :
  run ["aaa"; "bbb"] [Append None [js "NEW"]]
  = Ok (mkApplied (text ["aaa"; "bbb"; "NEW"]) (Some 3)).
Proof. vm_compute. reflexivity. Qed.

Example inserts_into_empty_file :
  run [""] [Append None [js "NEW"]] = Ok (mkApplied (js "NEW") (Some 1)).
Proof. vm_compute. reflexivity. Qed.

Example insert_before_and_after_one_line :
  run ["aaa"; "bbb"; "ccc"]
      [Prepend (Some (tagOf 2 "bbb")) [js "BEFORE"];
       Append (Some (tagOf 2 "bbb")) [js "AFTER"]]
  = Ok (mkApplied (text ["aaa"; "BEFORE"; "bbb"; "AFTER"; "ccc"]) (Some 2)).
Proof. vm_compute. reflexivity. Qed.

Example insert_before_with_replace_of_the_line :
  run ["aaa"; "bbb"; "ccc"]
      [Prepend (Some (tagOf 2 "bbb")) [js "BEFORE"];
       ReplaceLine (tagOf 2 "bbb") [js "BBB"]]
  = Ok (mkApplied (text ["aaa"; "BEFORE"; "BBB"; "ccc"]) (Some 2)).
Proof. vm_compute. reflexivity. Qed.

Example insert_between_non_adjacent_anchors :
  run ["aaa"; "bbb"; "ccc"]
      [Insert (tagOf 1 "aaa") (tagOf 3 "ccc") [js "NEW"]]
  = Ok (mkApplied (text ["aaa"; "bbb"; "NEW"; "ccc"]) (Some 3)).
Proof. vm_compute. reflexivity. Qed.

Example edits_against_original_numbering :
  run ["one"; "two"; "three"; "four"; "five"; "six"]
      [ReplaceRange (tagOf 2 "two") (tagOf 3 "three") [js "TWO_THREE"];
       ReplaceLine (tagOf 6 "six") [js "SIX"]]
  = Ok (mkApplied (text ["one"; "TWO_THREE"; "four"; "five"; "SIX"]) (Some 2)).
Proof. vm_compute. reflexivity. Qed.

Example rejects_out_of_range_line :
  run ["aaa"; "bbb"] [ReplaceLine (mkTag 10 (js "000000")) [js "X"]]
  = Err (RangeFailure (LineOutOfBounds 10 2)).
Proof. vm_compute. reflexivity. Qed.

Example rejects_reversed_anchors :
  run ["aaa"; "bbb"; "ccc"]
      [Insert (tagOf 3 "ccc") (tagOf 1 "aaa") [js "NEW"]]
  = Err (RangeFailure (InvertedPair 3 1)).
Proof. vm_compute. reflexivity. Qed.

Example rejects_insert_without_content :
  run ["aaa"; "bbb"] [Append (Some (tagOf 1 "aaa")) []] = Err EmptyInsertContent.
Proof. vm_compute. reflexivity. Qed.

(** The mismatch failure of the test "compacts mixed contiguous and
    non-contiguous lines". *)
Example mixed_mismatches_compact_to_three_ranges :
  exists e,
    run ["line1"; "line2"; "line3"; "line4"; "line5"; "line6"; "line7"]
        [ReplaceLine (mkTag 2 (js "000000")) [js "NEW2"];
         ReplaceLine (mkTag 3 (js "000000")) [js "NEW3"];
         ReplaceLine (mkTag 5 (js "000000")) [js "NEW5"];
         ReplaceLine (mkTag 7 (js "000000")) [js "NEW7"]]
    = Err (MismatchFailure e)
    /\ mLine <$> mismatches e = [2; 3; 5; 7]
    /\ affectedRanges e = [mkRange 2 3; mkRange 5 5; mkRange 7 7]
    /\ remaps e !! js "3#000000"
       = Some (formatTagKey 3 (sampleLineHash 3 (js "line3"))).
Proof. eexists. split; [vm_compute; reflexivity|]. vm_compute. done. Qed.

(** Scenario 4 of the specification: a hunk whose block has drifted by
    leading whitespace is still applied, through the pass that ignores
    leading and trailing whitespace. *)
Example hunk_with_drifted_indentation :
  seekSequence [js "head"; js "    unchanged"; js "    old"] [js "unchanged"; js "old"]
               0 false
  = mkSeek (Some 1) (98 # 100)%Q
  /\ forall normalizeToLF adjust fuzzyFind,
       applyDiffToContent normalizeToLF adjust fuzzyFind
         (text ["head"; "    unchanged"; "    old"; ""]) (js "f")
         [mkChunk None true [js "unchanged"; js "old"] [js "unchanged"; js "new"] false]
       = Ok (text ["head"; "unchanged"; "new"; ""]).
Proof. split; [vm_compute; reflexivity|]. intros. vm_compute. reflexivity. Qed.

End Scenarios.

(* ===================================================================== *)
(** * Runs on concrete inputs *)
(* ===================================================================== *)

(** C1 on a batch that refers three times to the stale tag of line 2 and
    once to the stale tag of line 4: two failing tags, two mismatches. *)
Lemma C1_witness :
  let fLines := splitLines sampleContent in
  let fails := failsHashValidation sampleLineHash fLines in
  exists e,
    applyHashlineEdits sampleLineHash sampleContent repeatedEdits
    = Err (MismatchFailure e)
    /\ length (mismatches e) = 2
    /\ NoDup (mismatchTag <$> mismatches e)
    /\ (forall t, t ∈ mismatchTag <$> mismatches e
                  <-> t ∈ [mkTag 2 (js "000001"); mkTag 4 (js "000002")])
    /\ mismatches e = mismatchOf fLines <$> (mismatchTag <$> mismatches e)
    /\ mismatchTag <$> mismatches e
       = distinctTags (List.filter fails (referencedTags repeatedEdits))
    /\ fileLines e = fLines
    /\ (forall a, applyHashlineEdits sampleLineHash sampleContent repeatedEdits <> Ok a).
Proof.
  apply (C1_mismatch_aggregation sampleLineHash sampleContent repeatedEdits
           [mkTag 2 (js "000001"); mkTag 4 (js "000002")] 2).
  - compute_done.
  - intros t. split.
    + rewrite !elem_of_cons, elem_of_nil.
      intros [->|[->|[]]]; (split; [compute_done|vm_compute; reflexivity]).
    + intros [Hin _]. revert Hin. unfold referencedTags, repeatedEdits. simpl.
      rewrite !elem_of_cons, elem_of_nil.
      intros [->|[->|[->|[->|[]]]]]; compute_done.
  - reflexivity.
  - lia.
Defined.

(** C2 on one input for every pass: a verbatim line; a line with trailing
    blanks; lines with another indentation; a line with an em dash; two
    blocks whose scores differ in the last bit of the double, where the later
    one wins; and a block at the exact mean 0.92 whose double is below the
    threshold, which is rejected. *)
Lemma C2_witness :
  Ieee.seekSequence [js "a"; js "b"] [js "b"] 0 false = Ieee.mkSeek (Some 1) Ieee.one
  /\ Ieee.seekSequence [js "a"; js "b  "] [js "b"] 0 false
     = Ieee.mkSeek (Some 1) Ieee.c99
  /\ Ieee.seekSequence sampleHaystack samplePattern 0 false
     = Ieee.mkSeek (Some 1) Ieee.c98
  /\ Ieee.seekSequence [js "a"; [0x2014; 98]%N] [js "-b"] 0 false
     = Ieee.mkSeek (Some 1) Ieee.c97
  /\ Ieee.index (Ieee.seekSequence (lowBlock ++ highBlock) tiePattern 0 false) = Some 3
  /\ Forall (fun j => Ieee.le Ieee.FUZZY_THRESHOLD
                        (Ieee.fuzzyScoreAt nearLines nearPattern j) = false)
            (fuzzyOrder nearLines nearPattern 0 false).
Proof.
  assert (Hfirst : forall R compare lines pattern i,
            (forall a b, compare a b = true <-> R a b) ->
            strictPass lines pattern 0 false compare = Some i ->
            firstMatch R lines pattern 0 false i).
  { intros R compare lines pattern i HR. by apply strictPass_Some. }
  assert (Hnone : forall R compare lines pattern,
            (forall a b, compare a b = true <-> R a b) ->
            strictPass lines pattern 0 false compare = None ->
            noMatch R lines pattern 0 false).
  { intros R compare lines pattern HR. by apply strictPass_None. }
  split; [|split; [|split; [|split; [|split]]]].
  - destruct (C2_seekSequence_cascade [js "a"; js "b"] [js "b"] 0 false)
      as (H & _); [discriminate|simpl; lia|].
    apply H. by apply (Hfirst exactEq cmpExact _ _ _ cmpExact_iff).
  - destruct (C2_seekSequence_cascade [js "a"; js "b  "] [js "b"] 0 false)
      as (_ & H & _); [discriminate|simpl; lia|].
    apply H.
    + by apply (Hnone exactEq cmpExact _ _ cmpExact_iff).
    + by apply (Hfirst trimEndEq cmpTrimEnd _ _ _ cmpTrimEnd_iff).
  - destruct (C2_seekSequence_cascade sampleHaystack samplePattern 0 false)
      as (_ & _ & H & _); [discriminate|simpl; lia|].
    apply H.
    + by apply (Hnone exactEq cmpExact _ _ cmpExact_iff).
    + by apply (Hnone trimEndEq cmpTrimEnd _ _ cmpTrimEnd_iff).
    + by apply (Hfirst trimEq cmpTrim _ _ _ cmpTrim_iff).
  - destruct (C2_seekSequence_cascade [js "a"; [0x2014; 98]%N] [js "-b"] 0 false)
      as (_ & _ & _ & H & _); [discriminate|simpl; lia|].
    apply H.
    + by apply (Hnone exactEq cmpExact _ _ cmpExact_iff).
    + by apply (Hnone trimEndEq cmpTrimEnd _ _ cmpTrimEnd_iff).
    + by apply (Hnone trimEq cmpTrim _ _ cmpTrim_iff).
    + by apply (Hfirst unicodeEq cmpUnicode _ _ _ cmpUnicode_iff).
  - destruct (C2_seekSequence_cascade (lowBlock ++ highBlock) tiePattern 0 false)
      as (_ & _ & _ & _ & H & _); [discriminate|simpl; lia|].
    destruct H as (H & _).
    + by apply (Hnone exactEq cmpExact _ _ cmpExact_iff).
    + by apply (Hnone trimEndEq cmpTrimEnd _ _ cmpTrimEnd_iff).
    + by apply (Hnone trimEq cmpTrim _ _ cmpTrim_iff).
    + by apply (Hnone unicodeEq cmpUnicode _ _ cmpUnicode_iff).
    + apply H. split; [|vm_compute; reflexivity].
      exists [0; 1; 2], []. split; [reflexivity|].
      split; repeat constructor; vm_compute; reflexivity.
  - destruct (C2_seekSequence_cascade nearLines nearPattern 0 false)
      as (_ & _ & _ & _ & H & _); [discriminate|simpl; lia|].
    destruct H as (_ & _ & H).
    + by apply (Hnone exactEq cmpExact _ _ cmpExact_iff).
    + by apply (Hnone trimEndEq cmpTrimEnd _ _ cmpTrimEnd_iff).
    + by apply (Hnone trimEq cmpTrim _ _ cmpTrim_iff).
    + by apply (Hnone unicodeEq cmpUnicode _ _ cmpUnicode_iff).
    + apply H. vm_compute. reflexivity.
Defined.

(** C5 on the sample haystack with the end-of-file flag: the pattern stands
    verbatim on the line before the last one. *)
Lemma C5_witness :
  exists k, Ieee.index (Ieee.seekSequence sampleHaystack [js "}"] 0 true) = Some k
            /\ Ieee.le Ieee.c97
                 (Ieee.confidence (Ieee.seekSequence sampleHaystack [js "}"] 0 true))
               = true.
Proof.
  apply (C5_end_of_file_search sampleHaystack [js "}"] 0) with (p := 2).
  - discriminate.
  - simpl. lia.
  - simpl. lia.
  - intros [|j] q Hj; [|done]. injection Hj as <-. reflexivity.
  - reflexivity.
Defined.

(** C7 on a chunk whose scope line is its first old line: the cursor stays
    on the scope line. *)
Lemma C7_witness :
  match index (seekSequence sampleHaystack [js "function f() {"] 0 false) with
  | None =>
      resolveChunk sampleHaystack (js "f") 0 sampleScopedChunk
      = Err (ApplyPatchError (FailedToFindContext (js "function f() {") (js "f")))
      /\ forall replacements chunks,
           resolveChunks sampleHaystack (js "f") 0 replacements
             (sampleScopedChunk :: chunks)
           = Err (ApplyPatchError
                    (FailedToFindContext (js "function f() {") (js "f")))
  | Some idx =>
      let cursor :=
        if scopeIsFirstOldLine sampleScopedChunk (js "function f() {")
        then idx else idx + 1 in
      0 <= idx < length sampleHaystack
      /\ locateContext sampleHaystack (js "f") 0 sampleScopedChunk = Ok cursor
      /\ resolveChunk sampleHaystack (js "f") 0 sampleScopedChunk
         = resolveOldLines sampleHaystack (js "f") cursor sampleScopedChunk
  end.
Proof.
  apply (C7_scope_context_moves_cursor sampleHaystack (js "f") 0
           sampleScopedChunk (js "function f() {")).
  reflexivity.
Defined.

(** C8 on a diff whose second hunk is a header at the end of the input. *)
Lemma C8_witness :
  exists msg n,
    parseDiffHunks (text ["@@ first"; "+x"; "@@ second"])
    = Some (Err (ParseError msg (Some n)))
    /\ n <= 2 + 2.
Proof.
  destruct (C8_empty_hunk_is_a_parse_error (text ["@@ first"; "+x"; "@@ second"]))
    as (_ & _ & _ & H).
  apply (H 2).
  split; [exists (js "@@ second"); split; vm_compute; reflexivity|].
  vm_compute. reflexivity.
Defined.


(** The batch of the test with two stale tags gives the mismatches of the
    lines 2 and 4, and so does the batch that refers to line 2 three times. *)
Example sample_batches_collect_both_mismatches :
  (exists e, applyHashlineEdits sampleLineHash sampleContent sampleEdits
             = Err (MismatchFailure e)
             /\ mLine <$> mismatches e = [2; 4])
  /\ (exists e, applyHashlineEdits sampleLineHash sampleContent repeatedEdits
                = Err (MismatchFailure e)
                /\ mLine <$> mismatches e = [2; 4]).
Proof. split; eexists; (split; [vm_compute; reflexivity|reflexivity]). Qed.

(** The two sample inputs of the fuzzy pass in full: the block at the
    exact mean 0.92 is rejected with the confidence 0.9199999999999999, one
    unit in the last place below the threshold; of the two blocks with the
    same exact mean, the later one is returned. *)
Example double_rounding_decides :
  Ieee.seekSequence nearLines nearPattern 0 false
  = Ieee.mkSeek None (S754_finite false 8286623314361712 (-53))
  /\ index (seekSequence nearLines nearPattern 0 false) = Some 0
  /\ Ieee.seekSequence (lowBlock ++ highBlock) tiePattern 0 false
     = Ieee.mkSeek (Some 3) (S754_finite false 8395506328764064 (-53))
  /\ Ieee.fuzzyScoreAt (lowBlock ++ highBlock) tiePattern 0
     = S754_finite false 8395506328764063 (-53)
  /\ index (seekSequence (lowBlock ++ highBlock) tiePattern 0 false) = Some 0
  /\ Ieee.index (Ieee.seekSequence (highBlock ++ lowBlock) tiePattern 0 true) = Some 0
  /\ index (seekSequence (highBlock ++ lowBlock) tiePattern 0 true) = Some 3.
Proof. vm_compute. by repeat split. Qed.

(* ===================================================================== *)
(** * The Levenshtein distance as a metric *)
(* ===================================================================== *)

Section LevenshteinMetric.

Lemma editScript_symmetric (a b : jsstring) (n : nat) :
  editScript a b n -> editScript b a n.
Proof. induction 1; eauto using editScript. Qed.

Lemma editScript_zero (a b : jsstring) : editScript a b 0 -> a = b.
Proof.
  intros H. remember 0 as n eqn:Hn. induction H; try discriminate; auto.
  f_equal. auto.
Qed.

Lemma editScript_lengths (a b : jsstring) (n : nat) :
  editScript a b n -> length a <= length b + n /\ length b <= length a + n.
Proof. induction 1; simpl; lia. Qed.

Ltac script_step :=
  first [ apply edit_keep; assumption | apply edit_substitute; assumption
        | apply edit_delete; assumption | apply edit_insert; assumption
        | assumption ].

Ltac compose_with IH :=
  match goal with
  | H2 : editScript _ _ _ |- _ =>
      destruct (IH _ _ H2) as (k & Hk & Hs);
      solve [ exists k; split; [lia | script_step]
            | exists (S k); split; [lia | script_step] ]
  end.

Ltac compose_shorter IHc :=
  match goal with
  | H2 : editScript _ _ _ |- _ =>
      destruct (IHc _ H2) as (k & Hk & Hs);
      solve [ exists (S k); split; [lia | script_step] ]
  end.

Lemma editScript_compose (a b : jsstring) (n : nat) :
  editScript a b n ->
  forall c m, editScript b c m -> exists k, k <= n + m /\ editScript a c k.
Proof.
  induction 1 as [|x a b n H IH|x y a b n H IH|x a b n H IH|y a b n H IH].
  - intros c m H2. exists m. split; [lia|done].
  - induction c as [|z c IHc]; intros m H2; inversion H2; subst; clear H2;
      first [compose_with IH | compose_shorter IHc].
  - induction c as [|z c IHc]; intros m H2; inversion H2; subst; clear H2;
      first [compose_with IH | compose_shorter IHc].
  - intros c m H2. compose_with IH.
  - induction c as [|z c IHc]; intros m H2; inversion H2; subst; clear H2;
      first [compose_with IH | compose_shorter IHc].
Qed.

End LevenshteinMetric.

(** X1: the distance computed by [levenshteinDistance] is 0 exactly when
    the two strings are equal. *)
Theorem levenshteinDistance_zero_iff_equal (a b : jsstring) :
  levenshteinDistance a b = 0 <-> a = b.
Proof.
  split.
  - intros H. apply editScript_zero. rewrite <- H.
    apply levenshteinDistance_least_edits.
  - intros ->. unfold levenshteinDistance. by rewrite strEq_refl.
Qed.

(** X2: [levenshteinDistance] is symmetric in its two arguments. *)
Theorem levenshteinDistance_symmetric (a b : jsstring) :
  levenshteinDistance a b = levenshteinDistance b a.
Proof.
  apply Nat.le_antisymm;
    apply levenshteinDistance_least_edits, editScript_symmetric,
          levenshteinDistance_least_edits.
Qed.

(** X3: [levenshteinDistance] obeys the triangle inequality. *)
Theorem levenshteinDistance_triangle (a b c : jsstring) :
  levenshteinDistance a c <= levenshteinDistance a b + levenshteinDistance b c.
Proof.
  destruct (editScript_compose a b _ (proj1 (levenshteinDistance_least_edits a b))
              c _ (proj1 (levenshteinDistance_least_edits b c))) as (k & Hk & Hs).
  etrans; [|exact Hk]. by apply levenshteinDistance_least_edits.
Qed.

(** X4: [levenshteinDistance] lies between the difference of the two
    lengths and the greater of them. *)
Theorem levenshteinDistance_length_bounds (a b : jsstring) :
  length a - length b <= levenshteinDistance a b
  /\ length b - length a <= levenshteinDistance a b
  /\ levenshteinDistance a b <= Nat.max (length a) (length b).
Proof.
  pose proof (editScript_lengths a b _
                (proj1 (levenshteinDistance_least_edits a b))) as [H1 H2].
  pose proof (levenshteinDistance_bound a b).
  lia.
Qed.


(* ===================================================================== *)
(** * Trimming and the normalisers *)
(* ===================================================================== *)

Section Trimming.

Lemma trimStart_idemp (s : jsstring) : trimStart (trimStart s) = trimStart s.
Proof.
  induction s as [|c s IH]; [done|]. simpl.
  destruct (isWhiteSpace c) eqn:Hc; [done|]. simpl. by rewrite Hc.
Qed.

Lemma trimStart_fixed (s : jsstring) :
  (forall c, head s = Some c -> isWhiteSpace c = false) -> trimStart s = s.
Proof. destruct s as [|c s]; [done|]. intros H. simpl. by rewrite (H c). Qed.

Lemma trimStart_head (s : jsstring) (c : N) :
  head (trimStart s) = Some c -> isWhiteSpace c = false.
Proof.
  induction s as [|d s IH]; [done|]. simpl.
  destruct (isWhiteSpace d) eqn:Hd; [done|]. simpl. by intros [= <-].
Qed.

Lemma trimEnd_snoc (s : jsstring) (c : N) :
  trimEnd (s ++ [c]) = if isWhiteSpace c then trimEnd s else s ++ [c].
Proof.
  unfold trimEnd. rewrite reverse_snoc. simpl.
  destruct (isWhiteSpace c); [done|]. by rewrite reverse_cons, reverse_involutive.
Qed.

Lemma trimEnd_cons (c : N) (s : jsstring) :
  trimEnd (c :: s)
  = match trimEnd s with
    | [] => if isWhiteSpace c then [] else [c]
    | _ :: _ => c :: trimEnd s
    end.
Proof.
  induction s as [|d s IH] using rev_ind.
  - change [c] with ([] ++ [c]). rewrite trimEnd_snoc. by destruct (isWhiteSpace c).
  - rewrite app_comm_cons, !trimEnd_snoc.
    destruct (isWhiteSpace d); [done|]. by destruct s.
Qed.

Lemma trimEnd_fixed (s : jsstring) :
  (forall c, last s = Some c -> isWhiteSpace c = false) -> trimEnd s = s.
Proof.
  destruct s as [|d s _] using rev_ind; [done|].
  intros H. rewrite trimEnd_snoc, (H d); [done|]. by rewrite last_snoc.
Qed.

Lemma trimEnd_last (s : jsstring) (c : N) :
  last (trimEnd s) = Some c -> isWhiteSpace c = false.
Proof.
  unfold trimEnd. rewrite last_reverse. apply trimStart_head.
Qed.

(** Trimming at the two ends commutes. *)
Lemma trimEnd_trimStart (s : jsstring) :
  trimEnd (trimStart s) = trimStart (trimEnd s).
Proof.
  induction s as [|c s IH]; [done|].
  rewrite trimEnd_cons. simpl. destruct (isWhiteSpace c) eqn:Hc.
  - rewrite IH. destruct (trimEnd s) eqn:Hs; [done|]. simpl. by rewrite Hc.
  - rewrite trimEnd_cons. destruct (trimEnd s); simpl; by rewrite Hc.
Qed.

Lemma trim_head (s : jsstring) (c : N) :
  head (trim s) = Some c -> isWhiteSpace c = false.
Proof. unfold trim. rewrite trimEnd_trimStart. apply trimStart_head. Qed.

Lemma trim_last (s : jsstring) (c : N) :
  last (trim s) = Some c -> isWhiteSpace c = false.
Proof. apply trimEnd_last. Qed.

Lemma trim_fixed (s : jsstring) :
  (forall c, head s = Some c -> isWhiteSpace c = false) ->
  (forall c, last s = Some c -> isWhiteSpace c = false) ->
  trim s = s.
Proof.
  intros Hh Hl. unfold trim. rewrite (trimStart_fixed s Hh). by apply trimEnd_fixed.
Qed.

Lemma trim_idemp (s : jsstring) : trim (trim s) = trim s.
Proof. apply trim_fixed; [apply trim_head|apply trim_last]. Qed.


(** A character map that keeps characters that are not white space away
    from white space commutes with the fixed points of [trim]. *)
Lemma trim_fmap_fixed (f : N -> N) (s : jsstring) :
  (forall c, isWhiteSpace c = false -> isWhiteSpace (f c) = false) ->
  trim (f <$> trim s) = f <$> trim s.
Proof.
  intros Hf. apply trim_fixed; intros c.
  - destruct (trim s) as [|d t] eqn:Ht; [done|]. simpl. intros [= <-].
    apply Hf, (trim_head s). by rewrite Ht.
  - rewrite fmap_last. destruct (last (trim s)) as [d|] eqn:Hl; [|done].
    simpl. intros [= <-]. by apply Hf, (trim_last s).
Qed.

End Trimming.

Section Normalisers.

Ltac split_orb H :=
  repeat match type of H with
         | (_ || _) = true => apply orb_prop in H as [H|H]
         end;
  apply N.eqb_eq in H; subst.

Lemma normalizeUnicodeChar_cases (c : N) :
  (normalizeUnicodeChar c = 45 \/ normalizeUnicodeChar c = 39
   \/ normalizeUnicodeChar c = 34)%N
  \/ (normalizeUnicodeChar c = 32%N /\ isWhiteSpace c = true)
  \/ normalizeUnicodeChar c = c.
Proof.
  unfold normalizeUnicodeChar.
  repeat match goal with
         | |- context [if ?b then _ else _] => destruct b eqn:?
         end; auto.
  right; left. split; [done|].
  match goal with H : _ = true |- _ => split_orb H; reflexivity end.
Qed.

Lemma normalizeUnicodeChar_not_space (c : N) :
  isWhiteSpace c = false -> isWhiteSpace (normalizeUnicodeChar c) = false.
Proof.
  intros Hc.
  destruct (normalizeUnicodeChar_cases c) as [[H|[H|H]]|[[H Hw]|H]];
    rewrite H; try reflexivity; congruence.
Qed.

Lemma normalizeUnicodeChar_idemp (c : N) :
  normalizeUnicodeChar (normalizeUnicodeChar c) = normalizeUnicodeChar c.
Proof.
  destruct (normalizeUnicodeChar_cases c) as [[H|[H|H]]|[[H Hw]|H]];
    rewrite H; try reflexivity. by rewrite H.
Qed.

Lemma normalizeFuzzyText_fmap (s : jsstring) :
  normalizeFuzzyText s = fuzzyChar <$> s.
Proof.
  unfold normalizeFuzzyText, replaceClass. rewrite <- !list_fmap_compose.
  done.
Qed.

Lemma fuzzyChar_cases (c : N) :
  (fuzzyChar c = 34 \/ fuzzyChar c = 39 \/ fuzzyChar c = 45)%N
  \/ (fuzzyChar c = c /\ isDoubleQuoteLike c = false
      /\ isSingleQuoteLike c = false /\ isDashLike c = false).
Proof.
  unfold fuzzyChar.
  destruct (isDoubleQuoteLike c) eqn:Hd; [left; left; reflexivity|].
  destruct (isSingleQuoteLike c) eqn:Hs; [left; right; left; reflexivity|].
  destruct (isDashLike c) eqn:Hh; [left; right; right; reflexivity|].
  right. done.
Qed.

Lemma fuzzyChar_idemp (c : N) : fuzzyChar (fuzzyChar c) = fuzzyChar c.
Proof.
  destruct (fuzzyChar_cases c) as [[H|[H|H]]|(H & ? & ? & ?)];
    rewrite H; try reflexivity. by rewrite H.
Qed.

Lemma fuzzyChar_blank (c : N) : isBlank (fuzzyChar c) = isBlank c.
Proof.
  destruct (fuzzyChar_cases c) as [[H|[H|H]]|(H & ? & ? & ?)]; [| | |by rewrite H];
    rewrite H; unfold fuzzyChar in H;
    destruct (isBlank c) eqn:Hb; try reflexivity;
    unfold isBlank in Hb; apply orb_prop in Hb as [Hb|Hb];
    apply N.eqb_eq in Hb; subst; discriminate.
Qed.

Lemma fuzzyChar_blank_fixed (c : N) : isBlank c = true -> fuzzyChar c = c.
Proof.
  unfold isBlank. intros Hb. apply orb_prop in Hb as [Hb|Hb];
    apply N.eqb_eq in Hb; subst; reflexivity.
Qed.

Lemma fuzzyChar_not_space (c : N) :
  isWhiteSpace c = false -> isWhiteSpace (fuzzyChar c) = false.
Proof.
  intros Hc.
  destruct (fuzzyChar_cases c) as [[H|[H|H]]|(H & ? & ? & ?)];
    rewrite H; try reflexivity; done.
Qed.

Lemma isBlank_space (c : N) : isBlank c = true -> isWhiteSpace c = true.
Proof.
  unfold isBlank. intros Hb. apply orb_prop in Hb as [Hb|Hb];
    apply N.eqb_eq in Hb; subst; reflexivity.
Qed.

Lemma collapseBlanks_cons (b : bool) (c : N) (s : jsstring) :
  collapseBlanks b (c :: s)
  = if isBlank c
    then if b then collapseBlanks true s else 32%N :: collapseBlanks true s
    else c :: collapseBlanks false s.
Proof. done. Qed.

Lemma collapseBlanks_fuzzy (b : bool) (s : jsstring) :
  fuzzyChar <$> collapseBlanks b s = collapseBlanks b (fuzzyChar <$> s).
Proof.
  revert b. induction s as [|c s IH]; intros b; [done|].
  rewrite fmap_cons, !collapseBlanks_cons, fuzzyChar_blank.
  destruct (isBlank c) eqn:Hc.
  - destruct b; [apply IH|]. rewrite fmap_cons, IH. done.
  - by rewrite fmap_cons, IH.
Qed.

Lemma collapseBlanks_idemp (b : bool) (s : jsstring) :
  collapseBlanks false (collapseBlanks b s) = collapseBlanks b s
  /\ (b = true -> collapseBlanks true (collapseBlanks b s) = collapseBlanks b s).
Proof.
  revert b. induction s as [|c s IH]; intros b; [done|].
  rewrite !collapseBlanks_cons. destruct (isBlank c) eqn:Hc.
  - destruct b.
    + apply IH.
    + split; [|done]. rewrite collapseBlanks_cons. simpl.
      f_equal. by apply IH.
  - rewrite !collapseBlanks_cons, Hc. split; intros; f_equal; apply IH.
Qed.

Lemma collapseBlanks_head (b : bool) (s : jsstring) (c : N) :
  head s = Some c -> isBlank c = false -> head (collapseBlanks b s) = Some c.
Proof.
  destruct s as [|d s]; [done|]. intros [= ->] Hc.
  by rewrite collapseBlanks_cons, Hc.
Qed.

Lemma collapseBlanks_last (b : bool) (s : jsstring) (c : N) :
  last s = Some c -> isBlank c = false -> last (collapseBlanks b s) = Some c.
Proof.
  revert b. induction s as [|d s IH]; intros b; [done|].
  destruct s as [|e s].
  - intros [= ->] Hc. by rewrite collapseBlanks_cons, Hc.
  - intros Hl Hc. change (last (d :: e :: s)) with (last (e :: s)) in Hl.
    rewrite collapseBlanks_cons.
    assert (forall b', exists x y, collapseBlanks b' (e :: s) = x :: y) as Hne.
    { intros b'. pose proof (IH b' Hl Hc) as H.
      destruct (collapseBlanks b' (e :: s)); [done|eauto]. }
    destruct (isBlank d); [destruct b|].
    + by apply IH.
    + destruct (Hne true) as (x & y & E). pose proof (IH true Hl Hc) as H.
      rewrite E in H |- *. exact H.
    + destruct (Hne false) as (x & y & E). pose proof (IH false Hl Hc) as H.
      rewrite E in H |- *. exact H.
Qed.

Lemma not_space_not_blank (c : N) : isWhiteSpace c = false -> isBlank c = false.
Proof.
  intros H. destruct (isBlank c) eqn:Hb; [|done].
  apply isBlank_space in Hb. congruence.
Qed.

End Normalisers.

(** X6: [normalizeUnicode] is idempotent, so a line and its normal form
    are equal for the Unicode comparison. *)
Theorem normalizeUnicode_idempotent (s : jsstring) :
  normalizeUnicode (normalizeUnicode s) = normalizeUnicode s
  /\ cmpUnicode (normalizeUnicode s) s = true.
Proof.
  assert (normalizeUnicode (normalizeUnicode s) = normalizeUnicode s) as H.
  { unfold normalizeUnicode.
    rewrite (trim_fmap_fixed _ _ normalizeUnicodeChar_not_space).
    rewrite <- list_fmap_compose. apply list_fmap_ext.
    intros _ c _. apply normalizeUnicodeChar_idemp. }
  split; [done|]. unfold cmpUnicode. rewrite H. apply strEq_refl.
Qed.

(** X7: [normalizeLineForFuzzy] is idempotent: its result carries no
    surrounding white space, no tab or run of blanks, and no typographic
    quote or dash left to replace. *)
Theorem normalizeLineForFuzzy_idempotent (line : jsstring) :
  normalizeLineForFuzzy (normalizeLineForFuzzy line) = normalizeLineForFuzzy line.
Proof.
  unfold normalizeLineForFuzzy at 2 3.
  destruct (Nat.eqb_spec (length (trim line)) 0) as [H0|H0]; [reflexivity|].
  set (r := collapseBlanks false (normalizeFuzzyText (trim line))).
  assert (trim r = r) as Htrim.
  { apply trim_fixed; intros c; unfold r; rewrite normalizeFuzzyText_fmap.
    - destruct (trim line) as [|d t] eqn:Ht; [done|].
      assert (isWhiteSpace d = false) as Hd by (apply (trim_head line); by rewrite Ht).
      rewrite fmap_cons, collapseBlanks_cons.
      rewrite (not_space_not_blank _ (fuzzyChar_not_space _ Hd)).
      intros [= <-]. by apply fuzzyChar_not_space.
    - destruct (last (trim line)) as [d|] eqn:Hl.
      + assert (isWhiteSpace d = false) as Hd by by apply (trim_last line).
        rewrite (collapseBlanks_last _ _ (fuzzyChar d)).
        * intros [= <-]. by apply fuzzyChar_not_space.
        * by rewrite fmap_last, Hl.
        * by apply not_space_not_blank, fuzzyChar_not_space.
      + apply last_None in Hl. by rewrite Hl in H0. }
  assert (r <> []) as Hr.
  { unfold r. rewrite normalizeFuzzyText_fmap.
    destruct (trim line) as [|d t] eqn:Ht; [done|].
    assert (isWhiteSpace d = false) as Hd by (apply (trim_head line); by rewrite Ht).
    rewrite fmap_cons, collapseBlanks_cons.
    by rewrite (not_space_not_blank _ (fuzzyChar_not_space _ Hd)). }
  unfold normalizeLineForFuzzy. rewrite Htrim.
  destruct (Nat.eqb_spec (length r) 0) as [Hl|_]; [by destruct r|].
  unfold r at 1. rewrite !normalizeFuzzyText_fmap, collapseBlanks_fuzzy.
  rewrite <- list_fmap_compose.
  rewrite (list_fmap_ext (fuzzyChar ∘ fuzzyChar) fuzzyChar (trim line)).
  - rewrite <- normalizeFuzzyText_fmap. apply collapseBlanks_idemp.
  - intros _ c _. apply fuzzyChar_idemp.
Qed.

(* ===================================================================== *)
(** * What the sequence matcher returns *)
(* ===================================================================== *)

Section MatcherResults.








Lemma strictPass_range (lines pattern : list jsstring) (start : nat) (eof : bool)
    (compare : jsstring -> jsstring -> bool) (k : nat) :
  length pattern <= length lines ->
  strictPass lines pattern start eof compare = Some k ->
  k + length pattern <= length lines /\ (eof = false -> start <= k)
  /\ matchesAt lines pattern k compare = true.
Proof.
  intros Hlen Hk. unfold strictPass in Hk.
  apply firstFrom_Some in Hk as (Hk & Hm & _).
  unfold searchStartOf, maxStartOf in Hk.
  destruct eof; (split; [lia|split; [|done]]); (lia || done).
Qed.

Lemma seekSequence_too_long (lines pattern : list jsstring) (start : nat) (eof : bool) :
  length lines < length pattern ->
  seekSequence lines pattern start eof = mkSeek None 0%Q.
Proof.
  intros Hlt. unfold seekSequence.
  destruct (Nat.eqb_spec (length pattern) 0) as [H0|_]; [lia|].
  by rewrite (proj2 (Nat.ltb_lt _ _) Hlt).
Qed.

Lemma double_seekSequence_too_long (lines pattern : list jsstring) (start : nat)
    (eof : bool) :
  length lines < length pattern ->
  Ieee.seekSequence lines pattern start eof = Ieee.mkSeek None Ieee.zero.
Proof.
  intros Hlt. unfold Ieee.seekSequence.
  destruct (Nat.eqb_spec (length pattern) 0) as [H0|_]; [lia|].
  by rewrite (proj2 (Nat.ltb_lt _ _) Hlt).
Qed.

Lemma firstMatch_range (R : jsstring -> jsstring -> Prop)
    (lines pattern : list jsstring) (start : nat) (eof : bool) (i : nat) :
  length pattern <= length lines ->
  firstMatch R lines pattern start eof i ->
  i + length pattern <= length lines /\ (eof = false -> start <= i).
Proof.
  intros Hlen (Hi & _). unfold searchStartOf, maxStartOf in Hi.
  destruct eof; split; (lia || done).
Qed.

End MatcherResults.

(** X8: an index returned by [seekSequence] for a pattern that is not
    empty leaves room for the pattern and is not before [start] without the
    end-of-file flag.  It is the first position of the search window where
    the pattern matches under the first of the four strict comparisons that
    matches anywhere in the window, the confidence being the constant of that
    comparison; or no strict comparison matches anywhere in the window, and
    it is the first of the best-scoring positions of the fuzzy pass, the
    confidence being its score, a double that is at least 0.92.  The
    confidence alone does not name the comparison: a fuzzy score can be 1. *)
Theorem seekSequence_result_is_sound
    (lines pattern : list jsstring) (start : nat) (eof : bool) (i : nat) :
  pattern <> [] ->
  Ieee.index (Ieee.seekSequence lines pattern start eof) = Some i ->
  let c := Ieee.confidence (Ieee.seekSequence lines pattern start eof) in
  let score := Ieee.fuzzyScoreAt lines pattern in
  i + length pattern <= length lines
  /\ (eof = false -> start <= i)
  /\ ((firstMatch exactEq lines pattern start eof i /\ c = Ieee.one)
      \/ (noMatch exactEq lines pattern start eof
          /\ firstMatch trimEndEq lines pattern start eof i /\ c = Ieee.c99)
      \/ (noMatch exactEq lines pattern start eof
          /\ noMatch trimEndEq lines pattern start eof
          /\ firstMatch trimEq lines pattern start eof i /\ c = Ieee.c98)
      \/ (noMatch exactEq lines pattern start eof
          /\ noMatch trimEndEq lines pattern start eof
          /\ noMatch trimEq lines pattern start eof
          /\ firstMatch unicodeEq lines pattern start eof i /\ c = Ieee.c97)
      \/ (noMatch exactEq lines pattern start eof
          /\ noMatch trimEndEq lines pattern start eof
          /\ noMatch trimEq lines pattern start eof
          /\ noMatch unicodeEq lines pattern start eof
          /\ Ieee.firstBest score (fuzzyOrder lines pattern start eof) i
          /\ c = score i
          /\ Ieee.le Ieee.FUZZY_THRESHOLD c = true)).
Proof.
  intros Hne Hi c score.
  destruct (Nat.ltb_spec (length lines) (length pattern)) as [Hlt|Hlen].
  { by rewrite double_seekSequence_too_long in Hi. }
  subst c score. rewrite double_seekSequence_cases in Hi |- * by done.
  pose proof (fun k => proj1 (strictPass_Some exactEq cmpExact
                lines pattern start eof k cmpExact_iff)) as S1.
  pose proof (fun k => proj1 (strictPass_Some trimEndEq cmpTrimEnd
                lines pattern start eof k cmpTrimEnd_iff)) as S2.
  pose proof (fun k => proj1 (strictPass_Some trimEq cmpTrim
                lines pattern start eof k cmpTrim_iff)) as S3.
  pose proof (fun k => proj1 (strictPass_Some unicodeEq cmpUnicode
                lines pattern start eof k cmpUnicode_iff)) as S4.
  pose proof (proj1 (strictPass_None exactEq cmpExact
                lines pattern start eof cmpExact_iff)) as N1.
  pose proof (proj1 (strictPass_None trimEndEq cmpTrimEnd
                lines pattern start eof cmpTrimEnd_iff)) as N2.
  pose proof (proj1 (strictPass_None trimEq cmpTrim
                lines pattern start eof cmpTrim_iff)) as N3.
  pose proof (proj1 (strictPass_None unicodeEq cmpUnicode
                lines pattern start eof cmpUnicode_iff)) as N4.
  destruct (strictPass lines pattern start eof cmpExact) as [k|] eqn:H1.
  { injection Hi as ->. specialize (S1 i eq_refl).
    destruct (firstMatch_range _ _ _ _ _ _ Hlen S1). split; [done|].
    split; [done|]. by left. }
  specialize (N1 eq_refl).
  destruct (strictPass lines pattern start eof cmpTrimEnd) as [k|] eqn:H2.
  { injection Hi as ->. specialize (S2 i eq_refl).
    destruct (firstMatch_range _ _ _ _ _ _ Hlen S2). split; [done|].
    split; [done|]. right; left. split; [done|]. by split. }
  specialize (N2 eq_refl).
  destruct (strictPass lines pattern start eof cmpTrim) as [k|] eqn:H3.
  { injection Hi as ->. specialize (S3 i eq_refl).
    destruct (firstMatch_range _ _ _ _ _ _ Hlen S3). split; [done|].
    split; [done|]. do 2 right; left. split; [done|]. split; [done|]. by split. }
  specialize (N3 eq_refl).
  destruct (strictPass lines pattern start eof cmpUnicode) as [k|] eqn:H4.
  { injection Hi as ->. specialize (S4 i eq_refl).
    destruct (firstMatch_range _ _ _ _ _ _ Hlen S4). split; [done|].
    split; [done|]. do 3 right; left.
    split; [done|]. split; [done|]. split; [done|]. by split. }
  specialize (N4 eq_refl).
  destruct (double_fuzzy_pass_spec (Ieee.fuzzyScoreAt lines pattern)
              (fuzzyOrder lines pattern start eof)) as (Hiff & Hconf & _).
  cbv zeta in Hiff, Hconf.
  destruct (proj1 (Hiff i) Hi) as [Hb Hthr].
  pose proof (double_firstBest_elem _ _ _ Hb) as [Hin _].
  destruct (candidates_in_range _ _ _ _ _ Hlen Hin).
  split; [done|]. split; [done|]. do 4 right.
  rewrite (Hconf i Hi).
  split; [done|]. split; [done|]. split; [done|]. split; [done|]. by split.
Qed.

(** The line [a  b] is found for the pattern [a b] by the fuzzy pass alone,
    with the confidence 1. *)
Lemma seekSequence_result_is_sound_witness :
  let lines := [js "a  b"] in
  let pattern := [js "a b"] in
  let c := Ieee.confidence (Ieee.seekSequence lines pattern 0 false) in
  let score := Ieee.fuzzyScoreAt lines pattern in
  0 + length pattern <= length lines
  /\ (false = false -> 0 <= 0)
  /\ ((firstMatch exactEq lines pattern 0 false 0 /\ c = Ieee.one)
      \/ (noMatch exactEq lines pattern 0 false
          /\ firstMatch trimEndEq lines pattern 0 false 0 /\ c = Ieee.c99)
      \/ (noMatch exactEq lines pattern 0 false
          /\ noMatch trimEndEq lines pattern 0 false
          /\ firstMatch trimEq lines pattern 0 false 0 /\ c = Ieee.c98)
      \/ (noMatch exactEq lines pattern 0 false
          /\ noMatch trimEndEq lines pattern 0 false
          /\ noMatch trimEq lines pattern 0 false
          /\ firstMatch unicodeEq lines pattern 0 false 0 /\ c = Ieee.c97)
      \/ (noMatch exactEq lines pattern 0 false
          /\ noMatch trimEndEq lines pattern 0 false
          /\ noMatch trimEq lines pattern 0 false
          /\ noMatch unicodeEq lines pattern 0 false
          /\ Ieee.firstBest score (fuzzyOrder lines pattern 0 false) 0
          /\ c = score 0
          /\ Ieee.le Ieee.FUZZY_THRESHOLD c = true)).
Proof.
  apply (seekSequence_result_is_sound [js "a  b"] [js "a b"] 0 false 0).
  - discriminate.
  - vm_compute. reflexivity.
Defined.

(** X9: without the end-of-file flag, a pattern that stands verbatim at or
    after [start] is always found: [seekSequence] returns its first verbatim
    occurrence from [start], with confidence 1. *)
Theorem seekSequence_finds_first_verbatim_occurrence
    (lines pattern : list jsstring) (start p : nat) :
  pattern <> [] ->
  start <= p ->
  p + length pattern <= length lines ->
  matchesAt lines pattern p cmpExact = true ->
  exists i,
    seekSequence lines pattern start false = mkSeek (Some i) 1%Q
    /\ start <= i <= p
    /\ matchesAt lines pattern i cmpExact = true
    /\ forall j, start <= j < i -> matchesAt lines pattern j cmpExact = false.
Proof.
  intros Hne Hsp Hp Hm.
  rewrite seekSequence_cases by (done || lia).
  destruct (strictPass lines pattern start false cmpExact) as [i|] eqn:H1.
  - exists i. unfold strictPass, searchStartOf in H1.
    apply firstFrom_Some in H1 as (Hi & Hmi & Hfirst).
    split; [done|]. split; [|done].
    split; [lia|]. destruct (Nat.le_gt_cases i p) as [|Hlt]; [done|].
    rewrite (Hfirst p) in Hm; [done|lia].
  - unfold strictPass, searchStartOf, maxStartOf in H1.
    rewrite firstFrom_None in H1. rewrite (H1 p) in Hm; [done|lia].
Qed.

Lemma seekSequence_finds_first_verbatim_occurrence_witness :
  exists i,
    seekSequence [js "a"; js "b"; js "a"; js "b"] [js "b"] 0 false
    = mkSeek (Some i) 1%Q
    /\ 0 <= i <= 3
    /\ matchesAt [js "a"; js "b"; js "a"; js "b"] [js "b"] i cmpExact = true
    /\ forall j, 0 <= j < i ->
         matchesAt [js "a"; js "b"; js "a"; js "b"] [js "b"] j cmpExact = false.
Proof.
  apply (seekSequence_finds_first_verbatim_occurrence
           [js "a"; js "b"; js "a"; js "b"] [js "b"] 0 3).
  - discriminate.
  - lia.
  - simpl. lia.
  - vm_compute. reflexivity.
Defined.

(** X10: a position of the search window where the pattern matches under
    one of the four strict comparisons is never lost: [seekSequence] returns
    an index with a confidence of at least 0.97. *)
Theorem seekSequence_strict_match_is_found
    (lines pattern : list jsstring) (start : nat) (eof : bool) (p : nat) :
  pattern <> [] ->
  length pattern <= length lines ->
  searchStartOf lines pattern start eof <= p <= maxStartOf lines pattern ->
  matchesAt lines pattern p cmpUnicode = true ->
  exists i,
    index (seekSequence lines pattern start eof) = Some i
    /\ (97 # 100 <= confidence (seekSequence lines pattern start eof))%Q.
Proof.
  intros Hne Hlen Hp Hm.
  rewrite seekSequence_cases by done.
  destruct (strictPass lines pattern start eof cmpExact) eqn:H1;
    [eexists; split; [done|by vm_compute]|].
  destruct (strictPass lines pattern start eof cmpTrimEnd) eqn:H2;
    [eexists; split; [done|by vm_compute]|].
  destruct (strictPass lines pattern start eof cmpTrim) eqn:H3;
    [eexists; split; [done|by vm_compute]|].
  destruct (strictPass lines pattern start eof cmpUnicode) eqn:H4;
    [eexists; split; [done|by vm_compute]|].
  unfold strictPass in H4. rewrite firstFrom_None in H4.
  rewrite (H4 p) in Hm; [done|lia].
Qed.

Lemma seekSequence_strict_match_is_found_witness :
  exists i,
    index (seekSequence sampleHaystack samplePattern 0 false) = Some i
    /\ (97 # 100 <= confidence (seekSequence sampleHaystack samplePattern 0 false))%Q.
Proof.
  apply (seekSequence_strict_match_is_found sampleHaystack samplePattern 0 false 1).
  - discriminate.
  - simpl. lia.
  - vm_compute. split; lia.
  - vm_compute. reflexivity.
Defined.



(* ===================================================================== *)
(** * The parser on well-formed hunks *)
(* ===================================================================== *)

Section HunkGrammar.

Lemma parseChunkLines_body (lineNumber : nat) (body rest : list jsstring)
    (chunk : UpdateChunk) (p : nat) :
  Forall (fun l => isContentLine l = true) body ->
  endsHunk rest ->
  0 < p + length body ->
  parseChunkLines lineNumber (body ++ rest) chunk p
  = Ok (mkChunk (changeContext chunk)
          (hasContextLines chunk || existsb isContextLine body)
          (oldLines chunk ++ (lineBody <$> List.filter isOldLine body))
          (newLines chunk ++ (lineBody <$> List.filter isNewLine body))
          (isEndOfFile chunk || eofFollows rest),
        p + length body + (if eofFollows rest then 1 else 0)).
Proof.
  intros Hbody. revert chunk p.
  induction Hbody as [|line body Hline _ IH]; intros chunk p Hrest Hp.
  - simpl in Hp. destruct chunk as [ctx hc ol nl ef]. simpl.
    rewrite orb_false_r, !app_nil_r.
    destruct rest as [|l rest]; simpl.
    + rewrite orb_false_r. do 2 f_equal. lia.
    + simpl in Hrest. unfold isContentLine in Hrest.
      destruct (strEq l EOF_MARKER) eqn:He.
      * destruct (Nat.eqb_spec p 0); [lia|]. rewrite orb_true_r.
        do 2 f_equal. lia.
      * simpl in Hrest. destruct l as [|c l]; [done|].
        apply orb_false_elim in Hrest as [Hrest H45].
        apply orb_false_elim in Hrest as [H32 H43].
        rewrite H32, H43, H45, orb_false_r.
        destruct (Nat.eqb_spec p 0); [lia|]. do 2 f_equal. lia.
  - rewrite <- app_comm_cons. cbn [parseChunkLines].
    unfold isContentLine in Hline. apply andb_prop in Hline as [He Hline].
    apply negb_true_iff in He. rewrite He.
    destruct line as [|c line].
    + rewrite IH by (done || simpl; lia). simpl.
      rewrite <- !(assoc_L (++)). simpl. do 2 f_equal; [|lia].
      f_equal. by destruct (hasContextLines chunk).
    + destruct (N.eqb_spec c 32) as [->|H32].
      { rewrite IH by (done || simpl; lia). simpl.
        rewrite <- !(assoc_L (++)). simpl. do 2 f_equal; [|lia].
        f_equal. by destruct (hasContextLines chunk). }
      destruct (N.eqb_spec c 43) as [->|H43].
      { rewrite IH by (done || simpl; lia). simpl.
        rewrite <- !(assoc_L (++)). simpl. do 2 f_equal. lia. }
      destruct (N.eqb_spec c 45) as [->|H45].
      { rewrite IH by (done || simpl; lia). simpl.
        rewrite <- !(assoc_L (++)). simpl. do 2 f_equal. lia. }
      simpl in Hline. discriminate Hline.
Qed.

Lemma contentLine_not_header (l : jsstring) :
  isContentLine l = true -> isHunkHeader l = false.
Proof.
  intros Hl. destruct (isHunkHeader l) eqn:Hh; [|done].
  apply hunkHeader_shape in Hh as [r ->]. done.
Qed.

Lemma parseHeader_header (h : jsstring) (lineNumber : nat) (allow : bool) :
  isHunkHeader h = true ->
  parseHeader h lineNumber allow = Ok (headerContext h, 1).
Proof.
  unfold isHunkHeader, parseHeader, headerContext. intros Hh.
  destruct (strEq h EMPTY_CHANGE_CONTEXT_MARKER) eqn:He; [done|].
  rewrite ?He, orb_false_l in Hh. by rewrite Hh.
Qed.

Lemma parseHeader_content (l : jsstring) (lineNumber : nat) (allow : bool) :
  isContentLine l = true ->
  parseHeader l lineNumber allow
  = if allow then Ok (None, 0)
    else Err (ParseError (ExpectedContextMarker l) (Some lineNumber)).
Proof.
  intros Hl. apply contentLine_not_header in Hl.
  unfold isHunkHeader in Hl. apply orb_false_elim in Hl as [H1 H2].
  unfold parseHeader. rewrite H1, H2. by destruct allow.
Qed.

End HunkGrammar.

(** X12: [parseOneChunk] on a hunk header followed by content lines reads
    all of them: lines that are empty or start with a space go to the old and
    the new text and mark the chunk as having context, lines with [-] go to
    the old text, lines with [+] to the new text, each without its first
    character; an end-of-file marker after them is consumed and sets
    [isEndOfFile]. *)
Theorem parseOneChunk_reads_hunk
    (h : jsstring) (body rest : list jsstring) (lineNumber : nat) (allow : bool) :
  isHunkHeader h = true ->
  body <> [] ->
  Forall (fun l => isContentLine l = true) body ->
  endsHunk rest ->
  parseOneChunk (h :: body ++ rest) lineNumber allow
  = Ok (chunkOfBody (headerContext h) body (eofFollows rest),
        length body + (if eofFollows rest then 1 else 0) + 1).
Proof.
  intros Hh Hne Hbody Hrest. unfold parseOneChunk.
  rewrite parseHeader_header by done. bind_simpl.
  cbn [length]. destruct (Nat.leb_spec (S (length (body ++ rest))) 1) as [Hle|_].
  { rewrite length_app in Hle. destruct body; [done|simpl in Hle; lia]. }
  cbn [drop]. rewrite drop_0.
  rewrite parseChunkLines_body;
    [|done|done|destruct body; [done|simpl; lia]].
  bind_simpl. cbn [changeContext hasContextLines oldLines newLines isEndOfFile].
  destruct (Nat.eqb_spec (0 + length body + (if eofFollows rest then 1 else 0)) 0)
    as [H0|_]; [destruct body; [done|simpl in H0; lia]|].
  done.
Qed.

Lemma parseOneChunk_reads_hunk_witness :
  parseOneChunk
    ([js "@@ def f():"; js " keep"; js "-old"; js "+new"; js ""]
       ++ [js "*** End of File"; js "@@"])
    1 false
  = Ok (mkChunk (Some (js "def f():")) true
          [js "keep"; js "old"; js ""] [js "keep"; js "new"; js ""] true, 6).
Proof.
  apply (parseOneChunk_reads_hunk (js "@@ def f():")
           [js " keep"; js "-old"; js "+new"; js ""]
           [js "*** End of File"; js "@@"] 1 false).
  - reflexivity.
  - discriminate.
  - repeat constructor.
  - reflexivity.
Defined.

(** X13: when the first line of the lines handed to [parseOneChunk] is a
    content line, the header is missing: the first hunk of a diff is read
    without scope context, any later hunk is rejected with the line number of
    that line. *)
Theorem parseOneChunk_without_header
    (body rest : list jsstring) (lineNumber : nat) (allow : bool) :
  body <> [] ->
  Forall (fun l => isContentLine l = true) body ->
  endsHunk rest ->
  parseOneChunk (body ++ rest) lineNumber allow
  = if allow
    then Ok (chunkOfBody None body (eofFollows rest),
             length body + (if eofFollows rest then 1 else 0))
    else Err (ParseError (ExpectedContextMarker (default [] (head body)))
                         (Some lineNumber)).
Proof.
  intros Hne Hbody Hrest. unfold parseOneChunk.
  destruct body as [|l body]; [done|]. rewrite <- app_comm_cons.
  rewrite parseHeader_content by by inversion Hbody.
  destruct allow; [|done]. bind_simpl.
  destruct (Nat.leb_spec (length (l :: body ++ rest)) 0) as [Hle|_];
    [simpl in Hle; lia|].
  rewrite drop_0, app_comm_cons.
  rewrite parseChunkLines_body; [|done|done|simpl; lia].
  bind_simpl. cbn [changeContext hasContextLines oldLines newLines isEndOfFile].
  destruct (Nat.eqb_spec (0 + length (l :: body) + (if eofFollows rest then 1 else 0)) 0)
    as [H0|_]; [simpl in H0; lia|].
  by rewrite Nat.add_0_r.
Qed.

Lemma parseOneChunk_without_header_witness :
  parseOneChunk ([js "-old"; js "+new"] ++ [js "@@"]) 1 true
  = Ok (mkChunk None false [js "old"] [js "new"] false, 2)
  /\ parseOneChunk ([js "-old"; js "+new"] ++ [js "@@"]) 4 false
     = Err (ParseError (ExpectedContextMarker (js "-old")) (Some 4)).
Proof.
  split.
  - apply (parseOneChunk_without_header [js "-old"; js "+new"] [js "@@"] 1 true).
    + discriminate.
    + repeat constructor.
    + reflexivity.
  - apply (parseOneChunk_without_header [js "-old"; js "+new"] [js "@@"] 4 false).
    + discriminate.
    + repeat constructor.
    + reflexivity.
Defined.

Section DiffGrammar.

Lemma header_not_content (h : jsstring) :
  isHunkHeader h = true -> isContentLine h = false.
Proof.
  intros Hh. destruct (isContentLine h) eqn:Hc; [|done].
  apply contentLine_not_header in Hc. congruence.
Qed.

Lemma header_not_blank (h : jsstring) :
  isHunkHeader h = true -> strEq (trim h) [] = false.
Proof.
  intros Hh. apply strEq_false.
  apply hunkHeader_shape in Hh as [r ->].
  apply (trim_nonempty _ 64%N); [left|reflexivity].
Qed.

Lemma endsHunk_hunks (hs : list Hunk) :
  Forall wellFormedHunk hs ->
  endsHunk (concat (hunkLines <$> hs))
  /\ eofFollows (concat (hunkLines <$> hs)) = false.
Proof.
  destruct 1 as [|h hs (Hh & _) _]; [done|]. simpl.
  split; [by apply header_not_content|by apply header_not_eof].
Qed.

(** A well-formed hunk at the head of the lines is read as its chunk, and
    all its lines are consumed. *)
Lemma parseOneChunk_hunkLines (h : Hunk) (rest : list jsstring)
    (lineNumber : nat) (allow : bool) :
  wellFormedHunk h ->
  endsHunk rest ->
  eofFollows rest = false ->
  parseOneChunk (hunkLines h ++ rest) lineNumber allow
  = Ok (hunkChunk h, length (hunkLines h)).
Proof.
  intros (Hh & Hne & Hbody) Hrest Hnoeof. unfold hunkLines, hunkChunk.
  rewrite <- app_comm_cons, <- (assoc_L (++)).
  set (rest' := (if hunkEof h then [EOF_MARKER] else []) ++ rest).
  assert (endsHunk rest' /\ eofFollows rest' = hunkEof h) as [Hrest' Heof].
  { unfold rest'. by destruct (hunkEof h). }
  unfold parseOneChunk. rewrite parseHeader_header by done. bind_simpl.
  cbn [length].
  destruct (Nat.leb_spec (Datatypes.S (length (hunkBody h ++ rest'))) 1) as [Hle|_].
  { rewrite length_app in Hle. destruct (hunkBody h); [done|simpl in Hle; lia]. }
  cbn [drop]. rewrite drop_0.
  rewrite parseChunkLines_body;
    [|done|done|destruct (hunkBody h); [done|simpl; lia]].
  bind_simpl. rewrite Heof.
  destruct (Nat.eqb_spec (0 + length (hunkBody h) + (if hunkEof h then 1 else 0)) 0)
    as [H0|_]; [destruct (hunkBody h); [done|simpl in H0; lia]|].
  unfold chunkOfBody. simpl. do 2 f_equal. rewrite length_app.
  destruct (hunkEof h); simpl; lia.
Qed.

Lemma parseLoop_hunks (hs : list Hunk) (pre : list jsstring)
    (chunks : list UpdateChunk) (fuel : nat) :
  Forall wellFormedHunk hs ->
  length hs < fuel ->
  parseLoop fuel (pre ++ concat (hunkLines <$> hs)) (length pre) chunks
  = Some (Ok (chunks ++ (hunkChunk <$> hs))).
Proof.
  intros Hwf. revert pre chunks fuel.
  induction Hwf as [|h hs Hh Hhs IH]; intros pre chunks fuel Hfuel.
  - destruct fuel as [|fuel]; [lia|]. simpl.
    rewrite !app_nil_r. by rewrite (proj2 (Nat.leb_le _ _) (Nat.le_refl _)).
  - destruct fuel as [|fuel]; [simpl in Hfuel; lia|]. cbn [parseLoop].
    rewrite fmap_cons. cbn [concat].
    destruct (Nat.leb_spec (length (pre ++ hunkLines h ++ concat (hunkLines <$> hs)))
                (length pre)) as [Hle|_].
    { rewrite length_app in Hle. unfold hunkLines in Hle. simpl in Hle. lia. }
    pose proof Hh as (Hhead & Hne & Hbody).
    assert (lineAt (pre ++ hunkLines h ++ concat (hunkLines <$> hs)) (length pre)
            = hunkHeader h) as ->.
    { unfold lineAt. by rewrite lookup_app_r, Nat.sub_diag by lia. }
    rewrite header_not_blank by done.
    rewrite drop_app_length.
    destruct (endsHunk_hunks hs Hhs) as [Hends Hnoeof].
    rewrite parseOneChunk_hunkLines by done.
    rewrite (assoc_L (++)), <- length_app.
    rewrite IH by (simpl in Hfuel; lia).
    by rewrite <- (assoc_L (++)).
Qed.

End DiffGrammar.

(** X14: a diff whose lines are a sequence of hunks, each a header followed
    by at least one content line and possibly closed by the end-of-file
    marker, parses to the chunks of these hunks, in order. *)
Theorem parseDiffHunks_reads_hunks (diff : jsstring) (hs : list Hunk) :
  Forall wellFormedHunk hs ->
  splitLines diff = concat (hunkLines <$> hs) ->
  parseDiffHunks diff = Some (Ok (hunkChunk <$> hs)).
Proof.
  intros Hwf Hlines. unfold parseDiffHunks. rewrite Hlines.
  apply (parseLoop_hunks hs [] []); [done|].
  clear Hlines. induction Hwf as [|h hs _ _ IH]; [simpl; lia|].
  rewrite fmap_cons. cbn [concat]. rewrite length_app. unfold hunkLines at 1.
  simpl in *. lia.
Qed.

Lemma parseDiffHunks_reads_hunks_witness :
  parseDiffHunks (text ["@@ def f():"; "-old"; "+new"; "*** End of File"; "@@"; " a"; "+b"])
  = Some (Ok [mkChunk (Some (js "def f():")) false [js "old"] [js "new"] true;
              mkChunk None true [js "a"] [js "a"; js "b"] false]).
Proof.
  apply (parseDiffHunks_reads_hunks _
           [mkHunk (js "@@ def f():") [js "-old"; js "+new"] true;
            mkHunk (js "@@") [js " a"; js "+b"] false]).
  - repeat constructor; discriminate.
  - reflexivity.
Defined.

Section BlankLines.

Lemma parseLoop_blank_prefix (blanks rest : list jsstring) (chunks : list UpdateChunk)
    (fuel i : nat) :
  Forall isBlankLine blanks ->
  i <= length blanks ->
  parseLoop (length blanks - i + fuel) (blanks ++ rest) i chunks
  = parseLoop fuel (blanks ++ rest) (length blanks) chunks.
Proof.
  intros Hb Hi. remember (length blanks - i) as n eqn:Hn.
  revert i Hi Hn. induction n as [|n IH]; intros i Hi Hn.
  - by replace i with (length blanks) by lia.
  - cbn [Nat.add parseLoop].
    destruct (Nat.leb_spec (length (blanks ++ rest)) i) as [Hle|_].
    { rewrite length_app in Hle. lia. }
    assert (strEq (trim (lineAt (blanks ++ rest) i)) [] = true) as ->.
    { apply strEq_true. unfold lineAt.
      destruct (lookup_lt_is_Some_2 blanks i) as [l Hl]; [lia|].
      rewrite lookup_app_l, Hl by lia. simpl.
      by apply (Forall_lookup_1 _ _ _ _ Hb Hl). }
    apply IH; lia.
Qed.

Lemma parseLoop_blank (lines : list jsstring) (chunks : list UpdateChunk) :
  Forall isBlankLine lines ->
  parseLoop (S (length lines)) lines 0 chunks = Some (Ok chunks).
Proof.
  intros Hb.
  pose proof (parseLoop_blank_prefix lines [] chunks 1 0 Hb) as H.
  rewrite app_nil_r, Nat.sub_0_r, Nat.add_1_r in H. rewrite H by lia.
  simpl. by rewrite (proj2 (Nat.leb_le _ _) (Nat.le_refl _)).
Qed.

End BlankLines.

(** X15: when the first line of a diff that is not blank is neither a hunk
    header nor a content line, [parseDiffHunks] throws a [ParseError] whose
    line number is that of the line after it: one more than the number of the
    offending line. *)
Theorem parseDiffHunks_reports_line_after_bad_first_line
    (diff : jsstring) (blanks rest : list jsstring) (l : jsstring) :
  splitLines diff = blanks ++ l :: rest ->
  Forall isBlankLine blanks ->
  trim l <> [] ->
  isHunkHeader l = false ->
  isContentLine l = false ->
  parseDiffHunks diff
  = Some (Err (ParseError
                 (if strEq l EOF_MARKER then HunkNoLines else UnexpectedLine l)
                 (Some (length blanks + 2)))).
Proof.
  intros Hlines Hb Hl Hh Hc. unfold parseDiffHunks. rewrite Hlines.
  replace (S (length (blanks ++ l :: rest)))
    with (length blanks - 0 + S (S (length rest)))
    by (rewrite length_app; simpl; lia).
  rewrite parseLoop_blank_prefix by (done || lia).
  cbn [parseLoop].
  destruct (Nat.leb_spec (length (blanks ++ l :: rest)) (length blanks)) as [Hle|_].
  { rewrite length_app in Hle. simpl in Hle. lia. }
  assert (lineAt (blanks ++ l :: rest) (length blanks) = l) as ->.
  { unfold lineAt. by rewrite lookup_app_r, Nat.sub_diag by lia. }
  rewrite (proj2 (strEq_false _ _) Hl), drop_app_length.
  unfold parseOneChunk, parseHeader.
  unfold isHunkHeader in Hh. apply orb_false_elim in Hh as [-> ->].
  simpl negb. cbn match. bind_simpl. rewrite drop_0. cbn [parseChunkLines].
  replace (length blanks + 1 + 1) with (length blanks + 2) by lia.
  destruct (strEq l EOF_MARKER) eqn:He; [done|].
  unfold isContentLine in Hc. rewrite He in Hc. simpl in Hc.
  destruct l as [|c l]; [done|].
  apply orb_false_elim in Hc as [Hc H45]. apply orb_false_elim in Hc as [H32 H43].
  by rewrite H32, H43, H45.
Qed.

Lemma parseDiffHunks_reports_line_after_bad_first_line_witness :
  parseDiffHunks (text [""; "foo"; "+x"])
  = Some (Err (ParseError (UnexpectedLine (js "foo")) (Some 3))).
Proof.
  apply (parseDiffHunks_reports_line_after_bad_first_line
           (text [""; "foo"; "+x"]) [[]] [js "+x"] (js "foo")).
  - reflexivity.
  - repeat constructor.
  - discriminate.
  - reflexivity.
  - reflexivity.
Defined.

(* ===================================================================== *)
(** * Resolution and splicing of the replacements *)
(* ===================================================================== *)

Section Splicing.

Lemma applyReplacements_cons (lines : list jsstring) (r : Replacement)
    (rs : list Replacement) :
  applyReplacements lines (r :: rs)
  = spliceReplacement r (applyReplacements lines rs).
Proof. done. Qed.

Lemma applyReplacements_fits (lines : list jsstring) (rs : list Replacement)
    (pos : nat) :
  fitsFrom pos (length lines) rs ->
  applyReplacements lines rs
  = take pos lines ++ substituteFrom pos (drop pos lines) rs.
Proof.
  revert pos. induction rs as [|r rs IH]; intros pos Hfit.
  - simpl. by rewrite take_drop.
  - destruct Hfit as (Hpos & Hend & Hfit).
    rewrite applyReplacements_cons, (IH _ Hfit). cbn [substituteFrom].
    unfold spliceReplacement.
    rewrite take_app_le by (rewrite length_take; lia).
    rewrite take_take, Nat.min_l by lia.
    rewrite drop_app_length' by (rewrite length_take; lia).
    rewrite drop_drop, (assoc_L (++) (take pos lines)), take_take_drop.
    replace (pos + (startIndex r - pos)) with (startIndex r) by lia.
    by replace (pos + (startIndex r + oldLen r - pos))
      with (startIndex r + oldLen r) by lia.
Qed.

Lemma substituteFrom_length (pos : nat) (suffix : list jsstring)
    (rs : list Replacement) :
  fitsFrom pos (pos + length suffix) rs ->
  length (substituteFrom pos suffix rs) + sum_list (oldLen <$> rs)
  = length suffix + sum_list (length ∘ replacementLines <$> rs).
Proof.
  revert pos suffix. induction rs as [|r rs IH]; intros pos suffix Hfit.
  - simpl. lia.
  - destruct Hfit as (Hpos & Hend & Hfit). cbn [substituteFrom].
    rewrite !fmap_cons. cbn [sum_list sum_list_with]. rewrite !length_app, length_take.
    specialize (IH (startIndex r + oldLen r)
                   (drop (startIndex r + oldLen r - pos) suffix)).
    rewrite length_drop in IH. simpl.
    replace (startIndex r + oldLen r
             + (length suffix - (startIndex r + oldLen r - pos)))
      with (pos + length suffix) in IH by lia.
    specialize (IH Hfit). unfold sum_list in *. lia.
Qed.

End Splicing.

(** X16: replacements that lie one after the other inside the file, without
    overlap, are spliced from the last to the first with the effect of making
    them all at once in the numbering of the original file: the lines between
    them are kept, and the length changes by the lines put in minus the lines
    taken out. *)
Theorem applyReplacements_is_simultaneous
    (lines : list jsstring) (rs : list Replacement) :
  fitsFrom 0 (length lines) rs ->
  applyReplacements lines rs = substituteFrom 0 lines rs
  /\ length (applyReplacements lines rs) + sum_list (oldLen <$> rs)
     = length lines + sum_list (length ∘ replacementLines <$> rs).
Proof.
  intros Hfit. rewrite (applyReplacements_fits lines rs 0 Hfit).
  rewrite take_0, drop_0. split; [done|].
  by apply substituteFrom_length.
Qed.

Lemma applyReplacements_is_simultaneous_witness :
  let lines := [js "a"; js "b"; js "c"; js "d"] in
  let rs := [mkReplacement 0 1 [js "A"; js "A2"]; mkReplacement 2 2 []] in
  applyReplacements lines rs = substituteFrom 0 lines rs
  /\ length (applyReplacements lines rs) + sum_list (oldLen <$> rs)
     = length lines + sum_list (length ∘ replacementLines <$> rs).
Proof.
  apply (applyReplacements_is_simultaneous
           [js "a"; js "b"; js "c"; js "d"]
           [mkReplacement 0 1 [js "A"; js "A2"]; mkReplacement 2 2 []]).
  simpl. lia.
Defined.

Section Resolution.

Lemma seekSequence_any_range (lines pattern : list jsstring) (start : nat)
    (eof : bool) (i : nat) :
  start <= length lines ->
  index (seekSequence lines pattern start eof) = Some i ->
  i + length pattern <= length lines /\ (eof = false -> start <= i).
Proof.
  intros Hs Hi. destruct pattern as [|p pattern].
  - unfold seekSequence in Hi. simpl in Hi. injection Hi as <-. simpl. lia.
  - by apply seekSequence_index_range in Hi.
Qed.

Lemma locateContext_cursor (lines : list jsstring) (path : jsstring) (i : nat)
    (chunk : UpdateChunk) (c : nat) :
  i <= length lines ->
  locateContext lines path i chunk = Ok c ->
  i <= c <= length lines.
Proof.
  intros Hi. unfold locateContext.
  destruct (changeContext chunk) as [ctx|]; [|intros [= <-]; lia].
  destruct (index (seekSequence lines [ctx] i false)) as [idx|] eqn:Hidx; [|done].
  apply seekSequence_index_range in Hidx as [Hr Hs]; [|done].
  specialize (Hs eq_refl). simpl in Hr.
  destruct (head (oldLines chunk)); [destruct (strEq _ _)|];
    intros [= <-]; lia.
Qed.

Lemma endInsertionIndex_le (lines : list jsstring) :
  endInsertionIndex lines <= length lines.
Proof. unfold endInsertionIndex. destruct (endsWithEmptyLine lines); lia. Qed.

Lemma resolveOldLines_fits (lines : list jsstring) (path : jsstring) (i : nat)
    (chunk : UpdateChunk) (c : nat) (r : Replacement) :
  i <= length lines ->
  resolveOldLines lines path i chunk = Ok (c, r) ->
  insideFile (length lines) r /\ c <= length lines
  /\ (plainChunk chunk -> i <= startIndex r /\ c = startIndex r + oldLen r).
Proof.
  intros Hi. unfold resolveOldLines, insideFile, plainChunk.
  destruct (Nat.eqb_spec (length (oldLines chunk)) 0) as [H0|H0].
  { intros [= <- <-]. simpl. fold (endInsertionIndex lines).
    pose proof (endInsertionIndex_le lines).
    split; [lia|split; [done|]]. intros [Hne _]. by destruct (oldLines chunk). }
  destruct (index (seekSequence lines (oldLines chunk) i (isEndOfFile chunk)))
    as [f|] eqn:Hf.
  - intros [= <- <-]. simpl.
    apply seekSequence_any_range in Hf as [Hr Hs]; [|done].
    split; [done|split; [done|]]. intros [_ He]. split; [by apply Hs|done].
  - destruct (endsWithEmptyLine (oldLines chunk)); [|done].
    destruct (index (seekSequence lines (dropLast (oldLines chunk)) i
                       (isEndOfFile chunk))) as [f|] eqn:Hf'; [|done].
    intros [= <- <-]. simpl.
    apply seekSequence_any_range in Hf' as [Hr Hs]; [|done].
    split; [done|split; [done|]]. intros [_ He]. split; [by apply Hs|done].
Qed.

Lemma resolveChunk_fits (lines : list jsstring) (path : jsstring) (i : nat)
    (chunk : UpdateChunk) (c : nat) (r : Replacement) :
  i <= length lines ->
  resolveChunk lines path i chunk = Ok (c, r) ->
  insideFile (length lines) r /\ c <= length lines
  /\ (plainChunk chunk -> i <= startIndex r /\ c = startIndex r + oldLen r).
Proof.
  intros Hi. unfold resolveChunk.
  destruct (locateContext lines path i chunk) as [i'|] eqn:Hloc; [|done].
  bind_simpl. apply locateContext_cursor in Hloc as [Hi1 Hi2]; [|done].
  intros Hres. apply resolveOldLines_fits in Hres as (H1 & H2 & H3); [|done].
  split; [done|split; [done|]]. intros Hp. specialize (H3 Hp). lia.
Qed.

Lemma resolveChunks_fits (lines : list jsstring) (path : jsstring) (i : nat)
    (acc : list Replacement) (chunks : list UpdateChunk) (rs : list Replacement) :
  i <= length lines ->
  resolveChunks lines path i acc chunks = Ok rs ->
  exists rs', rs = acc ++ rs'
    /\ length rs' = length chunks
    /\ Forall (insideFile (length lines)) rs'
    /\ (Forall plainChunk chunks -> fitsFrom i (length lines) rs').
Proof.
  revert i acc. induction chunks as [|chunk chunks IH]; intros i acc Hi.
  - intros [= <-]. exists []. by rewrite app_nil_r.
  - cbn [resolveChunks].
    destruct (resolveChunk lines path i chunk) as [[c r]|] eqn:Hres; [|done].
    bind_simpl. apply resolveChunk_fits in Hres as (H1 & H2 & H3); [|done].
    intros Hrest. apply IH in Hrest as (rs' & -> & Hlen & Hin & Hfit); [|done].
    exists (r :: rs'). rewrite <- (assoc_L (++)). split; [done|].
    split; [simpl; by rewrite Hlen|]. split; [by constructor|].
    intros Hplain. inversion Hplain as [|?? Hp Hps]; subst.
    destruct (H3 Hp) as [Hstart ->]. simpl. unfold insideFile in H1.
    split; [done|split; [done|]]. by apply Hfit.
Qed.

Lemma insertByStart_perm (r : Replacement) (rs : list Replacement) :
  insertByStart r rs ≡ₚ r :: rs.
Proof.
  induction rs as [|r' rs IH]; [done|]. simpl.
  destruct (startIndex r <? startIndex r'); [done|].
  by rewrite IH, Permutation_swap.
Qed.

Lemma sortByStart_perm (rs : list Replacement) : sortByStart rs ≡ₚ rs.
Proof.
  unfold sortByStart. rewrite <- (reverse_Permutation rs) at 2.
  induction (reverse rs) as [|r l IH]; [done|]. simpl.
  by rewrite insertByStart_perm, IH.
Qed.

Lemma insertByStart_last (r : Replacement) (rs : list Replacement) :
  Forall (fun r' => startIndex r' <= startIndex r) rs ->
  insertByStart r rs = rs ++ [r].
Proof.
  induction 1 as [|r' rs Hle _ IH]; [done|]. simpl.
  destruct (Nat.ltb_spec (startIndex r) (startIndex r')); [lia|]. by rewrite IH.
Qed.

Lemma sortByStart_snoc (rs : list Replacement) (r : Replacement) :
  sortByStart (rs ++ [r]) = insertByStart r (sortByStart rs).
Proof. unfold sortByStart. by rewrite reverse_snoc. Qed.

Lemma fitsFrom_starts (pos len : nat) (rs : list Replacement) :
  fitsFrom pos len rs -> Forall (fun r => pos <= startIndex r) rs.
Proof.
  revert pos. induction rs as [|r rs IH]; intros pos; [constructor|].
  intros (H1 & H2 & H3). constructor; [done|].
  eapply Forall_impl; [by apply IH|]. simpl. lia.
Qed.

Lemma fitsFrom_sorted (pos len : nat) (rs : list Replacement) :
  fitsFrom pos len rs ->
  StronglySorted (fun a b => startIndex a <= startIndex b) rs.
Proof.
  revert pos. induction rs as [|r rs IH]; intros pos; [constructor|].
  intros (H1 & H2 & H3). constructor; [by eapply IH|].
  eapply Forall_impl; [by eapply fitsFrom_starts|]. simpl. lia.
Qed.

Lemma sortByStart_sorted (rs : list Replacement) :
  StronglySorted (fun a b => startIndex a <= startIndex b) rs ->
  sortByStart rs = rs.
Proof.
  induction rs as [|r rs IH] using rev_ind; [done|].
  intros Hs. apply StronglySorted_app in Hs as (Hs2 & Hs1 & _).
  rewrite sortByStart_snoc, (IH Hs1). apply insertByStart_last.
  apply Forall_forall. intros r' Hr'. apply (Hs2 r' r Hr'). by left.
Qed.

End Resolution.

(** X17: every replacement recorded by [computeReplacements] lies inside
    the file, one for each chunk: the splices never reach past the last
    line. *)
Theorem computeReplacements_inside_file
    (originalLines : list jsstring) (path : jsstring) (chunks : list UpdateChunk)
    (rs : list Replacement) :
  computeReplacements originalLines path chunks = Ok rs ->
  length rs = length chunks
  /\ Forall (insideFile (length originalLines)) rs.
Proof.
  unfold computeReplacements.
  destruct (resolveChunks originalLines path 0 [] chunks) as [rs0|] eqn:Hres; [|done].
  bind_simpl. intros [= <-].
  apply resolveChunks_fits in Hres as (rs' & -> & Hlen & Hin & _); [|lia].
  simpl. rewrite sortByStart_perm. done.
Qed.

Lemma computeReplacements_inside_file_witness :
  length [mkReplacement 1 2 [js "return 2;"; js "}"]] = length [mkChunk None true samplePattern [js "return 2;"; js "}"] false]
  /\ Forall (insideFile (length sampleHaystack))
       [mkReplacement 1 2 [js "return 2;"; js "}"]].
Proof.
  apply (computeReplacements_inside_file sampleHaystack (js "f")
           [mkChunk None true samplePattern [js "return 2;"; js "}"] false]).
  vm_compute. reflexivity.
Defined.

(** X18: for chunks that all have old lines and are not bound to the end
    of the file, [computeReplacements] records the replacements in ascending
    order and without overlap, so that sorting changes nothing and the splices
    amount to making all of them at once. *)
Theorem computeReplacements_ascending
    (originalLines : list jsstring) (path : jsstring) (chunks : list UpdateChunk)
    (rs : list Replacement) :
  Forall plainChunk chunks ->
  computeReplacements originalLines path chunks = Ok rs ->
  resolveChunks originalLines path 0 [] chunks = Ok rs
  /\ fitsFrom 0 (length originalLines) rs
  /\ applyReplacements originalLines rs = substituteFrom 0 originalLines rs.
Proof.
  intros Hplain. unfold computeReplacements.
  destruct (resolveChunks originalLines path 0 [] chunks) as [rs0|] eqn:Hres; [|done].
  bind_simpl. intros [= <-].
  apply resolveChunks_fits in Hres as (rs' & -> & _ & _ & Hfit); [|lia].
  specialize (Hfit Hplain). simpl.
  rewrite (sortByStart_sorted rs') by by eapply fitsFrom_sorted.
  split; [done|split; [done|]].
  rewrite (applyReplacements_fits _ _ 0 Hfit). by rewrite take_0, drop_0.
Qed.

Lemma computeReplacements_ascending_witness :
  let chunks := [mkChunk None true [js "a"] [js "A"] false;
                 mkChunk (Some (js "c")) false [js "d"] [] false] in
  let lines := [js "a"; js "b"; js "c"; js "d"] in
  let rs := [mkReplacement 0 1 [js "A"]; mkReplacement 3 1 []] in
  resolveChunks lines (js "f") 0 [] chunks = Ok rs
  /\ fitsFrom 0 (length lines) rs
  /\ applyReplacements lines rs = substituteFrom 0 lines rs.
Proof.
  apply (computeReplacements_ascending
           [js "a"; js "b"; js "c"; js "d"] (js "f")
           [mkChunk None true [js "a"] [js "A"] false;
            mkChunk (Some (js "c")) false [js "d"] [] false]).
  - repeat constructor; discriminate.
  - vm_compute. reflexivity.
Defined.

Section HunkPath.

Lemma applyHunks_unfold (content path : jsstring) (chunks : list UpdateChunk) :
  applyHunks content path chunks
  = (replacements ← computeReplacements (linesOfFile content) path chunks;
     Ok (joinLines (withFinalEmptyLine
                      (applyReplacements (linesOfFile content) replacements)))).
Proof. done. Qed.

End HunkPath.

Section HunkPathLines.

Lemma splitLines_line (l : jsstring) : 10%N ∉ l -> splitLines l = [l].
Proof.
  induction l as [|c l IH]; [done|]. intros Hc. simpl.
  destruct (N.eqb_spec c 10) as [->|_]; [by destruct Hc; left|].
  rewrite IH; [done|]. intros H. apply Hc. by right.
Qed.

Lemma splitLines_app_newline (l s : jsstring) :
  10%N ∉ l -> splitLines (l ++ 10%N :: s) = l :: splitLines s.
Proof.
  induction l as [|c l IH]; [done|]. intros Hc. simpl.
  destruct (N.eqb_spec c 10) as [->|_]; [by destruct Hc; left|].
  rewrite IH; [done|]. intros H. apply Hc. by right.
Qed.

(** Splitting the text joined from lines without newline gives the lines
    back. *)
Lemma splitLines_joinLines (ls : list jsstring) :
  ls <> [] -> Forall (fun l => 10%N ∉ l) ls -> splitLines (joinLines ls) = ls.
Proof.
  induction ls as [|l ls IH]; [done|]. intros _ Hall.
  apply Forall_cons in Hall as [Hl Hall].
  destruct ls as [|l' ls']; [by apply splitLines_line|].
  change (joinLines (l :: l' :: ls')) with (l ++ 10%N :: joinLines (l' :: ls')).
  rewrite splitLines_app_newline by done. by rewrite IH.
Qed.

Lemma linesOfFile_joinLines (ls : list jsstring) :
  ls <> [] -> Forall (fun l => 10%N ∉ l) ls ->
  linesOfFile (joinLines ls ++ [10%N]) = ls.
Proof.
  intros Hne Hall. unfold linesOfFile.
  rewrite <- (joinLines_snoc ls []) by done.
  rewrite splitLines_joinLines.
  - unfold endsWithEmptyLine, dropLast. rewrite last_snoc, strEq_refl.
    rewrite length_app. simpl.
    replace (length ls + 1 - 1) with (length ls) by lia.
    by rewrite take_app_length.
  - by destruct ls.
  - apply Forall_app. split; [done|]. constructor; [|done].
    by intros ?%elem_of_nil.
Qed.

(** The text of lines to which a final empty line is ensured. *)
Lemma joinLines_withFinalEmptyLine (ls : list jsstring) :
  joinLines (withFinalEmptyLine ls)
  = match last ls with
    | None => []
    | Some [] => joinLines ls
    | Some _ => joinLines ls ++ [10%N]
    end.
Proof.
  unfold withFinalEmptyLine, endsWithEmptyLine.
  destruct ls as [|x ls] using rev_ind; [done|]. clear IHls.
  rewrite last_snoc, length_app. simpl.
  replace (length ls + 1 =? 0) with false by (symmetry; apply Nat.eqb_neq; lia).
  destruct x as [|c x]; [done|]. simpl.
  rewrite (joinLines_snoc (ls ++ [c :: x]) []); [done|]. by destruct ls.
Qed.

(** A hunk whose old lines stand verbatim at line [p], and nowhere before,
    is spliced in there. *)
Lemma applyHunks_first_occurrence (content path : jsstring) (chunk : UpdateChunk)
    (p : nat) :
  changeContext chunk = None ->
  isEndOfFile chunk = false ->
  oldLines chunk <> [] ->
  p + length (oldLines chunk) <= length (linesOfFile content) ->
  matchesAt (linesOfFile content) (oldLines chunk) p cmpExact = true ->
  (forall j, j < p -> matchesAt (linesOfFile content) (oldLines chunk) j cmpExact = false) ->
  applyHunks content path [chunk]
  = Ok (joinLines
          (withFinalEmptyLine
             (take p (linesOfFile content) ++ newLines chunk
                ++ drop (p + length (oldLines chunk)) (linesOfFile content)))).
Proof.
  intros Hctx Heof Hne Hp Hm Hfirst.
  rewrite applyHunks_unfold. unfold computeReplacements.
  cbn [resolveChunks]. unfold resolveChunk, locateContext. rewrite Hctx. bind_simpl.
  unfold resolveOldLines.
  destruct (Nat.eqb_spec (length (oldLines chunk)) 0) as [H0|_];
    [by destruct (oldLines chunk)|].
  rewrite Heof.
  assert (seekSequence (linesOfFile content) (oldLines chunk) 0 false
          = mkSeek (Some p) 1%Q) as ->.
  { rewrite seekSequence_cases by (done || lia).
    assert (strictPass (linesOfFile content) (oldLines chunk) 0 false cmpExact
            = Some p) as ->; [|done].
    apply firstFrom_Some. unfold searchStartOf, maxStartOf.
    split; [lia|]. split; [done|]. intros j Hj. apply Hfirst. lia. }
  cbn [index]. bind_simpl. cbn [app].
  by rewrite (sortByStart_sorted [_]) by repeat constructor.
Qed.

End HunkPathLines.


(** X19: a single hunk without scope line and end-of-file marker, applied
    to a file that ends with a newline and whose lines hold the old lines of
    the hunk verbatim, replaces the first occurrence of the old lines by the
    new lines and leaves the lines before and after it as they are.  The
    result ends with one newline, with two exceptions: a last line that is
    empty is taken as that newline, so that a file whose last line is blank
    loses the blank line; and a file of which no line is left becomes the
    empty text. *)
Theorem applyDiffToContent_replaces_first_occurrence
    (normalizeToLF : jsstring -> jsstring)
    (adjust : jsstring -> jsstring -> jsstring -> jsstring)
    (fuzzyFind : jsstring -> jsstring -> MatchOutcome)
    (path : jsstring) (chunk : UpdateChunk) (before after : list jsstring) :
  changeContext chunk = None ->
  hasContextLines chunk = true ->
  isEndOfFile chunk = false ->
  oldLines chunk <> [] ->
  let lines := before ++ oldLines chunk ++ after in
  let result := before ++ newLines chunk ++ after in
  Forall (fun l => 10%N ∉ l) lines ->
  (forall j, j < length before -> matchesAt lines (oldLines chunk) j cmpExact = false) ->
  applyDiffToContent normalizeToLF adjust fuzzyFind
    (joinLines lines ++ [10%N]) path [chunk]
  = Ok (match last result with
        | None => []
        | Some [] => joinLines result
        | Some _ => joinLines result ++ [10%N]
        end).
Proof.
  intros Hctx Hhas Heof Hne lines result Hnl Hfirst.
  unfold applyDiffToContent, isSimpleReplace. rewrite Hctx, Hhas. simpl.
  assert (Hlines : linesOfFile (joinLines lines ++ [10%N]) = lines).
  { apply linesOfFile_joinLines; [|done]. unfold lines.
    destruct before; [|done]. by destruct (oldLines chunk). }
  assert (Hm : matchesAt lines (oldLines chunk) (length before) cmpExact = true).
  { unfold matchesAt. apply matchesFrom_iff. intros j p Hj.
    apply strEq_true. unfold lineAt, lines.
    rewrite lookup_app_r by lia.
    replace (length before + j - length before) with j by lia.
    by rewrite (lookup_app_l_Some _ _ _ _ Hj). }
  rewrite (applyHunks_first_occurrence _ _ _ (length before)); rewrite ?Hlines;
    try done.
  - rewrite joinLines_withFinalEmptyLine. unfold lines.
    by rewrite take_app_length, <- drop_drop, !drop_app_length.
  - unfold lines. rewrite !length_app. lia.
Qed.

(** The file [a], [x] and a blank line: the hunk that replaces [x] by [y]
    leaves no blank line. *)
Lemma applyDiffToContent_replaces_first_occurrence_witness :
  applyDiffToContent keepLineEndings keepIndentation noFuzzyMatch
    (text ["a"; "x"; ""; ""]) (js "f")
    [mkChunk None true [js "a"; js "x"] [js "a"; js "y"] false]
  = Ok (text ["a"; "y"; ""]).
Proof.
  apply (applyDiffToContent_replaces_first_occurrence
           keepLineEndings keepIndentation noFuzzyMatch (js "f")
           (mkChunk None true [js "a"; js "x"] [js "a"; js "y"] false) [] [[]]).
  - reflexivity.
  - reflexivity.
  - reflexivity.
  - discriminate.
  - repeat constructor; compute_done.
  - intros j Hj. simpl in Hj. lia.
Defined.

(** X20: whatever the helpers of the character-level matcher do, a text
    produced by [applyDiffToContent] is empty or ends with a newline; on the
    whole-text replacement path it always ends with a newline. *)
Theorem applyDiffToContent_result_ends_with_newline
    (normalizeToLF : jsstring -> jsstring)
    (adjust : jsstring -> jsstring -> jsstring -> jsstring)
    (fuzzyFind : jsstring -> jsstring -> MatchOutcome)
    (content path : jsstring) (chunks : list UpdateChunk) (r : jsstring) :
  applyDiffToContent normalizeToLF adjust fuzzyFind content path chunks = Ok r ->
  (r = [] \/ endsWithNewline r = true)
  /\ (forall chunk, chunks = [chunk] -> isSimpleReplace chunk = true ->
        endsWithNewline r = true).
Proof.
  intros Hr. split.
  - unfold applyDiffToContent in Hr.
    destruct chunks as [|chunk [|]];
      [by eapply applyHunks_newline_or_empty| |by eapply applyHunks_newline_or_empty].
    destruct (isSimpleReplace chunk);
      [right; by eapply applySimpleReplace_ends_with_newline
      |by eapply applyHunks_newline_or_empty].
  - intros chunk -> Hs. unfold applyDiffToContent in Hr. rewrite Hs in Hr.
    by eapply applySimpleReplace_ends_with_newline.
Qed.

Lemma applyDiffToContent_result_ends_with_newline_witness :
  (text ["a"; "B"; ""] = [] \/ endsWithNewline (text ["a"; "B"; ""]) = true)
  /\ (forall chunk, [mkChunk None false [js "b"] [js "B"] false] = [chunk] ->
        isSimpleReplace chunk = true ->
        endsWithNewline (text ["a"; "B"; ""]) = true).
Proof.
  apply (applyDiffToContent_result_ends_with_newline
           keepLineEndings keepIndentation noFuzzyMatch
           (text ["a"; "b"; ""]) (js "f")
           [mkChunk None false [js "b"] [js "B"] false]).
  vm_compute. reflexivity.
Defined.

(* ===================================================================== *)
(** * The patch operations *)
(* ===================================================================== *)

Section PatchOperations.

Context (normalizeToLF : jsstring -> jsstring)
        (adjust : jsstring -> jsstring -> jsstring -> jsstring)
        (fuzzyFind : jsstring -> jsstring -> MatchOutcome)
        (dirname : jsstring -> jsstring).
Context {S E : Type} `{!FileSystem S E}.

Local Abbreviation run := (applyPatch normalizeToLF adjust fuzzyFind dirname).
Local Abbreviation applyDiff := (applyDiffToContent normalizeToLF adjust fuzzyFind).

Lemma io_bind_run {A B : Type} (m : IO S E A) (k : A -> IO S E B) (s : S) :
  (m ≫= k) s
  = match m s with
    | (Ok a, s') => k a s'
    | (Err e, s') => (Err e, s')
    end.
Proof. done. Qed.

Lemma await_fsExists `{!FileSystemLaws S E} (p : jsstring) (s : S) :
  await (fsExists p) s = (outcome (fsExists p s).1, s).
Proof.
  unfold await. pose proof (exists_pure p s) as H.
  destruct (fsExists p s) as [[b|e] s1]; simpl in *; by subst.
Qed.

Lemma await_fsRead `{!FileSystemLaws S E} (p : jsstring) (s : S) :
  await (fsRead p) s = (outcome (fsRead p s).1, s).
Proof.
  unfold await. pose proof (read_pure p s) as H.
  destruct (fsRead p s) as [[b|e] s1]; simpl in *; by subst.
Qed.

Lemma await_Ok {A : Type} (op : S -> result E A * S) (s s' : S) (a : A) :
  await op s = (Ok a, s') -> op s = (Ok a, s').
Proof.
  unfold await. destruct (op s) as [[b|e] s1]; intros [= <- <-]; done.
Qed.

Lemma parseDiffHunks_total (d : jsstring) : parseDiffHunks d = Some (parsedHunks d).
Proof.
  unfold parsedHunks.
  destruct (parseLoop_total (Datatypes.S (length (splitLines d))) (splitLines d) 0 [])
    as [r Hr]; [lia|].
  unfold parseDiffHunks. by rewrite Hr.
Qed.

Lemma ensureParent_frame `{!FileSystemLaws S E} (path : jsstring) (s s' : S) (q : jsstring) :
  ensureParent dirname path s = (Ok tt, s') -> sameFile q s s'.
Proof.
  unfold ensureParent. destruct (_ && _).
  - intros Hmk%await_Ok. by eapply mkdir_frame.
  - intros [= <-]. done.
Qed.


Lemma fsOnly_await {A : Type} (op : S -> result E A * S) : fsOnly (await op).
Proof.
  intros s e s'. unfold await. destruct (op s) as [[a|fe] s1]; [done|].
  intros [= <- <-]. by eexists.
Qed.

Lemma fsOnly_ret {A : Type} (a : A) : fsOnly (mret a : IO S E A).
Proof. by intros s e s'. Qed.

Lemma fsOnly_bind {A B : Type} (m : IO S E A) (k : A -> IO S E B) :
  fsOnly m -> (forall a, fsOnly (k a)) -> fsOnly (m ≫= k).
Proof.
  intros Hm Hk s e s'. rewrite io_bind_run.
  destruct (m s) as [[a|e1] s1] eqn:Hms.
  - apply Hk.
  - intros [= <- <-]. by eapply Hm.
Qed.

Lemma fsOnly_ensureParent (path : jsstring) : fsOnly (ensureParent dirname path).
Proof.
  unfold ensureParent. destruct (_ && _); [apply fsOnly_await|apply fsOnly_ret].
Qed.

(** The end of a run: the writes, then the change is returned. *)
Lemma writes_then_return (m : IO S E unit) (change : FileChange) (s : S)
    (r : result (PatchFailure E) FileChange) (s' : S) :
  fsOnly m ->
  (m ≫= fun _ => mret change) s = (r, s') ->
  (r = Ok change /\ m s = (Ok tt, s'))
  \/ exists fe, r = Err (FileSystemFailure fe).
Proof.
  intros Hm. rewrite io_bind_run. destruct (m s) as [[[]|e] s1] eqn:Hms.
  - intros [= <- <-]. by left.
  - intros [= <- <-]. right. destruct (Hm _ _ _ Hms) as [fe ->]. by eexists.
Qed.

(** A dry run leaves the state as it is; when it throws, so does the real
    run, before any write; when it returns, the real run returns the same
    change or throws what the file system throws. *)
Lemma applyPatch_dry `{!FileSystemLaws S E} (input : PatchInput) (cwd : jsstring) (s : S) :
  exists r, run input cwd true s = (r, s)
    /\ match r with
       | Err e => run input cwd false s = (Err e, s)
       | Ok change =>
           forall r' s', run input cwd false s = (r', s') ->
             r' = Ok change \/ exists fe, r' = Err (FileSystemFailure fe)
       end.
Proof.
  unfold applyPatch. destruct (operation input).
  - destruct (truthy (diff input)) as [d|]; [|by eexists].
    eexists. split; [reflexivity|]. intros r' s' Hr.
    apply writes_then_return in Hr as [[-> _]|?]; [by left|by right|].
    apply fsOnly_bind; [apply fsOnly_ensureParent|intros; apply fsOnly_await].
  - rewrite !io_bind_run, !await_fsExists.
    destruct (fsExists _ s).1 as [[|]|e]; simpl; [| |by eexists].
    2:{ eexists. split; [reflexivity|]. intros r' s' [= <- <-]. by left. }
    rewrite !io_bind_run, !await_fsRead.
    destruct (fsRead _ s).1 as [c|e]; simpl; [|by eexists].
    eexists. split; [reflexivity|]. intros r' s'. rewrite !io_bind_run.
    destruct (await _ _) as [[[]|e] s1] eqn:Hd.
    + intros [= <- <-]. by left.
    + intros [= <- <-]. right. destruct (fsOnly_await _ _ _ _ Hd) as [fe ->].
      by eexists.
  - destruct (truthy (diff input)) as [d|]; [|by eexists].
    rewrite !io_bind_run, !await_fsExists.
    destruct (fsExists _ s).1 as [[|]|e]; simpl; [|by eexists..].
    rewrite !io_bind_run, !await_fsRead.
    destruct (fsRead _ s).1 as [c|e]; simpl; [|by eexists].
    rewrite !io_bind_run. unfold call at 1 3.
    destruct (parsedHunks d) as [chunks|e]; simpl; [|by eexists].
    destruct (length chunks =? 0); [by eexists|].
    rewrite !io_bind_run. unfold call.
    destruct (applyDiff c (inputPath input) chunks) as [new|e]; simpl; [|by eexists].
    eexists. split; [reflexivity|]. intros r' s' Hr.
    apply writes_then_return in Hr as [[-> _]|?]; [by left|by right|].
    destruct (truthy (moveTo input)); [|apply fsOnly_await].
    apply fsOnly_bind; [apply fsOnly_ensureParent|intros _].
    apply fsOnly_bind; intros; apply fsOnly_await.
Qed.

Lemma truthy_Some (o : option jsstring) (v : jsstring) :
  truthy o = Some v -> o = Some v /\ v <> [].
Proof. destruct o as [[|c w]|]; [done| |done]. by intros [= <-]. Qed.

Lemma sameFile_refl (q : jsstring) (s : S) : sameFile q s s.
Proof. done. Qed.

Lemma sameFile_trans (q : jsstring) (s1 s2 s3 : S) :
  sameFile q s1 s2 -> sameFile q s2 s3 -> sameFile q s1 s3.
Proof. intros [H1 H2] [H3 H4]. split; congruence. Qed.

Lemma ensured_newline (d : jsstring) :
  endsWithNewline (if endsWithNewline d then d else d ++ [10%N]) = true.
Proof.
  destruct (endsWithNewline d) eqn:Hd; [done|]. apply endsWithNewline_snoc.
Qed.

(** A successful update, step by step. *)
Lemma applyPatch_update_run `{!FileSystemLaws S E} (input : PatchInput) (cwd : jsstring)
    (s s' : S) (change : FileChange) :
  operation input = Update ->
  run input cwd false s = (Ok change, s') ->
  let path := resolvePath cwd (inputPath input) in
  let dest := destinationOf cwd path input in
  exists d old chunks new,
    diff input = Some d /\ d <> []
    /\ (fsExists path s).1 = Ok true
    /\ (fsRead path s).1 = Ok old
    /\ parseDiffHunks d = Some (Ok chunks)
    /\ chunks <> []
    /\ applyDiff old (inputPath input) chunks = Ok new
    /\ change = mkFileChange Update path
                  (match truthy (moveTo input) with
                   | Some _ => Some dest
                   | None => None
                   end)
                  (Some old) (Some new)
    /\ updateWrites dirname dest path new (bool_decide (is_Some (truthy (moveTo input)))) s
       = (Ok tt, s').
Proof.
  intros Hop. unfold applyPatch. rewrite Hop.
  destruct (truthy (diff input)) as [d|] eqn:Hd; [|done].
  apply truthy_Some in Hd as [Hd Hne].
  rewrite !io_bind_run, !await_fsExists.
  destruct (fsExists _ s).1 as [[|]|e] eqn:Hex; simpl; [|done..].
  rewrite !io_bind_run, !await_fsRead.
  destruct (fsRead _ s).1 as [old|e] eqn:Hrd; simpl; [|done].
  rewrite !io_bind_run. unfold call at 1.
  pose proof (parseDiffHunks_total d) as Hparse.
  destruct (parsedHunks d) as [chunks|e]; simpl; [|done].
  destruct (Nat.eqb_spec (length chunks) 0) as [|Hlen]; [done|].
  rewrite !io_bind_run. unfold call.
  destruct (applyDiff old (inputPath input) chunks) as [new|e] eqn:Happ; simpl; [|done].
  intros Hrun. apply writes_then_return in Hrun as [[Hc Hw]|[fe [=]]].
  2:{ destruct (truthy (moveTo input)); [|apply fsOnly_await].
      apply fsOnly_bind; [apply fsOnly_ensureParent|intros _].
      apply fsOnly_bind; intros; apply fsOnly_await. }
  injection Hc as Hc. subst change. exists d, old, chunks, new.
  repeat (split; [done || by destruct chunks|]).
  unfold updateWrites. by destruct (truthy (moveTo input)).
Qed.

End PatchOperations.

#[global] Instance memoryFileSystem_laws :
  FileSystemLaws (gmap jsstring jsstring) MemoryError.
Proof.
  split.
  - done.
  - intros p s. simpl. by destruct (s !! p).
  - intros p c s s' q [= <-] Hq. unfold sameFile. simpl.
    rewrite !lookup_insert_ne by done. by destruct (s !! q).
  - intros p s s'. simpl. destruct (s !! p); [|done]. intros [= <-].
    rewrite lookup_delete_eq. by rewrite bool_decide_eq_false_2 by by intros [].
  - intros p s s' q. simpl. destruct (s !! p); [|done]. intros [= <-] Hq.
    unfold sameFile. simpl. rewrite !lookup_delete_ne by done.
    by destruct (s !! q).
  - intros d s s' q [= <-]. done.
Qed.

(** The file system held in memory stores what is written as it is. *)
Lemma memoryFileSystem_stores_writes :
  storesWrites (gmap jsstring jsstring) MemoryError.
Proof.
  intros p c s s' [= <-]. simpl. rewrite lookup_insert_eq. split; [done|].
  rewrite bool_decide_eq_true_2; [done|by eexists].
Qed.

Local Abbreviation sampleRun :=
  (applyPatch keepLineEndings keepIndentation noFuzzyMatch sampleDirname).
Local Abbreviation samplePreview :=
  (previewPatch keepLineEndings keepIndentation noFuzzyMatch sampleDirname).

(** X21: [previewPatch] leaves the file system as it is; the change it
    reports is the change [applyPatch] makes when it succeeds, and when it
    throws, [applyPatch] throws the same before any write. *)
Theorem previewPatch_is_a_faithful_dry_run
    (normalizeToLF : jsstring -> jsstring)
    (adjust : jsstring -> jsstring -> jsstring -> jsstring)
    (fuzzyFind : jsstring -> jsstring -> MatchOutcome)
    (dirname : jsstring -> jsstring)
    {S E : Type} `{!FileSystem S E} `{!FileSystemLaws S E}
    (input : PatchInput) (cwd : jsstring) (s : S) :
  let preview := previewPatch normalizeToLF adjust fuzzyFind dirname input cwd s in
  let real := applyPatch normalizeToLF adjust fuzzyFind dirname input cwd false s in
  preview.2 = s
  /\ (forall change, real.1 = Ok change -> preview.1 = Ok change)
  /\ (forall e, preview.1 = Err e -> real = (Err e, s)).
Proof.
  intros preview real. subst preview real. unfold previewPatch.
  destruct (applyPatch_dry normalizeToLF adjust fuzzyFind dirname input cwd s)
    as (r & -> & Hr).
  split; [done|]. simpl. split.
  - intros change Hc. destruct r as [c|e].
    + destruct (applyPatch _ _ _ _ input cwd false s) as [r' s'] eqn:Hreal.
      simpl in Hc. subst r'.
      destruct (Hr _ _ eq_refl) as [?|[fe ?]]; [done|done].
    + rewrite Hr in Hc. done.
  - intros e ->. done.
Qed.

Lemma previewPatch_is_a_faithful_dry_run_witness :
  let preview := samplePreview sampleUpdate (js "/w") sampleFiles in
  let real := sampleRun sampleUpdate (js "/w") false sampleFiles in
  preview.2 = sampleFiles
  /\ (forall change, real.1 = Ok change -> preview.1 = Ok change)
  /\ (forall e, preview.1 = Err e -> real = (Err e, sampleFiles)).
Proof.
  apply (previewPatch_is_a_faithful_dry_run
           keepLineEndings keepIndentation noFuzzyMatch sampleDirname
           sampleUpdate (js "/w") sampleFiles).
Defined.

(** X22: when [applyPatch] throws an error of its own, of the parser or of
    the applicator, and not one of the file system, the file system is as it
    was: every such error comes before the first write. *)
Theorem applyPatch_own_failure_changes_nothing
    (normalizeToLF : jsstring -> jsstring)
    (adjust : jsstring -> jsstring -> jsstring -> jsstring)
    (fuzzyFind : jsstring -> jsstring -> MatchOutcome)
    (dirname : jsstring -> jsstring)
    {S E : Type} `{!FileSystem S E} `{!FileSystemLaws S E}
    (input : PatchInput) (cwd : jsstring) (dryRun : bool) (s s' : S)
    (e : PatchFailure E) :
  applyPatch normalizeToLF adjust fuzzyFind dirname input cwd dryRun s = (Err e, s') ->
  (forall fe, e <> FileSystemFailure fe) ->
  s' = s.
Proof.
  intros Hrun He.
  destruct (applyPatch_dry normalizeToLF adjust fuzzyFind dirname input cwd s)
    as (r & Hdry & Hr).
  destruct dryRun; [congruence|].
  destruct r as [c|e'].
  - destruct (Hr _ _ Hrun) as [?|[fe [= ->]]]; [done|]. by destruct (He fe).
  - congruence.
Qed.

Lemma applyPatch_own_failure_changes_nothing_witness :
  sampleFiles = sampleFiles.
Proof.
  apply (applyPatch_own_failure_changes_nothing
           keepLineEndings keepIndentation noFuzzyMatch sampleDirname
           (mkPatchInput (js "a.txt") Update None (Some (text ["@@"; "-zzz"; "+y"])))
           (js "/w") false sampleFiles sampleFiles
           (DiffFailure
              (ApplyPatchError (FailedToFindExpectedLines (js "a.txt") [js "zzz"])))).
  - vm_compute. reflexivity.
  - discriminate.
Defined.

(** X23: a successful create needs a diff that is not empty; the run
    creates the parent directory when the path has one and then writes, to
    the resolved path, the diff with a final newline added when it had none,
    whether or not a file was there before; every other path is as it was.
    The file holds that content afterwards on a file system that stores what
    is written as it is; a file system that formats on write, which the
    interface allows, may hold something else. *)
Theorem applyPatch_create_writes_content
    (normalizeToLF : jsstring -> jsstring)
    (adjust : jsstring -> jsstring -> jsstring -> jsstring)
    (fuzzyFind : jsstring -> jsstring -> MatchOutcome)
    (dirname : jsstring -> jsstring)
    {S E : Type} `{!FileSystem S E} `{!FileSystemLaws S E}
    (input : PatchInput) (cwd : jsstring) (s s' : S) (change : FileChange) :
  operation input = Create ->
  applyPatch normalizeToLF adjust fuzzyFind dirname input cwd false s
  = (Ok change, s') ->
  let path := resolvePath cwd (inputPath input) in
  exists d,
    diff input = Some d /\ d <> []
    /\ let content := if endsWithNewline d then d else d ++ [10%N] in
       change = mkFileChange Create path None None (Some content)
       /\ endsWithNewline content = true
       /\ (exists s1, ensureParent dirname path s = (Ok tt, s1)
                      /\ fsWrite path content s1 = (Ok tt, s'))
       /\ (forall q, q <> path -> sameFile q s s')
       /\ (storesWrites S E ->
           (fsRead path s').1 = Ok content /\ (fsExists path s').1 = Ok true).
Proof.
  intros Hop. unfold applyPatch. rewrite Hop.
  destruct (truthy (diff input)) as [d|] eqn:Hd; [|done].
  apply truthy_Some in Hd as [Hd Hne]. intros Hrun.
  apply writes_then_return in Hrun as [[Hc Hw]|[fe [=]]].
  2:{ apply fsOnly_bind; [apply fsOnly_ensureParent|intros; apply fsOnly_await]. }
  injection Hc as Hc. subst change. exists d. split; [done|split; [done|]].
  cbv zeta. split; [done|]. split; [apply ensured_newline|].
  rewrite io_bind_run in Hw.
  destruct (ensureParent dirname _ s) as [[[]|?] s1] eqn:Hmk; [|done].
  apply await_Ok in Hw.
  split; [by exists s1|]. split.
  - intros q Hq.
    eapply sameFile_trans; [by eapply ensureParent_frame|by eapply write_frame].
  - intros Hstore. by eapply Hstore.
Qed.

Lemma applyPatch_create_writes_content_witness :
  let s' := <[js "/w/new.txt" := text ["hello"; ""]]> sampleFiles in
  let path := resolvePath (js "/w") (inputPath sampleCreate) in
  let content := text ["hello"; ""] in
  (exists s1, ensureParent sampleDirname path sampleFiles = (Ok tt, s1)
              /\ fsWrite path content s1 = (Ok tt, s'))
  /\ (forall q, q <> path -> sameFile q sampleFiles s')
  /\ (fsRead path s').1 = Ok content
  /\ (fsExists path s').1 = Ok true.
Proof.
  intros s' path content.
  destruct (applyPatch_create_writes_content
              keepLineEndings keepIndentation noFuzzyMatch sampleDirname
              sampleCreate (js "/w") sampleFiles s'
              (mkFileChange Create path None None (Some content)))
    as (d & Hd & _ & _ & _ & Hw & Hframe & Hread);
    [reflexivity|vm_compute; reflexivity|].
  injection Hd as <-.
  split; [exact Hw|]. split; [exact Hframe|].
  apply Hread, memoryFileSystem_stores_writes.
Defined.

(** X24: deleting a path where no file exists succeeds without touching
    the file system and reports no old content; deleting a file reports its
    content, after which the file does not exist and every other path is as
    it was. *)
Theorem applyPatch_delete_removes_file
    (normalizeToLF : jsstring -> jsstring)
    (adjust : jsstring -> jsstring -> jsstring -> jsstring)
    (fuzzyFind : jsstring -> jsstring -> MatchOutcome)
    (dirname : jsstring -> jsstring)
    {S E : Type} `{!FileSystem S E} `{!FileSystemLaws S E}
    (input : PatchInput) (cwd : jsstring) (s : S) :
  operation input = Delete ->
  let path := resolvePath cwd (inputPath input) in
  ((fsExists path s).1 = Ok false ->
   forall dryRun,
     applyPatch normalizeToLF adjust fuzzyFind dirname input cwd dryRun s
     = (Ok (mkFileChange Delete path None None None), s))
  /\ ((fsExists path s).1 = Ok true ->
      forall change s',
        applyPatch normalizeToLF adjust fuzzyFind dirname input cwd false s
        = (Ok change, s') ->
        exists c,
          (fsRead path s).1 = Ok c
          /\ change = mkFileChange Delete path None (Some c) None
          /\ (fsExists path s').1 = Ok false
          /\ forall q, q <> path -> sameFile q s s').
Proof.
  intros Hop path. unfold applyPatch. rewrite Hop. fold path. split.
  - intros Hex dryRun. by rewrite !io_bind_run, !await_fsExists, Hex.
  - intros Hex change s'. rewrite !io_bind_run, !await_fsExists, Hex. simpl.
    rewrite !io_bind_run, await_fsRead.
    destruct (fsRead path s).1 as [c|e]; [|done]. simpl.
    rewrite io_bind_run.
    destruct (await (fsDelete path) s) as [[[]|?] s1] eqn:Hdel; [|done].
    intros [= <- <-]. apply await_Ok in Hdel. exists c.
    split; [done|split; [done|]].
    split; [by eapply delete_exists|]. intros q Hq. by eapply delete_frame.
Qed.

Lemma applyPatch_delete_removes_file_witness :
  ((fsExists (resolvePath (js "/w") (inputPath sampleDelete)) sampleFiles).1 = Ok false ->
   forall dryRun,
     sampleRun sampleDelete (js "/w") dryRun sampleFiles
     = (Ok (mkFileChange Delete (resolvePath (js "/w") (inputPath sampleDelete))
              None None None), sampleFiles))
  /\ ((fsExists (resolvePath (js "/w") (inputPath sampleDelete)) sampleFiles).1 = Ok true ->
      forall change s',
        sampleRun sampleDelete (js "/w") false sampleFiles = (Ok change, s') ->
        exists c,
          (fsRead (resolvePath (js "/w") (inputPath sampleDelete)) sampleFiles).1 = Ok c
          /\ change = mkFileChange Delete (resolvePath (js "/w") (inputPath sampleDelete))
                        None (Some c) None
          /\ (fsExists (resolvePath (js "/w") (inputPath sampleDelete)) s').1 = Ok false
          /\ forall q, q <> resolvePath (js "/w") (inputPath sampleDelete) ->
               sameFile q sampleFiles s').
Proof.
  apply (applyPatch_delete_removes_file
           keepLineEndings keepIndentation noFuzzyMatch sampleDirname
           sampleDelete (js "/w") sampleFiles).
  reflexivity.
Defined.

(** X25: a successful update without [moveTo] reads the file, parses the
    diff into at least one chunk, and writes what [applyDiffToContent] makes
    of the old content to the same path, in one write; every other path is as
    it was.  The file holds the new content afterwards on a file system that
    stores what is written as it is. *)
Theorem applyPatch_update_in_place
    (normalizeToLF : jsstring -> jsstring)
    (adjust : jsstring -> jsstring -> jsstring -> jsstring)
    (fuzzyFind : jsstring -> jsstring -> MatchOutcome)
    (dirname : jsstring -> jsstring)
    {S E : Type} `{!FileSystem S E} `{!FileSystemLaws S E}
    (input : PatchInput) (cwd : jsstring) (s s' : S) (change : FileChange) :
  operation input = Update ->
  truthy (moveTo input) = None ->
  applyPatch normalizeToLF adjust fuzzyFind dirname input cwd false s
  = (Ok change, s') ->
  let path := resolvePath cwd (inputPath input) in
  exists d old chunks new,
    diff input = Some d
    /\ (fsRead path s).1 = Ok old
    /\ parseDiffHunks d = Some (Ok chunks)
    /\ chunks <> []
    /\ applyDiffToContent normalizeToLF adjust fuzzyFind old (inputPath input) chunks
       = Ok new
    /\ change = mkFileChange Update path None (Some old) (Some new)
    /\ fsWrite path new s = (Ok tt, s')
    /\ (forall q, q <> path -> sameFile q s s')
    /\ (storesWrites S E -> (fsRead path s').1 = Ok new).
Proof.
  intros Hop Hmove Hrun path.
  apply applyPatch_update_run in Hrun
    as (d & old & chunks & new & Hd & _ & _ & Hrd & Hp & Hne & Happ & -> & Hw);
    [|done..].
  rewrite Hmove in Hw |- *. simpl in Hw. apply await_Ok in Hw.
  exists d, old, chunks, new. repeat (split; [done|]).
  split; [|intros Hstore; by eapply Hstore].
  intros q Hq. by eapply write_frame.
Qed.

Lemma applyPatch_update_in_place_witness :
  let s' := <[js "/w/a.txt" := text ["a"; "B"; ""]]> sampleFiles in
  let path := resolvePath (js "/w") (inputPath sampleUpdate) in
  exists d old chunks new,
    diff sampleUpdate = Some d
    /\ (fsRead path sampleFiles).1 = Ok old
    /\ parseDiffHunks d = Some (Ok chunks)
    /\ chunks <> []
    /\ applyDiffToContent keepLineEndings keepIndentation noFuzzyMatch old
         (inputPath sampleUpdate) chunks = Ok new
    /\ mkFileChange Update (js "/w/a.txt") None (Some (text ["a"; "b"; ""]))
         (Some (text ["a"; "B"; ""]))
       = mkFileChange Update path None (Some old) (Some new)
    /\ fsWrite path new sampleFiles = (Ok tt, s')
    /\ (forall q, q <> path -> sameFile q sampleFiles s')
    /\ (fsRead path s').1 = Ok new.
Proof.
  intros s' path.
  destruct (applyPatch_update_in_place
              keepLineEndings keepIndentation noFuzzyMatch sampleDirname
              sampleUpdate (js "/w") sampleFiles s'
              (mkFileChange Update (js "/w/a.txt") None (Some (text ["a"; "b"; ""]))
                 (Some (text ["a"; "B"; ""]))))
    as (d & old & chunks & new & H1 & H2 & H3 & H4 & H5 & H6 & H7 & H8 & H9);
    [reflexivity|reflexivity|vm_compute; reflexivity|].
  exists d, old, chunks, new. repeat (split; [assumption|]).
  apply H9, memoryFileSystem_stores_writes.
Defined.



(** X27: an update is rejected, with the file system left as it is, in this
    order: without a diff by "Update operation requires diff", whether or not
    the file exists; for a path where no file exists by "File not found";
    for a diff of blank lines only by "Diff contains no hunks". *)
Theorem applyPatch_update_rejections
    (normalizeToLF : jsstring -> jsstring)
    (adjust : jsstring -> jsstring -> jsstring -> jsstring)
    (fuzzyFind : jsstring -> jsstring -> MatchOutcome)
    (dirname : jsstring -> jsstring)
    {S E : Type} `{!FileSystem S E} `{!FileSystemLaws S E}
    (input : PatchInput) (cwd : jsstring) (dryRun : bool) (s : S) :
  operation input = Update ->
  let path := resolvePath cwd (inputPath input) in
  let result := applyPatch normalizeToLF adjust fuzzyFind dirname input cwd dryRun s in
  (truthy (diff input) = None -> result = (Err UpdateRequiresDiff, s))
  /\ (forall d, truthy (diff input) = Some d ->
        (fsExists path s).1 = Ok false ->
        result = (Err (FileNotFound (inputPath input)), s))
  /\ (forall d old, truthy (diff input) = Some d ->
        (fsExists path s).1 = Ok true ->
        (fsRead path s).1 = Ok old ->
        Forall isBlankLine (splitLines d) ->
        result = (Err DiffContainsNoHunks, s)).
Proof.
  intros Hop path result. subst result. unfold applyPatch. rewrite Hop. fold path.
  split; [|split].
  - by intros ->.
  - intros d -> Hex. by rewrite io_bind_run, await_fsExists, Hex.
  - intros d old -> Hex Hrd Hblank.
    rewrite io_bind_run, await_fsExists, Hex. simpl.
    rewrite io_bind_run, await_fsRead, Hrd. simpl.
    rewrite io_bind_run. unfold call at 1, parsedHunks, parseDiffHunks.
    by rewrite parseLoop_blank.
Qed.

Lemma applyPatch_update_rejections_witness :
  applyPatch keepLineEndings keepIndentation noFuzzyMatch sampleDirname
    (mkPatchInput (js "a.txt") Update None (Some (text [" "; ""])))
    (js "/w") false sampleFiles
  = (Err DiffContainsNoHunks, sampleFiles).
Proof.
  destruct (applyPatch_update_rejections
              keepLineEndings keepIndentation noFuzzyMatch sampleDirname
              (mkPatchInput (js "a.txt") Update None (Some (text [" "; ""])))
              (js "/w") false sampleFiles eq_refl) as (_ & _ & H).
  apply (H (text [" "; ""]) (text ["a"; "b"; ""])).
  - reflexivity.
  - reflexivity.
  - reflexivity.
  - repeat constructor.
Defined.

(* ===================================================================== *)
(** * The remap table of the mismatch failure *)
(* ===================================================================== *)

Section Remaps.

Lemma js_inj (a b : string) : js a = js b -> a = b.
Proof.
  assert (Inj (=) (=) Ascii.N_of_ascii) as Hinj.
  { intros x y Hxy.
    rewrite <- (Ascii.ascii_N_embedding x), <- (Ascii.ascii_N_embedding y).
    by rewrite Hxy. }
  unfold js. intros H. apply (inj (fmap Ascii.N_of_ascii)) in H.
  rewrite <- (String.string_of_list_ascii_of_string a),
          <- (String.string_of_list_ascii_of_string b). by rewrite H.
Qed.

Lemma pretty_N_char_not_hash (x : N) : Ascii.N_of_ascii (pretty_N_char x) <> 35%N.
Proof. unfold pretty_N_char. by repeat case_match. Qed.

Lemma pretty_N_go_no_hash (x : N) (s : string) :
  35%N ∉ js s -> 35%N ∉ js (pretty_N_go x s).
Proof.
  revert s. induction (N.lt_wf_0 x) as [x _ IH]; intros s Hs.
  assert (x = 0 \/ 0 < x)%N as [->|?] by lia.
  - by rewrite pretty_N_go_0.
  - rewrite pretty_N_go_step by done. apply IH.
    { by apply N.div_lt. }
    unfold js. simpl. rewrite not_elem_of_cons. split; [|done].
    intros H'. by apply (pretty_N_char_not_hash (x `mod` 10)).
Qed.

Lemma pretty_nat_no_hash (l : nat) : 35%N ∉ js (pretty l).
Proof.
  unfold pretty, pretty_nat, pretty, pretty_N.
  case_decide.
  - change (35%N ∉ [48%N]). apply not_elem_of_cons. split; [done|apply not_elem_of_nil].
  - apply pretty_N_go_no_hash. apply not_elem_of_nil.
Qed.

Lemma app_sep_inj {A : Type} (x : A) (a a' b b' : list A) :
  x ∉ a -> x ∉ a' -> a ++ x :: b = a' ++ x :: b' -> a = a' /\ b = b'.
Proof.
  revert a'. induction a as [|y a IH]; intros [|y' a'] Ha Ha'; simpl.
  - by intros [= ->].
  - intros [= <- _]. destruct Ha'. by left.
  - intros [= -> _]. destruct Ha. by left.
  - intros [= -> H]. apply not_elem_of_cons in Ha as [_ Ha], Ha' as [_ Ha'].
    destruct (IH _ Ha Ha' H) as [-> ->]. done.
Qed.

(** A tag key names its line and its hash. *)
Lemma formatTagKey_inj (l l' : nat) (h h' : jsstring) :
  formatTagKey l h = formatTagKey l' h' -> l = l' /\ h = h'.
Proof.
  unfold formatTagKey. intros H.
  apply app_sep_inj in H as [Hl ->]; [|apply pretty_nat_no_hash..].
  split; [|done]. by apply (inj pretty), js_inj.
Qed.

Context (computeLineHash : nat -> jsstring -> jsstring) (fLines : list jsstring).

Local Abbreviation value := (remapValue computeLineHash fLines).
Local Abbreviation step :=
  (fun (acc : gmap jsstring jsstring) m => <[remapKey m := value m]> acc).

Lemma remaps_lookup (ms : list HashMismatch) (acc : gmap jsstring jsstring)
    (k : jsstring) :
  (exists m, m ∈ ms /\ remapKey m = k
             /\ fold_left step ms acc !! k = Some (value m))
  \/ ((forall m, m ∈ ms -> remapKey m <> k)
      /\ fold_left step ms acc !! k = acc !! k).
Proof.
  revert acc. induction ms as [|m0 ms IH]; intros acc.
  - right. split; [by intros m ?%elem_of_nil|done].
  - simpl. destruct (IH (<[remapKey m0 := value m0]> acc))
      as [(m & Hm & Hk & Hl)|[Hno Hl]].
    + left. exists m. split; [by right|done].
    + destruct (decide (remapKey m0 = k)) as [Hk|Hk].
      * left. exists m0. split; [by left|]. split; [done|].
        by rewrite Hl, <- Hk, lookup_insert_eq.
      * right. split.
        -- intros m [->|Hm]%elem_of_cons; [done|by apply Hno].
        -- by rewrite Hl, lookup_insert_ne.
Qed.

Lemma remapKey_value (m m' : HashMismatch) :
  remapKey m = remapKey m' -> value m = value m'.
Proof.
  unfold remapKey, remapValue. intros [Hl _]%formatTagKey_inj. by rewrite Hl.
Qed.

End Remaps.

(** X28: the remap table of a [HashlineMismatchError] has exactly one entry
    for each stale tag among the mismatches: the key [line#expected] is mapped
    to [line#actual], where [actual] is the hash of the line as it stands in
    the file, the table holds nothing else, and two mismatches share a key
    only when they name the same line with the same stale hash. *)
Theorem remaps_map_stale_tags_to_live_tags
    (computeLineHash : nat -> jsstring -> jsstring)
    (ms : list HashMismatch) (fLines : list jsstring) :
  let e := newHashlineMismatchError computeLineHash ms fLines in
  (forall m, m ∈ ms ->
     remaps e !! remapKey m = Some (remapValue computeLineHash fLines m))
  /\ (forall k v, remaps e !! k = Some v ->
        exists m, m ∈ ms /\ k = remapKey m
                  /\ v = remapValue computeLineHash fLines m)
  /\ (forall m m', remapKey m = remapKey m' ->
        mLine m = mLine m' /\ expected m = expected m').
Proof.
  cbv zeta. unfold newHashlineMismatchError, buildRemaps. cbn [remaps].
  split; [|split].
  - intros m Hm.
    destruct (remaps_lookup computeLineHash fLines ms ∅ (remapKey m))
      as [(m' & _ & Hk & Hl)|[Hno _]].
    + rewrite (remapKey_value computeLineHash fLines m m') by done. exact Hl.
    + by destruct (Hno m Hm).
  - intros k v Hl.
    destruct (remaps_lookup computeLineHash fLines ms ∅ k)
      as [(m' & Hm' & Hk & Hl')|[_ Hl']].
    + exists m'. split; [done|]. split; [done|].
      unfold remapKey, remapValue in *. congruence.
    + unfold remapKey, remapValue in Hl'. rewrite Hl', lookup_empty in Hl. done.
  - intros m m' H. by apply formatTagKey_inj in H.
Qed.

Lemma remaps_map_stale_tags_to_live_tags_witness :
  remaps (newHashlineMismatchError sampleLineHash
            [mkMismatch 2 (js "000001") (js "bbb")] [js "aaa"; js "bbb"])
    !! js "2#000001"
  = Some (formatTagKey 2 (sampleLineHash 2 (js "bbb"))).
Proof.
  apply (proj1 (remaps_map_stale_tags_to_live_tags sampleLineHash
                  [mkMismatch 2 (js "000001") (js "bbb")] [js "aaa"; js "bbb"])
           (mkMismatch 2 (js "000001") (js "bbb"))).
  by left.
Defined.
